(** * Quality metrics and aggregation of the multi-objective descheduler logs

    A shallow embedding of the metric functions of
    [pkg/framework/plugins/multiobjective/visualize_pareto_front.py]
    ([calculate_hypervolume], [calculate_sparsity],
    [calculate_metrics_over_time]) and of the data reductions at the head of
    [plot_academic_bar_comparison] and [plot_algorithm_comparison] in
    [analyze_optimization_results.py].

    Numbers.  Python floats are read as exact rationals ([Q]); the value
    [float('inf')] is kept apart as the constructor [Inf] of [ext].  Where a
    property turns on rounding or on the width of an integer, the function
    is given a second time on the numbers of the machine: [Binary64] holds
    the hypervolume estimator on binary64 numbers, [Int64] the sparsity of
    a front of integers, which numpy keeps in an array of [int64].

    Library calls.  The numpy generator behind [np.random.seed] and
    [np.random.uniform] is an interface ([RandomState]); [np.argsort] is a
    parameter constrained to return a permutation of the indices, since numpy
    leaves the order of equal keys open. *)

From Stdlib Require Import QArith Qminmax Qround Lqa Lia Permutation Sorted.
From Stdlib Require Uint63 PArray.
From Stdlib Require Import Floats.
From stdpp Require Import gmap strings list.

Local Open Scope Q_scope.

(** ** Numbers *)

(** A float that may be [float('inf')]. *)
Inductive ext : Type :=
  | Fin (q : Q)
  | Inf.

Definition ext_add (x : ext) (d : Q) : ext :=
  match x with
  | Fin q => Fin (q + d)
  | Inf => Inf
  end.

(** [x < b] for a finite [x] and a possibly infinite [b]. *)
Definition lt_ext (x : Q) (b : ext) : bool :=
  match b with
  | Fin q => if Qlt_le_dec x q then true else false
  | Inf => true
  end.

(** Equality of extended values up to the equality of rationals. *)
Definition ext_equiv (x y : ext) : Prop :=
  match x, y with
  | Fin a, Fin b => a == b
  | Inf, Inf => True
  | _, _ => False
  end.

#[global] Instance Qle_decision : RelDecision Qle :=
  fun x y =>
    match Qlt_le_dec y x with
    | left H => right (Qlt_not_le y x H)
    | right H => left H
    end.

#[global] Instance Qlt_decision : RelDecision Qlt :=
  fun x y =>
    match Qlt_le_dec x y with
    | left H => left H
    | right H => right (Qle_not_lt y x H)
    end.

(** ** Rows of an (n, 3) array *)

(** One row [[cost, disruption, balance]] of the [objectives] array. *)
Definition row : Type := (Q * Q * Q)%type.

Definition coord (m : nat) (r : row) : Q :=
  match m, r with
  | O, (a, _, _) => a
  | S O, (_, b, _) => b
  | _, (_, _, c) => c
  end.

Definition row_map2 (f : Q -> Q -> Q) (x y : row) : row :=
  (f (coord 0 x) (coord 0 y), f (coord 1 x) (coord 1 y), f (coord 2 x) (coord 2 y)).

Definition row_sub : row -> row -> row := row_map2 Qminus.

(** [r + c] for a scalar [c] (numpy broadcasting). *)
Definition row_add_scalar (r : row) (c : Q) : row :=
  (coord 0 r + c, coord 1 r + c, coord 2 r + c).

(** [np.min(a, axis=0)] and [np.max(a, axis=0)] of a non-empty array given
    as its first row and the rest. *)
Definition amin (r : row) (rs : list row) : row := fold_left (row_map2 Qmin) rs r.
Definition amax (r : row) (rs : list row) : row := fold_left (row_map2 Qmax) rs r.

(** [np.prod] of a row. *)
Definition row_prod (r : row) : Q := coord 0 r * coord 1 r * coord 2 r.

(** [np.all(obj <= point)]. *)
Definition all_le (obj point : row) : bool :=
  bool_decide (coord 0 obj <= coord 0 point)
  && bool_decide (coord 1 obj <= coord 1 point)
  && bool_decide (coord 2 obj <= coord 2 point).

(** Componentwise order on rows, the relation [all_le] decides. *)
Definition row_le (x y : row) : Prop :=
  coord 0 x <= coord 0 y /\ coord 1 x <= coord 1 y /\ coord 2 x <= coord 2 y.

#[global] Instance row_le_decision : RelDecision row_le :=
  fun x y => and_dec _ _.

(** ** Documents *)

(** A solution of a Pareto front, with the keys the analysis reads. *)
Record solution : Type := {
  cost : Q;
  disruption : Q;
  balance : Q;
  rawCost : Q;
  rawBalance : Q
}.

(** [[sol['cost'], sol['disruption'], sol['balance']]]. *)
Definition objective_row (sol : solution) : row :=
  (cost sol, disruption sol, balance sol).

(** ** The numpy generator *)

(** The process-wide generator of [np.random]: [rk_seed s] is the state that
    [np.random.seed(s)] installs, whatever the state was before, and
    [rk_double] draws one double of the half-open unit interval. *)
Class RandomState : Type := {
  rng : Type;
  rk_seed : Z -> rng;
  rk_double : rng -> Q * rng
}.

Section Hypervolume.
Context `{RandomState}.

(** One row of [np.random.uniform(low, high, (n, 3))]: three draws, each
    scaled as [low + (high - low) * u]. *)
Definition uniform_row (low high : row) (g : rng) : row * rng :=
  let '(u0, g) := rk_double g in
  let '(u1, g) := rk_double g in
  let '(u2, g) := rk_double g in
  ((coord 0 low + (coord 0 high - coord 0 low) * u0,
    coord 1 low + (coord 1 high - coord 1 low) * u1,
    coord 2 low + (coord 2 high - coord 2 low) * u2), g).

(** [np.random.uniform(low, high, (n, 3))], filled row by row. *)
Fixpoint random_uniform (low high : row) (n : nat) (g : rng) : list row * rng :=
  match n with
  | O => ([], g)
  | S n' =>
      let '(p, g) := uniform_row low high g in
      let '(ps, g) := random_uniform low high n' g in
      (p :: ps, g)
  end.

(** The inner loop over [objectives], leaving at the first dominating row. *)
Fixpoint is_dominated (objectives : list row) (point : row) : bool :=
  match objectives with
  | [] => false
  | obj :: rest => if all_le obj point then true else is_dominated rest point
  end.

(** The outer loop over [random_points]. *)
Definition count_dominated (objectives random_points : list row) : nat :=
  fold_left (fun dominated_count point =>
               if is_dominated objectives point then S dominated_count
               else dominated_count)
            random_points O.

Definition n_samples : nat := Z.to_nat 10000.

(** [calculate_hypervolume(pareto_front, reference_point=None)], run from
    the generator state [g]; the second component is the state it leaves. *)
Definition calculate_hypervolume (g : rng) (pareto_front : list solution)
    (reference_point : option row) : Q * rng :=
  match pareto_front with
  | [] => (0, g)
  | sol :: sols =>
      let o := objective_row sol in
      let os := map objective_row sols in
      let reference_point :=
        match reference_point with
        | None => row_add_scalar (amax o os) (1 # 10)
        | Some r => r
        end in
      let g := rk_seed 42 in
      let min_point := amin o os in
      let '(random_points, g) := random_uniform min_point reference_point n_samples g in
      let dominated_count := count_dominated (o :: os) random_points in
      let total_volume := row_prod (row_sub reference_point min_point) in
      (inject_Z (Z.of_nat dominated_count) / inject_Z 10000 * total_volume, g)
  end.

End Hypervolume.

(** ** Sparsity *)

Section Sparsity.
(** [np.argsort] on one column. *)
Variable argsort : list Q -> list nat.

(** [a[i]] for an index that is in range. *)
Definition item (a : list Q) (i : nat) : Q := default 0 (a !! i).

(** [sorted_indices[k]]; [sorted_indices[-1]] is [index_last]. *)
Definition index_at (sorted_indices : list nat) (k : nat) : nat :=
  default O (sorted_indices !! k).
Definition index_last (sorted_indices : list nat) : nat :=
  index_at sorted_indices (length sorted_indices - 1).

(** [objectives[:, m]]. *)
Definition column (m : nat) (objectives : list row) : list Q :=
  map (coord m) objectives.

(** One turn of the loop [for i in range(1, n_solutions - 1)]. *)
Definition interior_step (col : list Q) (sorted_indices : list nat) (obj_range : Q)
    (crowding_distances : list ext) (i : nat) : list ext :=
  let distance :=
    (item col (index_at sorted_indices (i + 1))
     - item col (index_at sorted_indices (i - 1))) / obj_range in
  alter (fun d => ext_add d distance) (index_at sorted_indices i) crowding_distances.

(** The body of [for m in range(n_objectives)]. *)
Definition crowding_pass (objectives : list row) (crowding_distances : list ext)
    (m : nat) : list ext :=
  let col := column m objectives in
  let n_solutions := length objectives in
  let sorted_indices := argsort col in
  let crowding_distances := <[index_at sorted_indices 0 := Inf]> crowding_distances in
  let crowding_distances := <[index_last sorted_indices := Inf]> crowding_distances in
  let obj_range :=
    item col (index_last sorted_indices) - item col (index_at sorted_indices 0) in
  if decide (0 < obj_range) then
    fold_left (interior_step col sorted_indices obj_range)
              (seq 1 (n_solutions - 2)) crowding_distances
  else crowding_distances.

Definition n_objectives : nat := 3.

(** The array [crowding_distances] after the loop over the objectives. *)
Definition crowding_distance_array (objectives : list row) : list ext :=
  fold_left (crowding_pass objectives) (seq 0 n_objectives)
            (replicate (length objectives) (Fin 0)).

(** [crowding_distances[np.isfinite(crowding_distances)]]. *)
Definition finite_values (a : list ext) : list Q :=
  omap (fun x => match x with Fin q => Some q | Inf => None end) a.

(** [np.mean]. *)
Definition mean (a : list Q) : Q :=
  fold_left Qplus a 0 / inject_Z (Z.of_nat (length a)).

(** [calculate_sparsity(pareto_front)]. *)
Definition calculate_sparsity (pareto_front : list solution) : ext :=
  if decide (length pareto_front <= 2)%nat then Inf
  else
    let objectives := map objective_row pareto_front in
    let finite_distances := finite_values (crowding_distance_array objectives) in
    if decide (0 < length finite_distances)%nat then Fin (mean finite_distances)
    else Inf.

End Sparsity.

(** One sort of the indices in the place of [np.argsort]: an insertion sort
    that keeps equal keys in their original order.  numpy's default sort may
    order equal keys otherwise; the properties are stated for every sort
    that returns a permutation, and this one serves at concrete fronts. *)
Fixpoint insert_index (a : list Q) (i : nat) (sorted : list nat) : list nat :=
  match sorted with
  | [] => [i]
  | j :: rest =>
      if decide (item a i < item a j) then i :: j :: rest
      else j :: insert_index a i rest
  end.

Definition stable_argsort (a : list Q) : list nat :=
  fold_left (fun sorted i => insert_index a i sorted) (seq 0 (length a)) [].

(** ** Result documents *)

(** A scalar held under a key of a JSON object or of a Python dict. *)
Inductive value : Type :=
  | VNum (x : ext)
  | VStr (s : string)
  | VBool (b : bool).

(** One round of a run. *)
Record round_data : Type := {
  paretoFront : list solution;
  bestSolution : solution
}.

(** One entry of [baselineResults]: its name and the other keys it holds. *)
Record baseline_result : Type := {
  algorithm : string;
  baseline_fields : gmap string value
}.

Record test_case : Type := {
  name : string;
  nodes : list (gmap string value)
}.

(** A loaded result file.  [None] is a key that is absent. *)
Record result : Type := {
  testCase : test_case;
  rounds : option (list round_data);
  baselineResults : option (list baseline_result);
  comparisonMetrics : option (gmap string (gmap string value));
  finalResults : option (gmap string value)
}.

(** ** Exceptions *)

Inductive error : Type :=
  | KeyError (k : string)
  | TypeError.

Inductive exc (A : Type) : Type :=
  | Ok (a : A)
  | Raise (e : error).
Arguments Ok {A} a.
Arguments Raise {A} e.

#[global] Instance exc_ret : MRet exc := @Ok.
#[global] Instance exc_bind : MBind exc :=
  fun A B f m =>
    match m with
    | Ok a => f a
    | Raise e => Raise e
    end.

(** A [for] loop whose body may raise. *)
Fixpoint for_each {A S : Type} (body : S -> A -> exc S) (l : list A) (s : S) : exc S :=
  match l with
  | [] => Ok s
  | x :: rest => s' ← body s x; for_each body rest s'
  end.

(** [enumerate(l)]. *)
Definition enumerate {A : Type} (l : list A) : list (nat * A) :=
  imap (fun i x => (i, x)) l.

(** [d[k]] and [d.get(k, v)]. *)
Definition getitem (d : gmap string value) (k : string) : exc value :=
  match d !! k with
  | Some v => Ok v
  | None => Raise (KeyError k)
  end.

Definition get (d : gmap string value) (k : string) (v : value) : value :=
  default v (d !! k).

(** [v / c] for a float [c > 0]; a Boolean divides as 0 or 1. *)
Definition truediv (v : value) (c : Q) : exc value :=
  match v with
  | VNum (Fin q) => Ok (VNum (Fin (q / c)))
  | VNum Inf => Ok (VNum Inf)
  | VBool b => Ok (VNum (Fin ((if b then 1 else 0) / c)))
  | VStr _ => Raise TypeError
  end.

Definition VInt (n : nat) : value := VNum (Fin (inject_Z (Z.of_nat n))).

(** ** Metrics over the rounds of a run *)

(** The dict [metrics] of four lists. *)
Record metrics : Type := {
  metrics_rounds : list nat;
  metrics_hypervolume : list Q;
  metrics_sparsity : list Q;
  metrics_pareto_size : list nat
}.

Section Metrics.
Context `{RandomState}.
Variable argsort : list Q -> list nat.

(** The rows gathered in [all_objectives]. *)
Definition all_objectives (rs : list round_data) : list row :=
  concat (map (fun round_data => map objective_row (paretoFront round_data)) rs).

(** The reference point shared by the rounds. *)
Definition global_reference_point (rs : list round_data) : row :=
  match all_objectives rs with
  | o :: os => row_add_scalar (amax o os) (1 # 10)
  | [] => (11 # 10, 11 # 10, 11 # 10)
  end.

(** [sparsity if sparsity != float('inf') else 100]. *)
Definition cap_sparsity (sparsity : ext) : Q :=
  match sparsity with
  | Fin q => q
  | Inf => 100
  end.

(** The body of the loop over [enumerate(data['rounds'])]. *)
Definition metrics_step (reference_point : row) (st : metrics * rng)
    (ir : nat * round_data) : metrics * rng :=
  let '(m, g) := st in
  let '(i, round_data) := ir in
  let pareto_front := paretoFront round_data in
  let '(hypervolume, g) := calculate_hypervolume g pareto_front (Some reference_point) in
  let sparsity := calculate_sparsity argsort pareto_front in
  ({| metrics_rounds := metrics_rounds m ++ [(i + 1)%nat];
      metrics_hypervolume := metrics_hypervolume m ++ [hypervolume];
      metrics_sparsity := metrics_sparsity m ++ [cap_sparsity sparsity];
      metrics_pareto_size := metrics_pareto_size m ++ [length pareto_front] |}, g).

(** [calculate_metrics_over_time(data)], run from the generator state [g]. *)
Definition calculate_metrics_over_time (g : rng) (data : result) : exc (metrics * rng) :=
  match rounds data with
  | None => Raise (KeyError "rounds")
  | Some rs =>
      let reference_point := global_reference_point rs in
      Ok (fold_left (metrics_step reference_point) (enumerate rs)
            ({| metrics_rounds := []; metrics_hypervolume := [];
                metrics_sparsity := []; metrics_pareto_size := [] |}, g))
  end.

End Metrics.

(** ** Grouping by node count ([plot_academic_bar_comparison]) *)

Local Open Scope string_scope.
Local Open Scope list_scope.

(** The six accumulators of the scan over the rounds. *)
Record best_values : Type := {
  best_cost : ext;
  best_balance : ext;
  best_disruption : ext;
  best_cost_round : nat;
  best_balance_round : nat;
  best_disruption_round : nat
}.

Definition best_init : best_values :=
  {| best_cost := Inf; best_balance := Inf; best_disruption := Inf;
     best_cost_round := 0; best_balance_round := 0; best_disruption_round := 0 |}.

(** The body of [for i, round_data in enumerate(result['rounds'])]. *)
Definition best_step (b : best_values) (ir : nat * round_data) : best_values :=
  let '(i, round_data) := ir in
  let solution := bestSolution round_data in
  let c := lt_ext (rawCost solution) (best_cost b) in
  let l := lt_ext (rawBalance solution) (best_balance b) in
  let d := lt_ext (disruption solution) (best_disruption b) in
  {| best_cost := if c then Fin (rawCost solution) else best_cost b;
     best_cost_round := if c then (i + 1)%nat else best_cost_round b;
     best_balance := if l then Fin (rawBalance solution) else best_balance b;
     best_balance_round := if l then (i + 1)%nat else best_balance_round b;
     best_disruption := if d then Fin (disruption solution) else best_disruption b;
     best_disruption_round := if d then (i + 1)%nat else best_disruption_round b |}.

Definition best_over_rounds (rs : list round_data) : best_values :=
  fold_left best_step (enumerate rs) best_init.

(** What the three [print] calls after the scan show for one result. *)
Record printed_best : Type := {
  printed_node_count : nat;
  printed_values : best_values
}.

(** One value of [scenario_data]. *)
Record scenario : Type := {
  nsga_ii : gmap string value;
  baselines : gmap string (gmap string value)
}.

Definition nsga_entry (b : best_values) (rounds_completed : nat) : gmap string value :=
  {[ "cost" := VNum (best_cost b);
     "balance" := VNum (best_balance b);
     "disruption" := VNum (best_disruption b);
     "rounds_completed" := VInt rounds_completed ]}.

(** The dict stored for one baseline. *)
Definition baseline_entry (baseline : baseline_result) : exc (gmap string value) :=
  c ← getitem (baseline_fields baseline) "rawCost";
  b ← getitem (baseline_fields baseline) "rawBalance";
  t ← truediv (get (baseline_fields baseline) "executionTimeMs" (VNum (Fin 0))) 1000;
  mret ({[ "cost" := c;
           "balance" := b;
           "disruption" := VNum (Fin 0);
           "execution_time" := t ]} : gmap string value).

(** The body of [for baseline in result['baselineResults']], on the
    [baselines] dict of one scenario. *)
Definition baseline_step (bs : gmap string (gmap string value))
    (baseline : baseline_result) : exc (gmap string (gmap string value)) :=
  let alg_name := algorithm baseline in
  let bs := match bs !! alg_name with
            | None => <[alg_name := ∅]> bs
            | Some _ => bs
            end in
  e ← baseline_entry baseline;
  mret (<[alg_name := e]> bs).

(** The state of the grouping loop: [scenario_data] and what was printed. *)
Definition grouping : Type := (gmap nat scenario * list printed_best)%type.

(** The body of [for result in self.results]. *)
Definition scenario_step (st : grouping) (result : result) : exc grouping :=
  let '(scenario_data, out) := st in
  let node_count := length (nodes (testCase result)) in
  let scenario_data :=
    match scenario_data !! node_count with
    | None => <[node_count := {| nsga_ii := ∅; baselines := ∅ |}]> scenario_data
    | Some _ => scenario_data
    end in
  let '(scenario_data, out) :=
    match rounds result with
    | Some (r :: rs) =>
        let b := best_over_rounds (r :: rs) in
        (alter (fun s => {| nsga_ii := nsga_entry b (length (r :: rs));
                            baselines := baselines s |}) node_count scenario_data,
         out ++ [{| printed_node_count := node_count; printed_values := b |}])
    | _ => (scenario_data, out)
    end in
  match baselineResults result with
  | Some bl =>
      bs ← for_each baseline_step bl
             (default ∅ (baselines <$> scenario_data !! node_count));
      mret (alter (fun s => {| nsga_ii := nsga_ii s; baselines := bs |})
                  node_count scenario_data, out)
  | None => mret (scenario_data, out)
  end.

(** [scenario_data] as the loop leaves it, with the lines printed on the way. *)
Definition collect_scenario_data (results : list result) : exc grouping :=
  for_each scenario_step results (∅, []).

(** ** Comparison records ([plot_algorithm_comparison]) *)

(** Truth value of [result['finalResults']] when the key is there. *)
Definition has_final_results (result : result) : bool :=
  match finalResults result with
  | Some d => bool_decide (d ≠ ∅)
  | None => false
  end.

Definition nsga_record (test_name : string)
    (comparison_metrics : gmap string (gmap string value)) : gmap string value :=
  let nsga_best := default ∅ (comparison_metrics !! "nsgaiiBest") in
  {[ "test_case" := VStr test_name;
     "algorithm" := VStr "NSGA-II";
     "cost" := get nsga_best "rawCost" (VNum (Fin 0));
     "balance" := get nsga_best "rawBalance" (VNum (Fin 0));
     "disruption" := get nsga_best "disruption" (VNum (Fin 0));
     "weighted_score" := get nsga_best "weightedScore" (VNum (Fin 0));
     "movements" := get nsga_best "movements" (VNum (Fin 0));
     "feasible" := VBool true;
     "execution_time" :=
       get (default ∅ (comparison_metrics !! "performanceComparison"))
           "nsgaiiExecutionTime" (VNum (Fin 0)) ]}.

Definition baseline_record (test_name : string) (baseline : baseline_result)
    : exc (gmap string value) :=
  let d := baseline_fields baseline in
  c ← getitem d "rawCost";
  b ← getitem d "rawBalance";
  r ← getitem d "disruption";
  w ← getitem d "weightedScore";
  m ← getitem d "movements";
  f ← getitem d "feasible";
  t ← getitem d "executionTimeMs";
  mret ({[ "test_case" := VStr test_name;
           "algorithm" := VStr (algorithm baseline);
           "cost" := c;
           "balance" := b;
           "disruption" := r;
           "weighted_score" := w;
           "movements" := m;
           "feasible" := f;
           "execution_time" := t ]} : gmap string value).

(** The body of [for result in self.results], on the list [algorithm_data]. *)
Definition comparison_step (algorithm_data : list (gmap string value))
    (result : result) : exc (list (gmap string value)) :=
  let test_name := name (testCase result) in
  let baseline_results := default [] (baselineResults result) in
  let comparison_metrics := default ∅ (comparisonMetrics result) in
  let algorithm_data :=
    if has_final_results result
    then algorithm_data ++ [nsga_record test_name comparison_metrics]
    else algorithm_data in
  for_each (fun acc baseline =>
              r ← baseline_record test_name baseline; mret (acc ++ [r]))
           baseline_results algorithm_data.

Definition collect_algorithm_data (results : list result)
    : exc (list (gmap string value)) :=
  for_each comparison_step results [].

(** ** The generator numpy installs

    [np.random.seed] and [np.random.uniform] drive the Mersenne Twister of
    numpy's legacy [RandomState] ([mt19937_seed], [mt19937_gen],
    [mt19937_next], [mt19937_next_double] of numpy's [mt19937.c]).  It is
    one instance of [RandomState]; the properties below are stated for every
    instance. *)

Module MT19937.
Import Uint63 PArray.
Local Open Scope uint63_scope.

(** The [uint32_t] words are kept in machine integers, masked to 32 bits
    where the C code relies on the word size. *)
Record mt19937_state : Type := {
  key : array int;
  pos : int
}.

Definition RK_STATE_LEN : int := 624.
Definition M : int := 397.
Definition MATRIX_A : int := 0x9908b0df.
Definition UPPER_MASK : int := 0x80000000.
Definition LOWER_MASK : int := 0x7fffffff.

(** Truncation to [uint32_t]. *)
Definition u32 (x : int) : int := x land 0xffffffff.

(** [for (pos = 0; pos < RK_STATE_LEN; pos++)] of [mt19937_seed], with [n]
    turns left. *)
Fixpoint seed_loop (n : nat) (p : int) (seed : int) (k : array int) : array int :=
  match n with
  | O => k
  | S n' =>
      seed_loop n' (p + 1)
        (u32 (1812433253 * (seed lxor (seed >> 30)) + p + 1))
        k.[p <- seed]
  end.

Definition mt19937_seed (seed : int) : mt19937_state :=
  {| key := seed_loop 624 0 (u32 seed) (make RK_STATE_LEN 0);
     pos := RK_STATE_LEN |}.

(** [key[i] = key[s] ^ (y >> 1) ^ (-(y & 1) & MATRIX_A)] with [y] made of
    the top bit of [key[i]] and the low bits of [key[j]]. *)
Definition twist (k : array int) (i j s : int) : array int :=
  let y := (k.[i] land UPPER_MASK) lor (k.[j] land LOWER_MASK) in
  k.[i <- (k.[s] lxor (y >> 1)) lxor (if (y land 1) =? 0 then 0 else MATRIX_A)].

(** [n] turns of a loop of [mt19937_gen] from index [i], reading
    [key[i + off - N]]. *)
Fixpoint gen_loop (n : nat) (i : int) (off : int) (k : array int) : array int :=
  match n with
  | O => k
  | S n' => gen_loop n' (i + 1) off (twist k i (i + 1) (i + off - RK_STATE_LEN))
  end.

Definition mt19937_gen (k : array int) : array int :=
  let k := gen_loop 227 0 (M + RK_STATE_LEN) k in
  let k := gen_loop 396 227 M k in
  twist k (RK_STATE_LEN - 1) 0 (M - 1).

Definition mt19937_next (st : mt19937_state) : int * mt19937_state :=
  let st := if pos st =? RK_STATE_LEN
            then {| key := mt19937_gen (key st); pos := 0 |}
            else st in
  let y := (key st).[pos st] in
  let y := y lxor (y >> 11) in
  let y := y lxor (u32 (y << 7) land 0x9d2c5680) in
  let y := y lxor (u32 (y << 15) land 0xefc60000) in
  let y := y lxor (y >> 18) in
  (y, {| key := key st; pos := pos st + 1 |}).

(** [(a * 67108864.0 + b) / 9007199254740992.0]: a multiple of [2^-53]. *)
Definition mt19937_next_double (st : mt19937_state) : Q * mt19937_state :=
  let '(x, st) := mt19937_next st in
  let '(y, st) := mt19937_next st in
  let a := x >> 5 in
  let b := y >> 6 in
  (Qmake (to_Z a * 67108864 + to_Z b) 9007199254740992, st).

(** [np.random.seed(s)] for [0 <= s < 2^32]. *)
Definition legacy_seeding (s : Z) : mt19937_state := mt19937_seed (of_Z s).

#[export] Instance random_state : RandomState := {|
  rng := mt19937_state;
  rk_seed := legacy_seeding;
  rk_double := mt19937_next_double
|}.

End MT19937.

(** ** Notions the properties are stated with *)

(** [low] is the componentwise minimum of the rows [objs]. *)
Definition componentwise_min (low : row) (objs : list row) : Prop :=
  forall m : nat,
    (forall o, o ∈ objs -> coord m low <= coord m o)
    /\ (exists o, o ∈ objs /\ coord m o == coord m low).

(** [high] is the componentwise maximum of the rows [objs]. *)
Definition componentwise_max (high : row) (objs : list row) : Prop :=
  forall m : nat,
    (forall o, o ∈ objs -> coord m o <= coord m high)
    /\ (exists o, o ∈ objs /\ coord m o == coord m high).

(** [Π (high[i] - low[i])]. *)
Definition box_volume (low high : row) : Q :=
  (coord 0 high - coord 0 low) * (coord 1 high - coord 1 low)
  * (coord 2 high - coord 2 low).

(** The samples of [samples] that some row of [objs] dominates. *)
Definition dominated_samples (objs samples : list row) : list row :=
  filter (fun p => Exists (fun o => row_le o p) objs) samples.

(** The first [n] doubles drawn from the state [g]. *)
Fixpoint unit_draws `{RandomState} (n : nat) (g : rng) : list Q :=
  match n with
  | O => []
  | S n' => let '(u, g') := rk_double g in u :: unit_draws n' g'
  end.

(** [ref] is the componentwise maximum of the rows [objs] plus 0.1. *)
Definition front_reference (ref : row) (objs : list row) : Prop :=
  exists high : row,
    componentwise_max high objs
    /\ forall m : nat, coord m ref == coord m high + (1 # 10).

#[global] Instance exc_fmap : FMap exc :=
  fun A B f m =>
    match m with
    | Ok a => Ok (f a)
    | Raise e => Raise e
    end.

(** Position [k] of a sort order of [n] indices is one of its two ends. *)
Definition is_end (n k : nat) : bool :=
  bool_decide (k = 0 \/ k = n - 1)%nat.

Section CrowdingNotions.
Variable argsort : list Q -> list nat.

(** The [obj_range] of a column: its value at the last index of the sort
    order minus its value at the first. *)
Definition sort_range (col : list Q) : Q :=
  item col (index_last (argsort col)) - item col (index_at (argsort col) 0).

(** What the column adds to the distance of the solution at position [k] of
    its sort order, when [k] is not an end. *)
Definition contribution (col : list Q) (k : nat) : Q :=
  if decide (0 < sort_range col)
  then (item col (index_at (argsort col) (k + 1))
        - item col (index_at (argsort col) (k - 1))) / sort_range col
  else 0.

End CrowdingNotions.

Section CrowdingUpdate.
Variable argsort : list Q -> list nat.

(** The distance of the solution at position [k] of the sort order of
    [col], after the pass over that column, from its distance [d] before
    the pass. *)
Definition pass_update (n : nat) (col : list Q) (k : nat) (d : ext) : ext :=
  if is_end n k then Inf
  else if decide (0 < sort_range argsort col)
       then ext_add d ((item col (index_at (argsort col) (k + 1))
                        - item col (index_at (argsort col) (k - 1)))
                       / sort_range argsort col)
       else d.

End CrowdingUpdate.

(** The crowding distance of the solution standing at positions [k0], [k1]
    and [k2] of the sort orders of the three columns: infinite when one of
    the positions is an end, the sum of the three contributions otherwise. *)
Definition crowding_distance_at (argsort : list Q -> list nat) (objs : list row)
    (k0 k1 k2 : nat) : ext :=
  let n := length objs in
  if is_end n k0 || is_end n k1 || is_end n k2 then Inf
  else Fin (contribution argsort (column 0 objs) k0
            + contribution argsort (column 1 objs) k1
            + contribution argsort (column 2 objs) k2).

(** All rows of [objs] agree in coordinate [m]: maximum minus minimum is 0. *)
Definition zero_range (m : nat) (objs : list row) : Prop :=
  forall o o' : row, o ∈ objs -> o' ∈ objs -> coord m o == coord m o'.

(** Sample documents for the concrete instances below. *)
Definition sol3 (c d b : Q) : solution :=
  {| cost := c; disruption := d; balance := b; rawCost := c; rawBalance := b |}.

(** Five solutions of equal cost; solutions 1 and 2 are the ends of the
    sort orders of disruption and of balance. *)
Definition equal_cost_front : list solution :=
  [sol3 1 2 4; sol3 1 1 5; sol3 1 10 1; sol3 1 3 3; sol3 1 4 2].

(** The keys [plot_algorithm_comparison] reads from a baseline. *)
Definition baseline_keys : list string :=
  ["rawCost"; "rawBalance"; "disruption"; "weightedScore"; "movements";
   "feasible"; "executionTimeMs"]%string.

Definition complete_baseline (baseline : baseline_result) : Prop :=
  forall k : string, k ∈ baseline_keys -> is_Some (baseline_fields baseline !! k).

(** A baseline holding the seven keys, and one without [disruption]. *)
Definition full_baseline (alg : string) (c b d : Q) : baseline_result :=
  {| algorithm := alg;
     baseline_fields :=
       {[ "rawCost" := VNum (Fin c); "rawBalance" := VNum (Fin b);
          "disruption" := VNum (Fin d); "weightedScore" := VNum (Fin 1);
          "movements" := VNum (Fin 0); "feasible" := VBool true;
          "executionTimeMs" := VNum (Fin 2000) ]}%string |}.

Definition placement_baseline (alg : string) (c b : Q) : baseline_result :=
  {| algorithm := alg;
     baseline_fields :=
       {[ "rawCost" := VNum (Fin c); "rawBalance" := VNum (Fin b) ]}%string |}.

(** A round whose best solution has raw cost [c]. *)
Definition cost_round (c : Q) : round_data :=
  {| paretoFront := []; bestSolution := sol3 c 0 0 |}.

(** A run on [n] nodes with the given rounds, baselines and final results. *)
Definition sample_run (n : nat) (rs : option (list round_data))
    (bl : option (list baseline_result)) (fr : option (gmap string value)) : result :=
  {| testCase := {| name := "case"; nodes := replicate n ∅ |};
     rounds := rs;
     baselineResults := bl;
     comparisonMetrics := None;
     finalResults := fr |}.

(** [c] is the least value of [f] over the rounds [rs], and [j] is the
    number, counted from 1, of the first round where [f] takes it. *)
Definition first_minimum (f : round_data -> Q) (rs : list round_data) (c : Q) (j : nat)
    : Prop :=
  (1 <= j)%nat
  /\ (exists r, rs !! (j - 1)%nat = Some r /\ f r = c)
  /\ (forall r, r ∈ rs -> c <= f r)
  /\ (forall i r, (i < j - 1)%nat -> rs !! i = Some r -> c < f r).

(** Every entry of a [baselines] dict holds the number 0 under
    ["disruption"]. *)
Definition zero_disruption (bs : gmap string (gmap string value)) : Prop :=
  forall (alg : string) (e : gmap string value),
    bs !! alg = Some e -> e !! "disruption"%string = Some (VNum (Fin 0)).

(** The scan of [best_step] for one objective [f] alone: the best value so
    far and the number of the round it was found in. *)
Definition scan_step (f : round_data -> Q) (acc : ext * nat) (ir : nat * round_data)
    : ext * nat :=
  let '(i, r) := ir in
  if lt_ext (f r) acc.1 then (Fin (f r), (i + 1)%nat) else acc.

(** The three objectives the grouping reads from the best solution of a round. *)
Definition round_cost (r : round_data) : Q := rawCost (bestSolution r).
Definition round_balance (r : round_data) : Q := rawBalance (bestSolution r).
Definition round_disruption (r : round_data) : Q := disruption (bestSolution r).

(** [len(test_case['nodes'])]. *)
Definition node_count (result : result) : nat := length (nodes (testCase result)).

(** The three rounds of the scenario of the specification: one solution,
    then two, then none. *)
Definition front_round (front : list solution) : round_data :=
  {| paretoFront := front; bestSolution := sol3 0 0 0 |}.

Definition scenario_rounds : list round_data :=
  [front_round [sol3 (1 # 2) (1 # 2) (1 # 2)];
   front_round [sol3 (3 # 10) (3 # 10) (3 # 10); sol3 (6 # 10) (1 # 10) (4 # 10)];
   front_round []].

Definition three_baselines : list baseline_result :=
  [full_baseline "Best Fit Decreasing" 10 5 0;
   full_baseline "First Fit Decreasing" 11 6 0;
   full_baseline "Random Placement" 12 7 (1 # 2)]%string.

(** The distance the interior loop adds at position [i] of a sort order. *)
Definition neighbour_gap (col : list Q) (sorted : list nat) (obj_range : Q) (i : nat) : Q :=
  (item col (index_at sorted (i + 1)) - item col (index_at sorted (i - 1))) / obj_range.

(** The keys of a column are in ascending order along [sorted]. *)
Definition ascending (col : list Q) (sorted : list nat) : Prop :=
  Sorted (fun i j => item col i <= item col j) sorted.

(** ** Grouping by node count with the final round
    ([plot_academic_style_comparison] and its [_OLD] copy) *)

(** The dict stored for the proposed algorithm: the best solution of the
    last round. *)
Definition final_entry (rs : list round_data) (final_round : round_data)
    : gmap string value :=
  let best_solution := bestSolution final_round in
  {[ "cost" := VNum (Fin (rawCost best_solution));
     "balance" := VNum (Fin (rawBalance best_solution));
     "disruption" := VNum (Fin (disruption best_solution));
     "rounds_completed" := VInt (length rs) ]}.

(** The dict stored for one baseline; its disruption is read from the
    record. *)
Definition style_baseline_entry (baseline : baseline_result) : exc (gmap string value) :=
  c ← getitem (baseline_fields baseline) "rawCost";
  b ← getitem (baseline_fields baseline) "rawBalance";
  d ← getitem (baseline_fields baseline) "disruption";
  t ← truediv (get (baseline_fields baseline) "executionTimeMs" (VNum (Fin 0))) 1000;
  mret ({[ "cost" := c;
           "balance" := b;
           "disruption" := d;
           "execution_time" := t ]} : gmap string value).

Definition style_baseline_step (bs : gmap string (gmap string value))
    (baseline : baseline_result) : exc (gmap string (gmap string value)) :=
  let alg_name := algorithm baseline in
  let bs := match bs !! alg_name with
            | None => <[alg_name := ∅]> bs
            | Some _ => bs
            end in
  e ← style_baseline_entry baseline;
  mret (<[alg_name := e]> bs).

(** The body of [for result in self.results]. *)
Definition style_scenario_step (scenario_data : gmap nat scenario) (result : result)
    : exc (gmap nat scenario) :=
  let node_count := length (nodes (testCase result)) in
  let scenario_data :=
    match scenario_data !! node_count with
    | None => <[node_count := {| nsga_ii := ∅; baselines := ∅ |}]> scenario_data
    | Some _ => scenario_data
    end in
  let scenario_data :=
    match rounds result with
    | Some (r :: rs) =>
        let final_round := List.last rs r in
        alter (fun s => {| nsga_ii := final_entry (r :: rs) final_round;
                           baselines := baselines s |}) node_count scenario_data
    | _ => scenario_data
    end in
  match baselineResults result with
  | Some bl =>
      bs ← for_each style_baseline_step bl
             (default ∅ (baselines <$> scenario_data !! node_count));
      mret (alter (fun s => {| nsga_ii := nsga_ii s; baselines := bs |})
                  node_count scenario_data)
  | None => mret scenario_data
  end.

Definition collect_style_scenario_data (results : list result)
    : exc (gmap nat scenario) :=
  for_each style_scenario_step results ∅.

(** ** Python indexing *)

(** [l[i]] for a Python list: a negative index counts from the end, and
    [None] stands for [IndexError]. *)
Definition py_getitem {A : Type} (l : list A) (i : Z) : option A :=
  if decide (0 <= i)%Z then l !! Z.to_nat i
  else if decide (- Z.of_nat (length l) <= i)%Z
       then l !! Z.to_nat (Z.of_nat (length l) + i)
       else None.

(** The round [create_3d_pareto_plot] and [create_2d_projections] draw for
    a [round_num] that is not [None]: [data['rounds'][round_num - 1]]. *)
Definition selected_round (rs : list round_data) (round_num : Z) : option round_data :=
  py_getitem rs (round_num - 1).

(** ** Expansion of the file arguments ([main] of the analyzer) *)

Section AnalyzerMain.
(** [glob.glob]. *)
Variable glob : string -> list string.

(** The loop over [args.files]. *)
Definition expand_patterns (files : list string) : list string :=
  fold_left (fun json_files pattern =>
               let expanded := glob pattern in
               match expanded with
               | [] => json_files ++ [pattern]
               | _ :: _ => json_files ++ expanded
               end) files [].

End AnalyzerMain.

(** ** Whether the grouped charts are drawn *)

(** The guard [if len(scenario_data) < 2: ... return] of the two grouped
    comparisons: [true] when the chart is drawn. *)
Definition enough_scenarios (scenario_data : gmap nat scenario) : bool :=
  negb (bool_decide (size scenario_data < 2)%nat).

(** ** The streaks of rounds without movement ([plot_convergence_behavior]) *)

(** The body of [for j, moves in enumerate(data['feasible_movements'])]. *)
Definition streak_step (st : list (Z * Z) * Z) (jm : nat * Q) : list (Z * Z) * Z :=
  let '(zero_streaks, current_streak) := st in
  let '(j, moves) := jm in
  if Qeq_dec moves 0 then (zero_streaks, (current_streak + 1)%Z)
  else
    ((if decide (3 <= current_streak)%Z
      then zero_streaks ++ [((Z.of_nat j - current_streak + 1)%Z, Z.of_nat j)]
      else zero_streaks),
     0%Z).

(** The list [zero_streaks] after the loop. *)
Definition zero_streaks (feasible_movements : list Q) : list (Z * Z) :=
  (fold_left streak_step (enumerate feasible_movements) ([], 0%Z)).1.

(** [conv_start], the abscissa of the dashed line; [None] when
    [zero_streaks] is empty and no line is drawn. *)
Definition conv_start (feasible_movements : list Q) : option Z :=
  match last (zero_streaks feasible_movements) with
  | Some streak => Some (streak.1 + 1)%Z
  | None => None
  end.

(** ** The panels of [create_quality_metrics_plot] *)

Definition is_inf (x : ext) : bool :=
  match x with
  | Inf => true
  | Fin _ => false
  end.

(** [s != float('inf') and s < 100] for an entry of [metrics['sparsity']]. *)
Definition below_cap (s : Q) : bool := negb (is_inf (Fin s)) && bool_decide (s < 100).

Definition finite_sparsity (m : metrics) : list Q :=
  List.filter below_cap (metrics_sparsity m).

Definition finite_rounds (m : metrics) : list nat :=
  map fst (List.filter (fun rs => below_cap rs.2)
                       (zip (metrics_rounds m) (metrics_sparsity m))).

Definition valid_indices (m : metrics) : list nat :=
  map fst (List.filter (fun js => below_cap js.2) (enumerate (metrics_sparsity m))).

(** [[a[i] for i in valid_indices]]; [None] stands for [IndexError]. *)
Definition take_indices {A : Type} (a : list A) (indices : list nat) : option (list A) :=
  mapM (fun i => a !! i) indices.

Definition scatter_hypervolume (m : metrics) : option (list Q) :=
  take_indices (metrics_hypervolume m) (valid_indices m).
Definition scatter_sparsity (m : metrics) : option (list Q) :=
  take_indices (metrics_sparsity m) (valid_indices m).
Definition scatter_rounds (m : metrics) : option (list nat) :=
  take_indices (metrics_rounds m) (valid_indices m).

(** ** The trend of [create_movement_analysis_plot] *)

(** [np.convolve(a, v, mode='valid')] for a kernel [v] that is not longer
    than [a] and not empty: entry [k] is the sum of [a[k + m - 1 - j] * v[j]]
    over the [m] entries of the kernel. *)
Definition convolve_valid (a v : list Q) : list Q :=
  let n := length a in
  let m := length v in
  map (fun k => fold_left Qplus
                  (map (fun j => item a (k + (m - 1) - j) * item v j) (seq 0 m)) 0)
      (seq 0 (n - m + 1)).

(** [window_size], and [np.ones(window_size)/window_size]. *)
Definition window_size (movements : list Q) : nat := Nat.min 3 (length movements).
Definition window (movements : list Q) : list Q :=
  replicate (window_size movements) (1 / inject_Z (Z.of_nat (window_size movements))).

Definition moving_avg (movements : list Q) : list Q :=
  convolve_valid movements (window movements).

(** [rounds[window_size-1:]]. *)
Definition moving_avg_rounds (rounds : list nat) (movements : list Q) : list nat :=
  drop (window_size movements - 1) rounds.

(** ** The file arguments of the comparison of weight configurations
    ([expand_file_patterns] of [compare_weight_configurations.py]) *)

(** [sub in s] for two strings. *)
Definition str_in (sub s : string) : bool :=
  match String.index 0 sub s with
  | Some _ => true
  | None => false
  end.

(** The loop that removes duplicates: [unique_files] and [seen]. *)
Definition unique_step (st : list string * gset string) (f : string)
    : list string * gset string :=
  let '(unique_files, seen) := st in
  if decide (f ∈ seen) then st
  else (unique_files ++ [f], seen ∪ {[f]}).

Section WeightFiles.
(** [glob.glob] and [os.path.exists]. *)
Variable glob : string -> list string.
Variable path_exists : string -> bool.

(** The body of [for arg in args]. *)
Definition gather_step (files : list string) (arg : string) : list string :=
  if str_in "*" arg || str_in "?" arg then files ++ glob arg
  else if path_exists arg then files ++ [arg]
  else files.

(** The list [files] after the first loop. *)
Definition gathered_files (args : list string) : list string :=
  fold_left gather_step args [].

Definition expand_file_patterns (args : list string) : list string :=
  (fold_left unique_step (gathered_files args) ([], ∅)).1.

End WeightFiles.

(** ** The colours of the weight configurations ([create_color_mapping]) *)

Definition distinct_colors : list string :=
  ["#1f77b4"; "#ff7f0e"; "#2ca02c"; "#d62728"; "#9467bd";
   "#8c564b"; "#e377c2"; "#7f7f7f"; "#bcbd22"; "#17becf"].

Section ColorMapping.
(** The documents, and the string
    [extract_weight_profile_summary(data['testCase']['weightProfile'])] of
    one; the formatting of the three weights is not modelled. *)
Variable dataset : Type.
Variable weight_summary : dataset -> string.

(** The body of [for data in datasets]. *)
Definition color_step (st : gmap string string * nat) (data : dataset)
    : gmap string string * nat :=
  let '(config_colors, color_idx) := st in
  let summary := weight_summary data in
  match config_colors !! summary with
  | Some _ => st
  | None =>
      (<[summary := default "" (distinct_colors !! (color_idx mod length distinct_colors)%nat)]>
         config_colors,
       (color_idx + 1)%nat)
  end.

Definition create_color_mapping (datasets : list dataset) : gmap string string :=
  (fold_left color_step datasets (∅, 0%nat)).1.

End ColorMapping.

(** ** Runs of rounds without movement *)

(** The [len] rounds from index [first] on hold no movement, and the round
    before them, if there is one, holds some. *)
Definition zero_run (fm : list Q) (first len : nat) : Prop :=
  (forall i, (first <= i < first + len)%nat -> exists y, fm !! i = Some y /\ y == 0)
  /\ (first = 0%nat \/ exists y, fm !! (first - 1)%nat = Some y /\ ~ y == 0).

(** Round [j] holds some movement and ends a run of [c] rounds without, for
    [c] at least 3. *)
Definition streak_before (fm : list Q) (j c : nat) : Prop :=
  (3 <= c <= j)%nat
  /\ zero_run fm (j - c) c
  /\ exists x, fm !! j = Some x /\ ~ x == 0.

(** ** What an argument adds to the files of the comparison *)

(** The file [f] is a match of the argument when the argument holds a
    wildcard, and is the argument itself, which exists, when it holds none. *)
Definition contributes (glob : string -> list string) (path_exists : string -> bool)
    (arg f : string) : Prop :=
  if str_in "*" arg || str_in "?" arg then f ∈ glob arg
  else path_exists arg = true /\ f = arg.

(** ** The range check of [np.random.uniform] *)

(** The least magnitude that binary64 rounds to an infinity:
    [2^1024 - 2^970]. *)
Definition overflow_threshold : Q :=
  inject_Z (2 ^ 1024 - 2 ^ 970).

(** [np.isfinite(high - low)] in one coordinate: the difference of two
    binary64 numbers is finite exactly when its exact value is below the
    threshold in absolute value. *)
Definition finite_difference (x y : Q) : bool :=
  bool_decide (- overflow_threshold < x - y) && bool_decide (x - y < overflow_threshold).

(** [np.all(np.isfinite(high - low))]. *)
Definition finite_ranges (low high : row) : bool :=
  finite_difference (coord 0 high) (coord 0 low)
  && finite_difference (coord 1 high) (coord 1 low)
  && finite_difference (coord 2 high) (coord 2 low).

Section HypervolumeChecked.
Context `{RandomState}.

(** [calculate_hypervolume] with the [OverflowError] that
    [np.random.uniform] raises when a range is not finite; [None] stands for
    the exception. *)
Definition calculate_hypervolume_checked (g : rng) (pareto_front : list solution)
    (reference_point : option row) : option (Q * rng) :=
  match pareto_front with
  | [] => Some (0, g)
  | sol :: sols =>
      let o := objective_row sol in
      let os := map objective_row sols in
      let high :=
        match reference_point with
        | None => row_add_scalar (amax o os) (1 # 10)
        | Some r => r
        end in
      if finite_ranges (amin o os) high
      then Some (calculate_hypervolume g pareto_front reference_point)
      else None
  end.

End HypervolumeChecked.

(** No range exceeds [2^340] in absolute value: in binary64 neither the
    range check of [np.random.uniform] nor the product of the three ranges
    overflows. *)
Definition moderate_ranges (low high : row) : Prop :=
  forall m : nat,
    - inject_Z (2 ^ 340) <= coord m high - coord m low
    /\ coord m high - coord m low <= inject_Z (2 ^ 340).

(** ** The estimator on binary64 numbers

    The same function with the numbers as the doubles they are: the
    generator returns the double [(a * 67108864.0 + b) / 9007199254740992.0],
    a sample is the rounded [low + (high - low) * u], and the comparisons,
    the product and the quotient are those of binary64. *)

Module Binary64.
Import Uint63 PrimFloat.

Definition frow : Type := (float * float * float)%type.

Definition fcoord (m : nat) (r : frow) : float :=
  match m with
  | O => r.1.1
  | S O => r.1.2
  | _ => r.2
  end.

(** [rk_double] of numpy's [randomkit.c]. *)
Definition mt19937_next_double (st : MT19937.mt19937_state)
    : float * MT19937.mt19937_state :=
  let '(x, st) := MT19937.mt19937_next st in
  let '(y, st) := MT19937.mt19937_next st in
  let a := (x >> 5)%uint63 in
  let b := (y >> 6)%uint63 in
  ((of_uint63 a * 67108864 + of_uint63 b) / 9007199254740992, st)%float.

(** [np.min(objectives, axis=0)] and [np.max(objectives, axis=0)]. *)
Definition fmin (x y : float) : float := if (y <? x)%float then y else x.
Definition fmax (x y : float) : float := if (x <? y)%float then y else x.
Definition amin (r : frow) (rs : list frow) : frow :=
  fold_left (fun a b => (fmin a.1.1 b.1.1, fmin a.1.2 b.1.2, fmin a.2 b.2)) rs r.
Definition amax (r : frow) (rs : list frow) : frow :=
  fold_left (fun a b => (fmax a.1.1 b.1.1, fmax a.1.2 b.1.2, fmax a.2 b.2)) rs r.

Definition is_finite (x : float) : bool := negb (is_nan x || is_infinity x).

(** One row of [np.random.uniform]: [low + scale * rk_double()] with
    [scale = high - low]. *)
Definition uniform_row (low scale : frow) (g : MT19937.mt19937_state)
    : frow * MT19937.mt19937_state :=
  let '(u0, g) := mt19937_next_double g in
  let '(u1, g) := mt19937_next_double g in
  let '(u2, g) := mt19937_next_double g in
  ((low.1.1 + scale.1.1 * u0, low.1.2 + scale.1.2 * u1, low.2 + scale.2 * u2)%float, g).

Fixpoint random_uniform (low scale : frow) (n : nat) (g : MT19937.mt19937_state)
    : list frow * MT19937.mt19937_state :=
  match n with
  | O => ([], g)
  | S n' =>
      let '(p, g) := uniform_row low scale g in
      let '(ps, g) := random_uniform low scale n' g in
      (p :: ps, g)
  end.

(** [np.all(sol_obj <= point)]. *)
Definition all_le (obj point : frow) : bool :=
  (obj.1.1 <=? point.1.1)%float && (obj.1.2 <=? point.1.2)%float
  && (obj.2 <=? point.2)%float.

Fixpoint is_dominated (objectives : list frow) (point : frow) : bool :=
  match objectives with
  | [] => false
  | obj :: rest => if all_le obj point then true else is_dominated rest point
  end.

Definition count_dominated (objectives random_points : list frow) : int :=
  fold_left (fun dominated_count point =>
               if is_dominated objectives point then (dominated_count + 1)%uint63
               else dominated_count)
            random_points 0%uint63.

(** [calculate_hypervolume(pareto_front, reference_point)] on the rows
    [[cost, disruption, balance]] of the front; [None] is the
    [OverflowError] of [np.random.uniform] for a range that is not finite. *)
Definition calculate_hypervolume (objectives : list frow) (reference_point : option frow)
    : option float :=
  match objectives with
  | [] => Some 0%float
  | o :: os =>
      let reference_point :=
        match reference_point with
        | None => let m := amax o os in (m.1.1 + 0x1.999999999999ap-4, m.1.2 + 0x1.999999999999ap-4,
                            m.2 + 0x1.999999999999ap-4)%float
        | Some r => r
        end in
      let min_bounds := amin o os in
      let max_bounds := reference_point in
      let scale := (max_bounds.1.1 - min_bounds.1.1, max_bounds.1.2 - min_bounds.1.2,
                    max_bounds.2 - min_bounds.2)%float in
      if is_finite scale.1.1 && is_finite scale.1.2 && is_finite scale.2 then
        let g := MT19937.legacy_seeding 42 in
        let '(random_points, _) := random_uniform min_bounds scale n_samples g in
        let dominated_count := count_dominated (o :: os) random_points in
        let volume := (scale.1.1 * scale.1.2 * scale.2)%float in
        Some (of_uint63 dominated_count / 10000 * volume)%float
      else None
  end.

End Binary64.

(** ** Sparsity of a front of integers

    When every objective value of the front is a Python [int], [np.array]
    builds an array of [int64]: the differences are taken modulo [2^64], and
    only the quotient is a float.  The values are taken within [int64]. *)

Module Int64.

(** The [int64] a difference wraps to. *)
Definition wrap (z : Z) : Z := ((z + 2 ^ 63) mod 2 ^ 64 - 2 ^ 63)%Z.

Definition irow : Type := (Z * Z * Z)%type.

Definition icoord (m : nat) (r : irow) : Z :=
  match m, r with
  | O, (a, _, _) => a
  | S O, (_, b, _) => b
  | _, (_, _, c) => c
  end.

Definition item (a : list Z) (i : nat) : Z := default 0%Z (a !! i).

Definition column (m : nat) (objectives : list irow) : list Z :=
  map (icoord m) objectives.

Section Sparsity.
Variable argsort : list Q -> list nat.

Definition interior_step (col : list Z) (sorted_indices : list nat) (obj_range : Z)
    (crowding_distances : list ext) (i : nat) : list ext :=
  let distance :=
    inject_Z (wrap (item col (index_at sorted_indices (i + 1))
                    - item col (index_at sorted_indices (i - 1))))
    / inject_Z obj_range in
  alter (fun d => ext_add d distance) (index_at sorted_indices i) crowding_distances.

Definition crowding_pass (objectives : list irow) (crowding_distances : list ext)
    (m : nat) : list ext :=
  let col := column m objectives in
  let n_solutions := length objectives in
  let sorted_indices := argsort (map inject_Z col) in
  let crowding_distances := <[index_at sorted_indices 0 := Inf]> crowding_distances in
  let crowding_distances := <[index_last sorted_indices := Inf]> crowding_distances in
  let obj_range :=
    wrap (item col (index_last sorted_indices) - item col (index_at sorted_indices 0)) in
  if decide (0 < obj_range)%Z then
    fold_left (interior_step col sorted_indices obj_range)
              (seq 1 (n_solutions - 2)) crowding_distances
  else crowding_distances.

Definition crowding_distance_array (objectives : list irow) : list ext :=
  fold_left (crowding_pass objectives) (seq 0 n_objectives)
            (replicate (length objectives) (Fin 0)).

(** [calculate_sparsity(pareto_front)] on the rows
    [[cost, disruption, balance]] of a front of integers. *)
Definition calculate_sparsity (objectives : list irow) : ext :=
  if decide (length objectives <= 2)%nat then Inf
  else
    let finite_distances := finite_values (crowding_distance_array objectives) in
    if decide (0 < length finite_distances)%nat then Fin (mean finite_distances)
    else Inf.

End Sparsity.

End Int64.





(** ** The comparison records on the documents as loaded

    [plot_algorithm_comparison] once more, on a result as [json.load]
    returns it: the name of the test case and the name of a baseline are
    keys like the others, read with [d[k]]. *)







(** * Properties *)

(** ** Arrays *)

Lemma coord_row_map2 (f : Q -> Q -> Q) (x y : row) (m : nat) :
  coord m (row_map2 f x y) = f (coord m x) (coord m y).
Proof.
  destruct x as [[x0 x1] x2], y as [[y0 y1] y2].
  destruct m as [|[|m]]; reflexivity.
Qed.

Lemma coord_ge_2 (m : nat) (r : row) : coord (S (S m)) r = coord 2 r.
Proof. destruct r as [[a b] c]. reflexivity. Qed.

Lemma amin_lower_bound (rs : list row) (r : row) (m : nat) :
  coord m (amin r rs) <= coord m r
  /\ forall o, o ∈ rs -> coord m (amin r rs) <= coord m o.
Proof.
  unfold amin. revert r. induction rs as [|x rs IH]; intros r; simpl.
  - split; [apply Qle_refl|]. intros o Ho. inversion Ho.
  - destruct (IH (row_map2 Qmin r x)) as [Hr Hrs].
    rewrite coord_row_map2 in Hr.
    split.
    + eapply Qle_trans; [exact Hr|]. apply Q.le_min_l.
    + intros o Ho. apply elem_of_cons in Ho as [->|Ho].
      * eapply Qle_trans; [exact Hr|]. apply Q.le_min_r.
      * apply Hrs, Ho.
Qed.

Lemma amin_attained (rs : list row) (r : row) (m : nat) :
  exists o, o ∈ r :: rs /\ coord m o == coord m (amin r rs).
Proof.
  unfold amin. revert r. induction rs as [|x rs IH]; intros r; simpl.
  - exists r. split; [left|reflexivity].
  - destruct (IH (row_map2 Qmin r x)) as (o & Ho & Heq).
    apply elem_of_cons in Ho as [->|Ho].
    + rewrite coord_row_map2 in Heq.
      destruct (Q.min_dec (coord m r) (coord m x)) as [E|E]; rewrite E in Heq.
      * exists r. split; [left|exact Heq].
      * exists x. split; [right; left|exact Heq].
    + exists o. split; [do 2 right; exact Ho|exact Heq].
Qed.

Lemma amin_componentwise_min (r : row) (rs : list row) :
  componentwise_min (amin r rs) (r :: rs).
Proof.
  intros m. split.
  - intros o Ho. destruct (amin_lower_bound rs r m) as [Hr Hrs].
    apply elem_of_cons in Ho as [->|Ho]; [exact Hr | apply Hrs, Ho].
  - apply amin_attained.
Qed.

Lemma amax_upper_bound (rs : list row) (r : row) (m : nat) :
  coord m r <= coord m (amax r rs)
  /\ forall o, o ∈ rs -> coord m o <= coord m (amax r rs).
Proof.
  unfold amax. revert r. induction rs as [|x rs IH]; intros r; simpl.
  - split; [apply Qle_refl|]. intros o Ho. inversion Ho.
  - destruct (IH (row_map2 Qmax r x)) as [Hr Hrs].
    rewrite coord_row_map2 in Hr.
    split.
    + eapply Qle_trans; [apply Q.le_max_l | exact Hr].
    + intros o Ho. apply elem_of_cons in Ho as [->|Ho].
      * eapply Qle_trans; [apply Q.le_max_r | exact Hr].
      * apply Hrs, Ho.
Qed.

Lemma amax_attained (rs : list row) (r : row) (m : nat) :
  exists o, o ∈ r :: rs /\ coord m o == coord m (amax r rs).
Proof.
  unfold amax. revert r. induction rs as [|x rs IH]; intros r; simpl.
  - exists r. split; [left|reflexivity].
  - destruct (IH (row_map2 Qmax r x)) as (o & Ho & Heq).
    apply elem_of_cons in Ho as [->|Ho].
    + rewrite coord_row_map2 in Heq.
      destruct (Q.max_dec (coord m r) (coord m x)) as [E|E]; rewrite E in Heq.
      * exists r. split; [left|exact Heq].
      * exists x. split; [right; left|exact Heq].
    + exists o. split; [do 2 right; exact Ho|exact Heq].
Qed.

Lemma amax_componentwise_max (r : row) (rs : list row) :
  componentwise_max (amax r rs) (r :: rs).
Proof.
  intros m. split.
  - intros o Ho. destruct (amax_upper_bound rs r m) as [Hr Hrs].
    apply elem_of_cons in Ho as [->|Ho]; [exact Hr | apply Hrs, Ho].
  - apply amax_attained.
Qed.

Lemma amin_le_amax (r : row) (rs : list row) (m : nat) :
  coord m (amin r rs) <= coord m (amax r rs).
Proof.
  destruct (amin_lower_bound rs r m) as [Hlo _].
  destruct (amax_upper_bound rs r m) as [Hhi _].
  eapply Qle_trans; [exact Hlo | exact Hhi].
Qed.

Lemma row_prod_sub (high low : row) :
  row_prod (row_sub high low) = box_volume low high.
Proof.
  unfold row_prod, row_sub, box_volume. rewrite !coord_row_map2. reflexivity.
Qed.

(** ** Hypervolume *)

Lemma all_le_spec (obj point : row) : all_le obj point = true <-> row_le obj point.
Proof.
  unfold all_le, row_le. rewrite !andb_true_iff, !bool_decide_eq_true. tauto.
Qed.

Lemma is_dominated_spec (objs : list row) (point : row) :
  is_dominated objs point = true <-> Exists (fun o => row_le o point) objs.
Proof.
  induction objs as [|o objs IH]; simpl.
  - split; [discriminate|]. intros E. inversion E.
  - rewrite Exists_cons, <- IH, <- all_le_spec.
    destruct (all_le o point); intuition discriminate.
Qed.

Lemma count_dominated_from (objs pts : list row) (c : nat) :
  fold_left (fun dominated_count point =>
               if is_dominated objs point then S dominated_count
               else dominated_count) pts c
  = (c + length (dominated_samples objs pts))%nat.
Proof.
  revert c. induction pts as [|p pts IH]; intros c.
  - unfold dominated_samples. rewrite filter_nil. simpl. lia.
  - cbn [fold_left]. rewrite IH. unfold dominated_samples. rewrite filter_cons.
    destruct (is_dominated objs p) eqn:E.
    + apply is_dominated_spec in E. rewrite decide_True by exact E. simpl. lia.
    + rewrite decide_False; [reflexivity|].
      intros E'. apply is_dominated_spec in E'. congruence.
Qed.

Lemma count_dominated_spec (objs pts : list row) :
  count_dominated objs pts = length (dominated_samples objs pts).
Proof. unfold count_dominated. rewrite count_dominated_from. reflexivity. Qed.

Section HypervolumeFacts.
Context `{RandomState}.

Lemma random_uniform_length (low high : row) (n : nat) (g : rng) :
  length (random_uniform low high n g).1 = n.
Proof.
  revert g. induction n as [|n IH]; intros g; simpl; [reflexivity|].
  destruct (uniform_row low high g) as [p g1].
  specialize (IH g1). destruct (random_uniform low high n g1) as [ps g2].
  simpl in *. congruence.
Qed.

(** What the function returns on a front that is not empty. *)
Lemma calculate_hypervolume_cons (g : rng) (sol : solution) (sols : list solution)
    (reference_point : row) :
  let objs := map objective_row (sol :: sols) in
  let low := amin (objective_row sol) (map objective_row sols) in
  let samples := (random_uniform low reference_point n_samples (rk_seed 42)).1 in
  (calculate_hypervolume g (sol :: sols) (Some reference_point)).1
  = inject_Z (Z.of_nat (length (dominated_samples objs samples))) / inject_Z 10000
    * box_volume low reference_point.
Proof.
  intros objs low samples. unfold calculate_hypervolume.
  subst samples low objs.
  destruct (random_uniform _ _ n_samples (rk_seed 42)) as [pts g'].
  simpl. rewrite count_dominated_spec, row_prod_sub. reflexivity.
Qed.

(** Sample [k] of [np.random.uniform] holds, in coordinate [m], the image
    of draw [3 * k + m]. *)
Lemma random_uniform_lookup (low high : row) (n : nat) (g : rng) (k : nat) (p : row) :
  (random_uniform low high n g).1 !! k = Some p ->
  forall m, (m < 3)%nat ->
    exists u, unit_draws (3 * n) g !! (3 * k + m)%nat = Some u
              /\ coord m p == coord m low + (coord m high - coord m low) * u.
Proof.
  revert g k. induction n as [|n IH]; intros g k Hk; [discriminate|].
  replace (3 * S n)%nat with (S (S (S (3 * n)))) by lia.
  cbn [unit_draws random_uniform] in *. unfold uniform_row in Hk.
  destruct (rk_double g) as [u0 g0].
  destruct (rk_double g0) as [u1 g1].
  destruct (rk_double g1) as [u2 g2].
  specialize (IH g2).
  destruct (random_uniform low high n g2) as [ps g3]. simpl in Hk.
  destruct k as [|k].
  - injection Hk as <-. intros [|[|[|m]]] Hm; try lia; simpl; eauto using Qeq_refl.
  - simpl in Hk. intros m Hm. destruct (IH k Hk m Hm) as (u & Hu & Hc).
    exists u. split; [|exact Hc].
    replace (3 * S k + m)%nat with (S (S (S (3 * k + m)))) by lia. exact Hu.
Qed.

(** The estimate on a front that is not empty, with the samples given by
    the draws. *)
Lemma hypervolume_sampling (g : rng) (sol : solution) (sols : list solution)
    (high : row) :
  let objs := map objective_row (sol :: sols) in
  let draws := unit_draws (3 * n_samples) (rk_seed 42) in
  exists (low : row) (samples : list row),
    componentwise_min low objs
    /\ length samples = Z.to_nat 10000
    /\ (forall k p, samples !! k = Some p ->
          forall m, (m < 3)%nat ->
            exists u, draws !! (3 * k + m)%nat = Some u
                      /\ coord m p == coord m low + (coord m high - coord m low) * u)
    /\ (calculate_hypervolume g (sol :: sols) (Some high)).1
       = inject_Z (Z.of_nat (length (dominated_samples objs samples)))
         / inject_Z 10000 * box_volume low high.
Proof.
  intros objs draws.
  exists (amin (objective_row sol) (map objective_row sols)),
    (random_uniform (amin (objective_row sol) (map objective_row sols)) high
       n_samples (rk_seed 42)).1.
  split; [apply amin_componentwise_min|].
  split; [apply random_uniform_length|].
  split; [intros k p Hk; apply (random_uniform_lookup _ _ _ _ _ _ Hk)|].
  apply calculate_hypervolume_cons.
Qed.

(** C1. The estimate of the empty front is 0 for every reference point.  For
    a front that is not empty and a reference point [high], the estimate is
    the number of dominated samples over 10000, times the volume of the box
    from [low] to [high]: [low] is the componentwise minimum of the front;
    there are 10000 samples, and coordinate [m] of sample [k] is
    [low + (high - low) * u] for the draw [u] of number [3 * k + m] after the
    generator is seeded with 42, so that the samples lie in the box when the
    draws lie in the unit interval and [high] is nowhere below [low]; and a
    sample is dominated exactly when some solution of the front is at most
    the sample in each of the three objectives, equality included. *)
Theorem hypervolume_estimate :
  (forall (g : rng) (reference_point : option row),
      (calculate_hypervolume g [] reference_point).1 = 0)
  /\ (forall (g : rng) (sol : solution) (sols : list solution) (high : row),
        let objs := map objective_row (sol :: sols) in
        let draws := unit_draws (3 * n_samples) (rk_seed 42) in
        exists (low : row) (samples : list row),
          componentwise_min low objs
          /\ length samples = Z.to_nat 10000
          /\ (forall k p, samples !! k = Some p ->
                forall m, (m < 3)%nat ->
                  exists u, draws !! (3 * k + m)%nat = Some u
                            /\ coord m p
                               == coord m low + (coord m high - coord m low) * u)
          /\ (Forall (fun u => 0 <= u /\ u < 1) draws ->
              (forall m, coord m low <= coord m high) ->
              Forall (fun p => forall m, coord m low <= coord m p
                                         /\ coord m p <= coord m high) samples)
          /\ (forall p, p ∈ dominated_samples objs samples <->
                p ∈ samples /\ exists o, o ∈ objs /\ row_le o p)
          /\ (forall p, p ∈ objs -> p ∈ samples -> p ∈ dominated_samples objs samples)
          /\ (calculate_hypervolume g (sol :: sols) (Some high)).1
             = inject_Z (Z.of_nat (length (dominated_samples objs samples)))
               / inject_Z 10000 * box_volume low high).
Proof.
  split; [reflexivity|].
  intros g sol sols high objs draws.
  destruct (hypervolume_sampling g sol sols high)
    as (low & samples & Hlow & Hlen & Hpts & Hest).
  exists low, samples.
  split; [exact Hlow|]. split; [exact Hlen|]. split; [exact Hpts|].
  split.
  { intros Hd Hbox. apply Forall_forall. intros p Hp m.
    apply list_elem_of_lookup in Hp. destruct Hp as [k Hk].
    assert (Hm : exists m', (m' < 3)%nat /\ forall r : row, coord m r = coord m' r).
    { destruct m as [|[|m]]; [exists 0%nat|exists 1%nat|exists 2%nat];
        (split; [lia|]); intros r; [reflexivity|reflexivity|apply coord_ge_2]. }
    destruct Hm as (m' & Hm' & Em). rewrite !Em.
    destruct (Hpts k p Hk m' Hm') as (u & Hu & Hc).
    assert (Hin : u ∈ draws) by (eapply list_elem_of_lookup_2; exact Hu).
    pose proof (proj1 (Forall_forall _ _) Hd u Hin) as [H0 H1].
    specialize (Hbox m'). rewrite Hc. split; nra. }
  split.
  { intros p. unfold dominated_samples. rewrite list_elem_of_filter, Exists_exists.
    tauto. }
  split.
  { intros p Hp Hs. unfold dominated_samples. apply list_elem_of_filter.
    split; [|exact Hs]. apply Exists_exists. exists p.
    split; [exact Hp|]. unfold row_le. repeat split; apply Qle_refl. }
  exact Hest.
Qed.

End HypervolumeFacts.

Section HypervolumeBounds.
Context `{RandomState}.

(** Each coordinate of a sample is [low + (high - low) * u] for a draw [u],
    and what holds of all draws holds of that [u]. *)
Lemma random_uniform_coords (P : Q -> Prop) (low high : row) (n : nat) (g : rng) :
  Forall P (unit_draws (3 * n) g) ->
  Forall (fun p => forall m, exists u,
              P u /\ coord m p == coord m low + (coord m high - coord m low) * u)
         (random_uniform low high n g).1.
Proof.
  revert g. induction n as [|n IH]; intros g Hd; [constructor|].
  replace (3 * S n)%nat with (S (S (S (3 * n)))) in Hd by lia.
  cbn [unit_draws random_uniform] in *. unfold uniform_row.
  destruct (rk_double g) as [u0 g0].
  apply Forall_cons in Hd as [H0 Hd].
  destruct (rk_double g0) as [u1 g1].
  apply Forall_cons in Hd as [H1 Hd].
  destruct (rk_double g1) as [u2 g2].
  apply Forall_cons in Hd as [H2 Hd].
  specialize (IH g2 Hd).
  destruct (random_uniform low high n g2) as [ps g3]. simpl in *.
  constructor; [|exact IH].
  intros [|[|m]]; simpl; eauto using Qeq_refl.
Qed.

(** With draws in the half-open unit interval and a reference point that is
    nowhere below [low], the samples lie in the box from [low] to [high]. *)
Lemma random_uniform_in_box (low high : row) (n : nat) (g : rng) :
  Forall (fun u => 0 <= u /\ u < 1) (unit_draws (3 * n) g) ->
  (forall m, coord m low <= coord m high) ->
  Forall (fun p => forall m, coord m low <= coord m p /\ coord m p <= coord m high)
         (random_uniform low high n g).1.
Proof.
  intros Hd Hbox.
  eapply Forall_impl; [apply (random_uniform_coords _ low high n g Hd)|].
  intros p Hp m. destruct (Hp m) as (u & [Hu0 Hu1] & ->).
  specialize (Hbox m). split; nra.
Qed.

Lemma box_volume_zero (low high : row) (m : nat) :
  coord m high == coord m low -> box_volume low high == 0.
Proof.
  intros E. unfold box_volume.
  destruct m as [|[|m]].
  - rewrite E. ring.
  - rewrite E. ring.
  - rewrite (coord_ge_2 m high), (coord_ge_2 m low) in E. rewrite E. ring.
Qed.

Lemma box_volume_nonneg (low high : row) :
  (forall m, coord m low <= coord m high) -> 0 <= box_volume low high.
Proof.
  intros Hm. unfold box_volume.
  pose proof (Hm 0%nat). pose proof (Hm 1%nat). pose proof (Hm 2%nat).
  apply Qmult_le_0_compat; [apply Qmult_le_0_compat|]; lra.
Qed.

Lemma fraction_nonneg (c : nat) : 0 <= inject_Z (Z.of_nat c) / inject_Z 10000.
Proof.
  apply Qle_shift_div_l; [reflexivity|]. rewrite Qmult_0_l.
  change 0 with (inject_Z 0). rewrite <- Zle_Qle. lia.
Qed.

(** Two componentwise minima of the same rows agree in every coordinate. *)
Lemma componentwise_min_unique (low low' : row) (objs : list row) (m : nat) :
  componentwise_min low objs -> componentwise_min low' objs ->
  coord m low == coord m low'.
Proof.
  intros H1 H2. destruct (H1 m) as [L1 (o1 & Ho1 & E1)].
  destruct (H2 m) as [L2 (o2 & Ho2 & E2)].
  apply Qle_antisym.
  - rewrite <- E2. apply L1, Ho2.
  - rewrite <- E1. apply L2, Ho1.
Qed.


End HypervolumeBounds.

(** ** Sparsity *)

Lemma ext_equiv_refl (x : ext) : ext_equiv x x.
Proof. destruct x; simpl; [reflexivity|exact I]. Qed.

Lemma ext_equiv_trans (x y z : ext) : ext_equiv x y -> ext_equiv y z -> ext_equiv x z.
Proof.
  destruct x, y, z; simpl; try tauto. intros E1 E2. rewrite E1. exact E2.
Qed.

Lemma ext_add_equiv (x y : ext) (c d : Q) :
  ext_equiv x y -> c == d -> ext_equiv (ext_add x c) (ext_add y d).
Proof.
  destruct x, y; simpl; try tauto. intros E1 E2. rewrite E1, E2. reflexivity.
Qed.

Section SortOrder.
(** A sort order: some arrangement of the indices [0 .. n-1]. *)
Variable sorted : list nat.
Variable n : nat.
Hypothesis sorted_perm : sorted ≡ₚ seq 0 n.

Lemma sorted_length : length sorted = n.
Proof. rewrite sorted_perm. apply length_seq. Qed.

Lemma sorted_NoDup : NoDup sorted.
Proof. rewrite sorted_perm. apply NoDup_seq. Qed.

Lemma index_at_lookup (k : nat) : (k < n)%nat -> sorted !! k = Some (index_at sorted k).
Proof.
  intros Hk. unfold index_at.
  destruct (lookup_lt_is_Some_2 sorted k) as [j Hj]; [rewrite sorted_length; exact Hk|].
  rewrite Hj. reflexivity.
Qed.

Lemma index_at_bound (k : nat) : (k < n)%nat -> (index_at sorted k < n)%nat.
Proof.
  intros Hk. pose proof (index_at_lookup k Hk) as Hl.
  apply list_elem_of_lookup_2 in Hl.
  apply (elem_of_Permutation_proper _ _ _ sorted_perm) in Hl.
  apply elem_of_seq in Hl. lia.
Qed.

Lemma index_at_inj (k k' : nat) :
  (k < n)%nat -> (k' < n)%nat -> index_at sorted k = index_at sorted k' -> k = k'.
Proof.
  intros Hk Hk' E.
  eapply NoDup_lookup; [apply sorted_NoDup| |].
  - apply index_at_lookup, Hk.
  - rewrite E. apply index_at_lookup, Hk'.
Qed.

Lemma index_position (j : nat) : (j < n)%nat -> exists k, (k < n)%nat /\ sorted !! k = Some j.
Proof.
  intros Hj. assert (Hin : j ∈ sorted).
  { apply (elem_of_Permutation_proper _ _ _ sorted_perm), elem_of_seq. lia. }
  apply list_elem_of_lookup in Hin as [k Hk]. exists k. split; [|exact Hk].
  apply lookup_lt_Some in Hk. rewrite sorted_length in Hk. exact Hk.
Qed.

Lemma index_last_eq : index_last sorted = index_at sorted (n - 1).
Proof. unfold index_last. rewrite sorted_length. reflexivity. Qed.

End SortOrder.

Section InteriorLoop.
Variable col : list Q.
Variable sorted : list nat.
Variable obj_range : Q.

Lemma interior_fold_length (positions : list nat) (cd : list ext) :
  length (fold_left (interior_step col sorted obj_range) positions cd) = length cd.
Proof.
  revert cd. induction positions as [|i positions IH]; intros cd; simpl; [reflexivity|].
  rewrite IH. unfold interior_step. apply length_alter.
Qed.

Lemma interior_fold_other (positions : list nat) (cd : list ext) (j : nat) :
  (forall i, i ∈ positions -> index_at sorted i <> j) ->
  fold_left (interior_step col sorted obj_range) positions cd !! j = cd !! j.
Proof.
  revert cd. induction positions as [|i positions IH]; intros cd Hne; simpl; [reflexivity|].
  rewrite IH.
  - unfold interior_step. apply list_lookup_alter_ne. apply Hne. left.
  - intros i' Hi'. apply Hne. right. exact Hi'.
Qed.

Lemma interior_fold_hit (positions : list nat) (cd : list ext) (i : nat) :
  NoDup (index_at sorted <$> positions) ->
  i ∈ positions ->
  fold_left (interior_step col sorted obj_range) positions cd !! index_at sorted i
  = (fun d => ext_add d (neighbour_gap col sorted obj_range i))
    <$> cd !! index_at sorted i.
Proof.
  revert cd. induction positions as [|i' positions IH]; intros cd Hnd Hi; [inversion Hi|].
  rewrite fmap_cons in Hnd. apply NoDup_cons in Hnd as [Hnotin Hnd].
  simpl. apply elem_of_cons in Hi as [->|Hi].
  - rewrite interior_fold_other.
    + unfold interior_step. apply list_lookup_alter_eq.
    + intros i0 Hi0 E. apply Hnotin. rewrite <- E. apply list_elem_of_fmap_2, Hi0.
  - rewrite IH by assumption.
    unfold interior_step. rewrite list_lookup_alter_ne; [reflexivity|].
    intros E. apply Hnotin. rewrite E. apply list_elem_of_fmap_2, Hi.
Qed.

End InteriorLoop.

Section CrowdingPass.
Variable argsort : list Q -> list nat.
Hypothesis argsort_perm : forall col : list Q, argsort col ≡ₚ seq 0 (length col).

Lemma column_length (m : nat) (objs : list row) : length (column m objs) = length objs.
Proof. apply length_map. Qed.

Lemma crowding_pass_length (objs : list row) (cd : list ext) (m : nat) :
  length (crowding_pass argsort objs cd m) = length cd.
Proof.
  unfold crowding_pass. case_decide.
  - rewrite interior_fold_length, !length_insert. reflexivity.
  - rewrite !length_insert. reflexivity.
Qed.

Lemma interior_positions_NoDup (sorted : list nat) (n : nat) :
  sorted ≡ₚ seq 0 n -> NoDup (index_at sorted <$> seq 1 (n - 2)).
Proof.
  intros Hp. apply NoDup_fmap_2_strong; [|apply NoDup_seq].
  intros i i' Hi Hi' E. apply elem_of_seq in Hi, Hi'.
  eapply (index_at_inj sorted n Hp); [lia|lia|exact E].
Qed.

(** One pass, seen from the solution at position [k] of the sort order. *)
Lemma crowding_pass_lookup (objs : list row) (cd : list ext) (m k j : nat) :
  length cd = length objs ->
  argsort (column m objs) !! k = Some j ->
  crowding_pass argsort objs cd m !! j
  = pass_update argsort (length objs) (column m objs) k <$> cd !! j.
Proof.
  intros Hlen Hk.
  pose proof (argsort_perm (column m objs)) as Hp. rewrite column_length in Hp.
  set (col := column m objs) in *. set (n := length objs) in *.
  assert (Hkn : (k < n)%nat).
  { apply lookup_lt_Some in Hk. fold col in Hk.
    rewrite (sorted_length _ _ Hp) in Hk. exact Hk. }
  assert (Hj : j = index_at (argsort col) k).
  { unfold index_at. fold col in Hk. rewrite Hk. reflexivity. }
  assert (Hjn : (j < n)%nat) by (rewrite Hj; apply (index_at_bound _ _ Hp), Hkn).
  destruct (lookup_lt_is_Some_2 cd j) as [d Hd]; [rewrite Hlen; exact Hjn|].
  rewrite Hd. simpl.
  assert (Hbase :
    <[index_last (argsort col) := Inf]> (<[index_at (argsort col) 0 := Inf]> cd) !! j
    = Some (if is_end n k then Inf else d)).
  { rewrite (index_last_eq _ _ Hp). unfold is_end.
    destruct (decide (k = n - 1)%nat) as [->|Hlast].
    - rewrite bool_decide_eq_true_2 by (right; reflexivity).
      rewrite Hj. apply list_lookup_insert_eq. rewrite length_insert, Hlen.
      apply (index_at_bound _ _ Hp). lia.
    - rewrite list_lookup_insert_ne.
      2:{ rewrite Hj. intros E. apply (index_at_inj _ _ Hp) in E; lia. }
      destruct (decide (k = 0)%nat) as [->|Hfirst].
      + rewrite bool_decide_eq_true_2 by (left; reflexivity).
        rewrite Hj. apply list_lookup_insert_eq. rewrite Hlen.
        apply (index_at_bound _ _ Hp). lia.
      + rewrite bool_decide_eq_false_2 by lia.
        rewrite list_lookup_insert_ne; [exact Hd|].
        rewrite Hj. intros E. apply (index_at_inj _ _ Hp) in E; lia. }
  unfold crowding_pass, pass_update. fold col n.
  change (item col (index_last (argsort col)) - item col (index_at (argsort col) 0))
    with (sort_range argsort col).
  destruct (decide (0 < sort_range argsort col)) as [Hr|Hr].
  - destruct (is_end n k) eqn:Hend.
    + rewrite interior_fold_other; [exact Hbase|].
      intros i Hi E. apply elem_of_seq in Hi.
      rewrite Hj in E. apply (index_at_inj _ _ Hp) in E; [|lia|lia].
      unfold is_end in Hend. apply bool_decide_eq_true in Hend. lia.
    + unfold is_end in Hend. apply bool_decide_eq_false in Hend.
      rewrite Hj.
      rewrite interior_fold_hit.
      * rewrite <- Hj, Hbase. reflexivity.
      * apply interior_positions_NoDup, Hp.
      * apply elem_of_seq. lia.
  - rewrite Hbase. destruct (is_end n k); reflexivity.
Qed.

End CrowdingPass.


Lemma finite_values_elem (a : list ext) (q : Q) :
  q ∈ finite_values a <-> Fin q ∈ a.
Proof.
  unfold finite_values. rewrite list_elem_of_omap. split.
  - intros (x & Hx & E). destruct x; [|discriminate]. injection E as ->. exact Hx.
  - intros Hx. exists (Fin q). split; [exact Hx|reflexivity].
Qed.

Section SparsityFacts.
Variable argsort : list Q -> list nat.
Hypothesis argsort_perm : forall col : list Q, argsort col ≡ₚ seq 0 (length col).

Lemma crowding_distance_array_length (objs : list row) :
  length (crowding_distance_array argsort objs) = length objs.
Proof.
  unfold crowding_distance_array. simpl.
  rewrite !crowding_pass_length. apply length_replicate.
Qed.

Lemma pass_update_chain (objs : list row) (k0 k1 k2 : nat) :
  let n := length objs in
  ext_equiv
    (pass_update argsort n (column 2 objs) k2
       (pass_update argsort n (column 1 objs) k1
          (pass_update argsort n (column 0 objs) k0 (Fin 0))))
    (crowding_distance_at argsort objs k0 k1 k2).
Proof.
  intros n. unfold crowding_distance_at, pass_update, contribution. fold n.
  destruct (is_end n k0), (is_end n k1), (is_end n k2); simpl; try exact I;
    repeat case_decide; simpl; try exact I; ring.
Qed.

Lemma crowding_distance_array_lookup (objs : list row) (j k0 k1 k2 : nat) :
  argsort (column 0 objs) !! k0 = Some j ->
  argsort (column 1 objs) !! k1 = Some j ->
  argsort (column 2 objs) !! k2 = Some j ->
  exists d, crowding_distance_array argsort objs !! j = Some d
            /\ ext_equiv d (crowding_distance_at argsort objs k0 k1 k2).
Proof.
  intros H0 H1 H2.
  assert (Hj : (j < length objs)%nat).
  { apply list_elem_of_lookup_2 in H0.
    apply (elem_of_Permutation_proper _ _ _ (argsort_perm _)) in H0.
    apply elem_of_seq in H0. rewrite column_length in H0. lia. }
  unfold crowding_distance_array. simpl.
  rewrite (crowding_pass_lookup argsort argsort_perm objs _ 2 k2 j);
    [|rewrite !crowding_pass_length; apply length_replicate|exact H2].
  rewrite (crowding_pass_lookup argsort argsort_perm objs _ 1 k1 j);
    [|rewrite !crowding_pass_length; apply length_replicate|exact H1].
  rewrite (crowding_pass_lookup argsort argsort_perm objs _ 0 k0 j);
    [|apply length_replicate|exact H0].
  rewrite (lookup_replicate_2 _ _ _ Hj). simpl.
  eexists. split; [reflexivity|]. apply pass_update_chain.
Qed.


End SparsityFacts.

(** ** The insertion argsort *)

Lemma insert_index_perm (a : list Q) (i : nat) (sorted : list nat) :
  insert_index a i sorted ≡ₚ i :: sorted.
Proof.
  induction sorted as [|j sorted IH]; simpl; [reflexivity|].
  case_decide; [reflexivity|]. rewrite IH. apply perm_swap.
Qed.

Lemma insert_indices_perm (a : list Q) (l acc : list nat) :
  fold_left (fun sorted i => insert_index a i sorted) l acc ≡ₚ acc ++ l.
Proof.
  revert acc. induction l as [|i l IH]; intros acc; simpl.
  - rewrite app_nil_r. reflexivity.
  - rewrite IH, insert_index_perm. apply Permutation_middle.
Qed.

Lemma stable_argsort_perm (a : list Q) : stable_argsort a ≡ₚ seq 0 (length a).
Proof. unfold stable_argsort. rewrite insert_indices_perm. reflexivity. Qed.

Lemma insert_index_ascending (a : list Q) (i : nat) (sorted : list nat) :
  ascending a sorted -> ascending a (insert_index a i sorted).
Proof.
  unfold ascending. induction 1 as [|j sorted Hs IH Hhd]; simpl.
  - constructor; constructor.
  - case_decide as Hlt.
    + constructor; [constructor; assumption|].
      constructor. apply Qlt_le_weak, Hlt.
    + apply Qnot_lt_le in Hlt. constructor; [exact IH|].
      destruct Hhd as [|k sorted' Hjk]; simpl.
      * constructor. exact Hlt.
      * case_decide; constructor; assumption.
Qed.

Lemma stable_argsort_ascending (a : list Q) : ascending a (stable_argsort a).
Proof.
  unfold stable_argsort.
  assert (Hgen : forall l acc, ascending a acc ->
            ascending a (fold_left (fun sorted i => insert_index a i sorted) l acc)).
  { induction l as [|i l IH]; intros acc Hacc; simpl; [exact Hacc|].
    apply IH, insert_index_ascending, Hacc. }
  apply Hgen. constructor.
Qed.

(** ** A column on which all solutions agree *)

Ltac elem_cases H :=
  repeat (apply elem_of_cons in H as [->|H]); [..|inversion H].

Lemma item_column (m : nat) (objs : list row) (i : nat) (o : row) :
  objs !! i = Some o -> item (column m objs) i = coord m o.
Proof.
  intros Ho. unfold item, column. rewrite list_lookup_fmap, Ho. reflexivity.
Qed.

Section ZeroRange.
Variable argsort : list Q -> list nat.
Hypothesis argsort_perm : forall col : list Q, argsort col ≡ₚ seq 0 (length col).

Lemma zero_range_sort_range (m : nat) (objs : list row) :
  (1 <= length objs)%nat -> zero_range m objs ->
  sort_range argsort (column m objs) == 0.
Proof.
  intros Hn Hz. unfold sort_range.
  pose proof (argsort_perm (column m objs)) as Hp. rewrite column_length in Hp.
  rewrite (index_last_eq _ _ Hp).
  assert (Hlast : (index_at (argsort (column m objs)) (length objs - 1) < length objs)%nat)
    by (apply (index_at_bound _ _ Hp); lia).
  assert (Hfirst : (index_at (argsort (column m objs)) 0 < length objs)%nat)
    by (apply (index_at_bound _ _ Hp); lia).
  destruct (lookup_lt_is_Some_2 objs _ Hlast) as [o1 Ho1].
  destruct (lookup_lt_is_Some_2 objs _ Hfirst) as [o0 Ho0].
  rewrite (item_column m objs _ o1 Ho1), (item_column m objs _ o0 Ho0).
  rewrite (Hz o1 o0); [ring| |]; eapply list_elem_of_lookup_2; eassumption.
Qed.

(** C8, as the code has it.  For a sort that returns a permutation of the
    indices, a front of at least three solutions and an objective on which
    all solutions agree: no division takes place and the pass over that
    objective leaves the distance of every solution that is not at an end of
    the sort order as it was, while the solutions at the two ends, which are
    distinct, have their distance set to the infinite value. *)
Theorem zero_range_pass (pareto_front : list solution) (m : nat) (cd : list ext) :
  let objs := map objective_row pareto_front in
  let sorted := argsort (column m objs) in
  (3 <= length pareto_front)%nat ->
  length cd = length pareto_front ->
  zero_range m objs ->
  crowding_pass argsort objs cd m
  = <[index_last sorted := Inf]> (<[index_at sorted 0 := Inf]> cd)
  /\ index_at sorted 0 <> index_last sorted
  /\ (forall k j : nat, sorted !! k = Some j ->
        crowding_pass argsort objs cd m !! j
        = if is_end (length pareto_front) k then Some Inf else cd !! j).
Proof.
  intros objs sorted Hn Hlen Hz.
  assert (Hobjs : length objs = length pareto_front) by apply length_map.
  assert (Hr : sort_range argsort (column m objs) == 0).
  { apply zero_range_sort_range; [lia|exact Hz]. }
  pose proof (argsort_perm (column m objs)) as Hp. rewrite column_length in Hp.
  fold sorted in Hp.
  split; [|split].
  - unfold crowding_pass. fold sorted.
    change (item (column m objs) (index_last sorted)
            - item (column m objs) (index_at sorted 0))
      with (sort_range argsort (column m objs)).
    rewrite decide_False; [reflexivity|]. rewrite Hr. apply Qlt_irrefl.
  - rewrite (index_last_eq _ _ Hp). intros E.
    apply (index_at_inj _ _ Hp) in E; lia.
  - intros k j Hk.
    rewrite (crowding_pass_lookup argsort argsort_perm objs cd m k j);
      [|lia|exact Hk].
    assert (Hj : (j < length cd)%nat).
    { apply list_elem_of_lookup_2 in Hk.
      apply (elem_of_Permutation_proper _ _ _ Hp) in Hk.
      apply elem_of_seq in Hk. lia. }
    destruct (lookup_lt_is_Some_2 cd j Hj) as [d Hd]. rewrite Hd. simpl.
    unfold pass_update. rewrite Hobjs.
    destruct (is_end (length pareto_front) k); [reflexivity|].
    rewrite decide_False; [reflexivity|]. rewrite Hr. apply Qlt_irrefl.
Qed.

End ZeroRange.

Lemma equal_cost_front_zero_range :
  zero_range 0 (map objective_row equal_cost_front).
Proof.
  intros o o' Ho Ho'. simpl in Ho, Ho'.
  elem_cases Ho; elem_cases Ho'; reflexivity.
Qed.

(** On [equal_cost_front] the pass over the cost column, on which the five
    solutions agree, turns the distances of solutions 0 and 4 into the
    infinite value. *)
Lemma equal_cost_pass :
  crowding_pass stable_argsort (map objective_row equal_cost_front)
    (replicate 5 (Fin 0)) 0
  = [Inf; Fin 0; Fin 0; Fin 0; Inf].
Proof. reflexivity. Qed.

(** C8, as it is worded, fails: a pass over an objective on which all
    solutions agree does change the distance array. *)
Lemma zero_range_pass_not_neutral :
  ~ (forall (pareto_front : list solution) (m : nat) (cd : list ext),
        (3 <= length pareto_front)%nat ->
        length cd = length pareto_front ->
        zero_range m (map objective_row pareto_front) ->
        forall (j : nat) (d : ext),
          cd !! j = Some d ->
          crowding_pass stable_argsort (map objective_row pareto_front) cd m !! j
          = Some d).
Proof.
  intros Hclaim.
  specialize (Hclaim equal_cost_front 0%nat (replicate 5 (Fin 0))).
  specialize (Hclaim ltac:(simpl; lia) eq_refl equal_cost_front_zero_range
                     0%nat (Fin 0) eq_refl).
  rewrite equal_cost_pass in Hclaim. discriminate Hclaim.
Qed.

(** On [equal_cost_front] only solution 3 keeps a finite distance; solutions
    0 and 4 are at an end of the sort order of the cost column alone. *)
Example equal_cost_sparsity :
  crowding_distance_array stable_argsort (map objective_row equal_cost_front)
  = [Inf; Inf; Inf; Fin (26 # 36); Inf]
  /\ calculate_sparsity stable_argsort equal_cost_front = Fin (26 # 36).
Proof. split; vm_compute; reflexivity. Qed.

(** ** Metrics over the rounds of a run *)

Lemma enumerate_from_cons {A : Type} (k : nat) (x : A) (l : list A) :
  imap (fun i y => ((k + i)%nat, y)) (x :: l)
  = (k, x) :: imap (fun i y => ((S k + i)%nat, y)) l.
Proof.
  rewrite imap_cons. f_equal; [f_equal; lia|].
  apply imap_ext. intros i y _. simpl. f_equal. lia.
Qed.

Lemma all_objectives_elem (rs : list round_data) (o : row) :
  o ∈ all_objectives rs
  <-> exists r sol, r ∈ rs /\ sol ∈ paretoFront r /\ o = objective_row sol.
Proof.
  unfold all_objectives. rewrite list_elem_of_In, in_concat. split.
  - intros (l & Hl & Ho). apply list_elem_of_In in Hl, Ho.
    apply list_elem_of_fmap in Hl as (r & -> & Hr).
    apply list_elem_of_fmap in Ho as (sol & -> & Hsol). eauto.
  - intros (r & sol & Hr & Hsol & ->).
    exists (map objective_row (paretoFront r)). split; apply list_elem_of_In.
    + apply (list_elem_of_fmap_2 (fun r => map objective_row (paretoFront r))), Hr.
    + apply list_elem_of_fmap_2, Hsol.
Qed.

Section MetricsFacts.
Context `{RandomState}.
Variable argsort : list Q -> list nat.

(** The value returned does not depend on the state of the generator at the
    call: the function seeds it anew before drawing. *)
Lemma calculate_hypervolume_reseeds (g1 g2 : rng) (pareto_front : list solution)
    (reference_point : option row) :
  (calculate_hypervolume g1 pareto_front reference_point).1
  = (calculate_hypervolume g2 pareto_front reference_point).1.
Proof. destruct pareto_front; reflexivity. Qed.

(** The loop over the rounds, in closed form. *)
Lemma metrics_fold (ref : row) (rs : list round_data) (k : nat) (m : metrics) (g : rng) :
  (fold_left (metrics_step argsort ref) (imap (fun i r => ((k + i)%nat, r)) rs) (m, g)).1
  = {| metrics_rounds := metrics_rounds m ++ seq (S k) (length rs);
       metrics_hypervolume :=
         metrics_hypervolume m
         ++ map (fun r => (calculate_hypervolume (rk_seed 42) (paretoFront r) (Some ref)).1) rs;
       metrics_sparsity :=
         metrics_sparsity m
         ++ map (fun r => cap_sparsity (calculate_sparsity argsort (paretoFront r))) rs;
       metrics_pareto_size :=
         metrics_pareto_size m ++ map (fun r => length (paretoFront r)) rs |}.
Proof.
  revert k m g. induction rs as [|r rs IH]; intros k m g.
  - simpl. rewrite !app_nil_r. destruct m; reflexivity.
  - rewrite enumerate_from_cons. cbn [fold_left]. unfold metrics_step at 2.
    destruct (calculate_hypervolume g (paretoFront r) (Some ref)) as [hv g'] eqn:E.
    rewrite IH. cbn [metrics_rounds metrics_hypervolume metrics_sparsity
                     metrics_pareto_size length seq map].
    assert (Hhv : hv = (calculate_hypervolume (rk_seed 42) (paretoFront r) (Some ref)).1).
    { rewrite (calculate_hypervolume_reseeds (rk_seed 42) g), E. reflexivity. }
    rewrite Hhv, <- !app_assoc. simpl.
    replace (k + 1)%nat with (S k) by lia. reflexivity.
Qed.

Lemma calculate_metrics_closed_form (g : rng) (data : result) (rs : list round_data) :
  rounds data = Some rs ->
  fst <$> calculate_metrics_over_time argsort g data
  = Ok {| metrics_rounds := seq 1 (length rs);
          metrics_hypervolume :=
            map (fun r => (calculate_hypervolume (rk_seed 42) (paretoFront r)
                             (Some (global_reference_point rs))).1) rs;
          metrics_sparsity :=
            map (fun r => cap_sparsity (calculate_sparsity argsort (paretoFront r))) rs;
          metrics_pareto_size := map (fun r => length (paretoFront r)) rs |}.
Proof.
  intros Hrs. unfold calculate_metrics_over_time. rewrite Hrs. simpl. f_equal.
  unfold enumerate.
  apply (metrics_fold (global_reference_point rs) rs 0).
Qed.

Lemma global_reference_point_spec (rs : list round_data) :
  (all_objectives rs = [] -> global_reference_point rs = (11 # 10, 11 # 10, 11 # 10))
  /\ (all_objectives rs <> [] -> front_reference (global_reference_point rs) (all_objectives rs)).
Proof.
  unfold global_reference_point. destruct (all_objectives rs) as [|o os].
  - split; [reflexivity|congruence].
  - split; [discriminate|]. intros _. exists (amax o os).
    split; [apply amax_componentwise_max|].
    intros [|[|m]]; reflexivity.
Qed.

(** C3. For a run that has rounds, the builder returns; there is one
    reference point, the componentwise maximum plus 0.1 of the rows of all
    solutions of all rounds, or (1.1, 1.1, 1.1) when no round has a
    solution; the hypervolume of every round is the estimate with that
    reference point; the four lists have one entry for each round, in the
    order of the rounds, the round numbers being 1, 2, ..., N; and an
    infinite sparsity is recorded as 100. *)
Theorem metrics_timeline (g : rng) (data : result) (rs : list round_data) :
  rounds data = Some rs ->
  exists (ref : row) (union : list row) (m : metrics) (g' : rng),
    calculate_metrics_over_time argsort g data = Ok (m, g')
    /\ (forall o, o ∈ union <->
          exists r sol, r ∈ rs /\ sol ∈ paretoFront r /\ o = objective_row sol)
    /\ (union = [] -> ref = (11 # 10, 11 # 10, 11 # 10))
    /\ (union <> [] -> front_reference ref union)
    /\ metrics_rounds m = seq 1 (length rs)
    /\ length (metrics_hypervolume m) = length rs
    /\ length (metrics_sparsity m) = length rs
    /\ length (metrics_pareto_size m) = length rs
    /\ (forall (i : nat) (r : round_data), rs !! i = Some r ->
          metrics_rounds m !! i = Some (S i)
          /\ (forall gi : rng,
                metrics_hypervolume m !! i
                = Some (calculate_hypervolume gi (paretoFront r) (Some ref)).1)
          /\ metrics_sparsity m !! i
             = Some (match calculate_sparsity argsort (paretoFront r) with
                     | Inf => 100
                     | Fin q => q
                     end)
          /\ metrics_pareto_size m !! i = Some (length (paretoFront r))).
Proof.
  intros Hrs.
  pose proof (calculate_metrics_closed_form g data rs Hrs) as Hc.
  destruct (calculate_metrics_over_time argsort g data) as [[m g']|e] eqn:E;
    [|discriminate Hc].
  simpl in Hc. injection Hc as Hm.
  exists (global_reference_point rs), (all_objectives rs), m, g'.
  destruct (global_reference_point_spec rs) as [Hdef Hmax].
  split; [reflexivity|]. split; [apply all_objectives_elem|].
  split; [exact Hdef|]. split; [exact Hmax|].
  rewrite Hm. cbn [metrics_rounds metrics_hypervolume metrics_sparsity metrics_pareto_size].
  rewrite !length_map.
  do 4 (split; [reflexivity|]).
  intros i r Hi.
  assert (Hlt : (i < length rs)%nat) by (eapply lookup_lt_Some; exact Hi).
  split; [rewrite lookup_seq_lt by exact Hlt; reflexivity|].
  split; [|split].
  - intros gi. rewrite list_lookup_fmap, Hi. simpl. f_equal.
    apply calculate_hypervolume_reseeds.
  - rewrite list_lookup_fmap, Hi. reflexivity.
  - rewrite list_lookup_fmap, Hi. reflexivity.
Qed.

(** C9. Two calls of the estimator on the same front and reference point
    return the same value whatever the state of the generator at each call,
    and so do two runs of the metrics builder on the same document. *)
Theorem estimators_deterministic :
  (forall (g1 g2 : rng) (pareto_front : list solution) (reference_point : option row),
      (calculate_hypervolume g1 pareto_front reference_point).1
      = (calculate_hypervolume g2 pareto_front reference_point).1)
  /\ (forall (g1 g2 : rng) (data : result),
        fst <$> calculate_metrics_over_time argsort g1 data
        = fst <$> calculate_metrics_over_time argsort g2 data).
Proof.
  split; [apply calculate_hypervolume_reseeds|].
  intros g1 g2 data. destruct (rounds data) as [rs|] eqn:Hrs.
  - rewrite !(calculate_metrics_closed_form _ data rs Hrs). reflexivity.
  - unfold calculate_metrics_over_time. rewrite Hrs. reflexivity.
Qed.

End MetricsFacts.

(** ** Loops that may raise *)

Lemma for_each_app {A S : Type} (body : S -> A -> exc S) (l1 l2 : list A) (s : S) :
  for_each body (l1 ++ l2) s = (for_each body l1 s ≫= for_each body l2).
Proof.
  revert s. induction l1 as [|x l1 IH]; intros s; simpl; [reflexivity|].
  destruct (body s x) as [s'|e]; simpl; [apply IH|reflexivity].
Qed.

(** A loop that appends one computed element for each item. *)
Lemma for_each_append {A B : Type} (f : A -> exc B) (l : list A) (acc : list B) (rs : list B) :
  Forall2 (fun x r => f x = Ok r) l rs ->
  for_each (fun acc x => r ← f x; mret (acc ++ [r])) l acc = Ok (acc ++ rs).
Proof.
  intros F. revert acc. induction F as [|x r l rs Hx _ IH]; intros acc; simpl.
  - rewrite app_nil_r. reflexivity.
  - rewrite Hx. simpl. rewrite IH, <- app_assoc. reflexivity.
Qed.

(** ** Comparison records *)

Lemma getitem_is_Some (d : gmap string value) (k : string) :
  is_Some (d !! k) -> exists v, getitem d k = Ok v /\ d !! k = Some v.
Proof. intros [v Hv]. exists v. unfold getitem. rewrite Hv. split; reflexivity. Qed.

Lemma baseline_record_complete (test_name : string) (baseline : baseline_result) :
  complete_baseline baseline ->
  exists record,
    baseline_record test_name baseline = Ok record
    /\ record !! "algorithm" = Some (VStr (algorithm baseline))
    /\ record !! "test_case" = Some (VStr test_name)
    /\ record !! "cost" = baseline_fields baseline !! "rawCost"
    /\ record !! "disruption" = baseline_fields baseline !! "disruption".
Proof.
  intros Hc. unfold baseline_record.
  destruct (getitem_is_Some (baseline_fields baseline) "rawCost") as (c & -> & Hc1);
    [apply Hc; unfold baseline_keys; set_solver|].
  destruct (getitem_is_Some (baseline_fields baseline) "rawBalance") as (b & -> & ?);
    [apply Hc; unfold baseline_keys; set_solver|].
  destruct (getitem_is_Some (baseline_fields baseline) "disruption") as (r & -> & Hc3);
    [apply Hc; unfold baseline_keys; set_solver|].
  destruct (getitem_is_Some (baseline_fields baseline) "weightedScore") as (w & -> & ?);
    [apply Hc; unfold baseline_keys; set_solver|].
  destruct (getitem_is_Some (baseline_fields baseline) "movements") as (m & -> & ?);
    [apply Hc; unfold baseline_keys; set_solver|].
  destruct (getitem_is_Some (baseline_fields baseline) "feasible") as (f & -> & ?);
    [apply Hc; unfold baseline_keys; set_solver|].
  destruct (getitem_is_Some (baseline_fields baseline) "executionTimeMs") as (t & -> & ?);
    [apply Hc; unfold baseline_keys; set_solver|].
  simpl. eexists. split; [reflexivity|].
  rewrite Hc1, Hc3. repeat split; reflexivity.
Qed.

Lemma baseline_records_complete (test_name : string) (bl : list baseline_result) :
  Forall complete_baseline bl ->
  exists records, Forall2 (fun b r => baseline_record test_name b = Ok r) bl records.
Proof.
  induction 1 as [|b bl Hb _ (records & IH)].
  - exists []. constructor.
  - destruct (baseline_record_complete test_name b Hb) as (r & Hr & _).
    exists (r :: records). constructor; assumption.
Qed.

(** The records one result adds to [algorithm_data]. *)
Lemma comparison_step_shape (algorithm_data : list (gmap string value)) (result : result) :
  Forall complete_baseline (default [] (baselineResults result)) ->
  exists records,
    Forall2 (fun b r => baseline_record (name (testCase result)) b = Ok r)
            (default [] (baselineResults result)) records
    /\ comparison_step algorithm_data result
       = Ok (algorithm_data
             ++ (if has_final_results result
                 then [nsga_record (name (testCase result))
                         (default ∅ (comparisonMetrics result))]
                 else [])
             ++ records).
Proof.
  intros Hc.
  destruct (baseline_records_complete (name (testCase result)) _ Hc) as (records & F).
  exists records. split; [exact F|].
  unfold comparison_step.
  rewrite (for_each_append _ _ _ records F).
  destruct (has_final_results result); [rewrite <- app_assoc|]; reflexivity.
Qed.

(** C7, as the code has it.  For a run whose baselines hold the keys that
    are read: when the run has final results that are not empty, it
    contributes one record for the proposed algorithm followed by one record
    for each baseline, in the order of the baselines; when the final results
    are absent or empty, it contributes the records of the baselines only. *)
Theorem comparison_records (algorithm_data : list (gmap string value)) (result : result) :
  let bl := default [] (baselineResults result) in
  let test_name := name (testCase result) in
  Forall complete_baseline bl ->
  exists records : list (gmap string value),
    comparison_step algorithm_data result = Ok (algorithm_data ++ records)
    /\ length records
       = ((if has_final_results result then 1 else 0) + length bl)%nat
    /\ (has_final_results result = true ->
        exists head, records !! 0%nat = Some head
                     /\ head !! "algorithm" = Some (VStr "NSGA-II")
                     /\ head !! "test_case" = Some (VStr test_name))
    /\ (forall (i : nat) (b : baseline_result), bl !! i = Some b ->
          exists r,
            records !! ((if has_final_results result then 1 else 0) + i)%nat = Some r
            /\ baseline_record test_name b = Ok r
            /\ r !! "algorithm" = Some (VStr (algorithm b))).
Proof.
  intros bl test_name Hc.
  destruct (comparison_step_shape algorithm_data result Hc) as (records & F & E).
  fold bl test_name in F, E.
  eexists. split; [exact E|].
  pose proof (Forall2_length _ _ _ F) as Hlen.
  split; [|split].
  - rewrite length_app. destruct (has_final_results result); simpl; lia.
  - intros ->. simpl. eexists. split; [reflexivity|]. split; reflexivity.
  - intros i b Hi.
    destruct (Forall2_lookup_l _ _ _ _ _ F Hi) as (r & Hr & Hrec).
    exists r. split; [|split].
    + destruct (has_final_results result); simpl; exact Hr.
    + exact Hrec.
    + rewrite Forall_forall in Hc.
      destruct (baseline_record_complete test_name b) as (r' & Hr' & Halg & _).
      { apply Hc. eapply list_elem_of_lookup_2. exact Hi. }
      rewrite Hrec in Hr'. injection Hr' as <-. exact Halg.
Qed.

Lemma full_baseline_complete (alg : string) (c b d : Q) :
  complete_baseline (full_baseline alg c b d).
Proof.
  intros k Hk. unfold baseline_keys in Hk.
  elem_cases Hk; eexists; reflexivity.
Qed.

(** C7, as it is worded, fails: a run with three baselines and no final
    results contributes three records. *)
Lemma comparison_without_final_results :
  ~ (forall result : result,
        exists records,
          comparison_step [] result = Ok records
          /\ length records = S (length (default [] (baselineResults result)))).
Proof.
  intros Hclaim.
  set (bl := three_baselines).
  destruct (Hclaim (sample_run 3 None (Some bl) None)) as (records & E & L).
  destruct (comparison_step_shape [] (sample_run 3 None (Some bl) None))
    as (records' & F & E').
  { simpl. repeat constructor; apply full_baseline_complete. }
  rewrite E in E'. injection E' as ->.
  apply Forall2_length in F. simpl in F, L. lia.
Qed.

(** ** Grouping by node count *)

Lemma for_each_invariant {A S : Type} (P : S -> Prop) (body : S -> A -> exc S)
    (l : list A) (s s' : S) :
  (forall s x s', P s -> body s x = Ok s' -> P s') ->
  P s -> for_each body l s = Ok s' -> P s'.
Proof.
  intros Hstep. revert s. induction l as [|x l IH]; intros s Hs E; simpl in E.
  - injection E as <-. exact Hs.
  - destruct (body s x) as [s1|e] eqn:Hb; simpl in E; [|discriminate].
    eapply IH; [|exact E]. eapply Hstep; eassumption.
Qed.

Lemma baseline_entry_disruption (baseline : baseline_result) (e : gmap string value) :
  baseline_entry baseline = Ok e ->
  e !! "disruption" = Some (VNum (Fin 0))
  /\ e !! "cost" = baseline_fields baseline !! "rawCost"
  /\ e !! "balance" = baseline_fields baseline !! "rawBalance".
Proof.
  unfold baseline_entry, getitem.
  destruct (baseline_fields baseline !! "rawCost") as [c|]; [|discriminate].
  destruct (baseline_fields baseline !! "rawBalance") as [b|]; [|discriminate].
  simpl.
  destruct (truediv _ 1000) as [t|]; [|discriminate].
  simpl. intros E. injection E as <-. repeat split; reflexivity.
Qed.

Lemma baseline_step_zero (bs bs' : gmap string (gmap string value))
    (baseline : baseline_result) :
  zero_disruption bs -> baseline_step bs baseline = Ok bs' -> zero_disruption bs'.
Proof.
  intros Hz. unfold baseline_step.
  destruct (baseline_entry baseline) as [e|] eqn:He; [|discriminate].
  simpl. intros E. injection E as <-.
  intros alg e' Hl.
  destruct (decide (algorithm baseline = alg)) as [<-|Hne].
  - rewrite lookup_insert_eq in Hl. injection Hl as <-.
    apply (baseline_entry_disruption baseline e He).
  - rewrite lookup_insert_ne in Hl by exact Hne.
    destruct (bs !! algorithm baseline); [apply (Hz alg e' Hl)|].
    rewrite lookup_insert_ne in Hl by exact Hne. apply (Hz alg e' Hl).
Qed.

Lemma scenario_step_zero (st st' : grouping) (result : result) :
  (forall n sc, st.1 !! n = Some sc -> zero_disruption (baselines sc)) ->
  scenario_step st result = Ok st' ->
  forall n sc, st'.1 !! n = Some sc -> zero_disruption (baselines sc).
Proof.
  destruct st as [sd out]. simpl. intros Hz.
  unfold scenario_step.
  set (n0 := length (nodes (testCase result))).
  set (sd1 := match sd !! n0 with
              | Some _ => sd
              | None => <[n0 := {| nsga_ii := ∅; baselines := ∅ |}]> sd
              end).
  assert (Hz1 : forall n sc, sd1 !! n = Some sc -> zero_disruption (baselines sc)).
  { intros n sc. subst sd1. destruct (sd !! n0) eqn:E0; [apply Hz|].
    destruct (decide (n0 = n)) as [<-|Hne].
    - rewrite lookup_insert_eq. intros [= <-]. intros alg e Hl.
      simpl in Hl. rewrite lookup_empty in Hl. discriminate.
    - rewrite lookup_insert_ne by exact Hne. apply Hz. }
  clearbody sd1. clear Hz.
  set (p := match rounds result with
            | Some (r :: rs) => _
            | _ => (sd1, out)
            end).
  assert (Hz2 : forall n sc, p.1 !! n = Some sc -> zero_disruption (baselines sc)).
  { intros n sc. subst p. destruct (rounds result) as [[|r rs]|]; simpl; try apply Hz1.
    rewrite lookup_alter. case_decide as Hn.
    - destruct (sd1 !! n0) as [sc0|] eqn:E0; simpl; [|discriminate].
      intros [= <-]. simpl. apply (Hz1 n0 sc0 E0).
    - apply Hz1. }
  clearbody p. destruct p as [sd2 out2]. simpl in Hz2.
  destruct (baselineResults result) as [bl|].
  - destruct (for_each baseline_step bl _) as [bs|] eqn:Hbs; simpl; [|discriminate].
    intros E. injection E as <-. simpl.
    assert (Hbz : zero_disruption bs).
    { eapply (for_each_invariant zero_disruption); [|  |exact Hbs].
      - intros s x s' Hs Hx. eapply baseline_step_zero; eassumption.
      - destruct (sd2 !! n0) as [sc0|] eqn:E0; simpl.
        + apply (Hz2 n0 sc0 E0).
        + intros alg e Hl. rewrite lookup_empty in Hl. discriminate. }
    intros n sc. rewrite lookup_alter. case_decide as Hn.
    + destruct (sd2 !! n0) as [sc0|]; simpl; [|discriminate].
      intros [= <-]. exact Hbz.
    + apply Hz2.
  - simpl. intros E. injection E as <-. exact Hz2.
Qed.

(** C6, as the code has it.  Whatever the baseline records hold, every
    baseline entry the grouping stores carries the number 0 as its
    disruption. *)
Theorem baseline_disruption_is_zero (results : list result) (st : grouping) :
  collect_scenario_data results = Ok st ->
  forall (n : nat) (sc : scenario) (alg : string) (e : gmap string value),
    st.1 !! n = Some sc ->
    baselines sc !! alg = Some e ->
    e !! "disruption" = Some (VNum (Fin 0)).
Proof.
  intros E n sc alg e Hn Halg.
  assert (Hinv : forall n sc, st.1 !! n = Some sc -> zero_disruption (baselines sc)).
  { eapply (for_each_invariant
              (fun st : grouping =>
                 forall n sc, st.1 !! n = Some sc -> zero_disruption (baselines sc)));
      [| |exact E].
    - intros s x s' Hs Hx. eapply scenario_step_zero; eassumption.
    - simpl. intros n' sc'. rewrite lookup_empty. discriminate. }
  exact (Hinv n sc Hn alg e Halg).
Qed.

(** C6, as it is worded, fails: a baseline record without a disruption key
    is stored with the number 0 as its disruption. *)
Lemma missing_disruption_stored_as_zero :
  ~ (forall (results : list result) (st : grouping) (result : result)
            (b : baseline_result) (sc : scenario) (e : gmap string value),
        collect_scenario_data results = Ok st ->
        result ∈ results ->
        b ∈ default [] (baselineResults result) ->
        baseline_fields b !! "disruption" = None ->
        st.1 !! node_count result = Some sc ->
        baselines sc !! algorithm b = Some e ->
        e !! "disruption" <> Some (VNum (Fin 0))).
Proof.
  intros Hclaim.
  set (b := placement_baseline "Random Placement" 3 4).
  set (run := sample_run 2 None (Some [b]) None).
  assert (H : (collect_scenario_data [run] ≫= fun st =>
                 mret (st.1 !! 2%nat ≫= fun sc =>
                       baselines sc !! "Random Placement" ≫= fun e =>
                       e !! "disruption"))
              = Ok (Some (VNum (Fin 0)))) by (vm_compute; reflexivity).
  destruct (collect_scenario_data [run]) as [st|] eqn:E; [|discriminate H].
  simpl in H. injection H as H.
  destruct (st.1 !! 2%nat) as [sc|] eqn:Hsc; [|discriminate H]. simpl in H.
  destruct (baselines sc !! "Random Placement") as [e|] eqn:He; [|discriminate H].
  simpl in H.
  apply (Hclaim [run] st run b sc e E); try assumption; try reflexivity.
  - left.
  - left.
Qed.

Lemma best_step_cost (b : best_values) (ir : nat * round_data) :
  (best_cost (best_step b ir), best_cost_round (best_step b ir))
  = scan_step round_cost (best_cost b, best_cost_round b) ir.
Proof.
  destruct ir as [i r]. unfold best_step, scan_step, round_cost. simpl.
  destruct (lt_ext _ (best_cost b)); reflexivity.
Qed.

Lemma best_step_balance (b : best_values) (ir : nat * round_data) :
  (best_balance (best_step b ir), best_balance_round (best_step b ir))
  = scan_step round_balance (best_balance b, best_balance_round b) ir.
Proof.
  destruct ir as [i r]. unfold best_step, scan_step, round_balance. simpl.
  destruct (lt_ext _ (best_balance b)); reflexivity.
Qed.

Lemma best_step_disruption (b : best_values) (ir : nat * round_data) :
  (best_disruption (best_step b ir), best_disruption_round (best_step b ir))
  = scan_step round_disruption (best_disruption b, best_disruption_round b) ir.
Proof.
  destruct ir as [i r]. unfold best_step, scan_step, round_disruption. simpl.
  destruct (lt_ext _ (best_disruption b)); reflexivity.
Qed.

(** The record scan is three independent scans. *)
Lemma best_fold_scans (l : list (nat * round_data)) (b : best_values) :
  let b' := fold_left best_step l b in
  (best_cost b', best_cost_round b')
  = fold_left (scan_step round_cost) l (best_cost b, best_cost_round b)
  /\ (best_balance b', best_balance_round b')
     = fold_left (scan_step round_balance) l (best_balance b, best_balance_round b)
  /\ (best_disruption b', best_disruption_round b')
     = fold_left (scan_step round_disruption) l
         (best_disruption b, best_disruption_round b).
Proof.
  revert b. induction l as [|ir l IH]; intros b; simpl; [repeat split|].
  destruct (IH (best_step b ir)) as (Hc & Hb & Hd).
  rewrite <- best_step_cost, <- best_step_balance, <- best_step_disruption.
  repeat split; assumption.
Qed.

Lemma enumerate_snoc {A : Type} (l : list A) (x : A) :
  enumerate (l ++ [x]) = enumerate l ++ [(length l, x)].
Proof.
  unfold enumerate. rewrite imap_app. simpl. rewrite Nat.add_0_r. reflexivity.
Qed.

(** One scan finds the least value and the first round that has it. *)
Lemma scan_first_minimum (f : round_data -> Q) (rs : list round_data) :
  rs <> [] ->
  exists c j,
    fold_left (scan_step f) (enumerate rs) (Inf, 0%nat) = (Fin c, j)
    /\ first_minimum f rs c j.
Proof.
  induction rs as [|x prefix IH] using rev_ind; [congruence|]. intros _.
  rewrite enumerate_snoc, fold_left_app. simpl.
  destruct prefix as [|r0 prefix'] eqn:Hprefix.
  - simpl. exists (f x), 1%nat. split; [reflexivity|].
    split; [lia|]. split; [exists x; split; reflexivity|]. split.
    + intros r Hr. apply list_elem_of_singleton in Hr as ->. apply Qle_refl.
    + intros i r Hi. lia.
  - rewrite <- Hprefix in *.
    destruct IH as (c & j & -> & Hj & (rj & Hrj & Hc) & Hmin & Hfirst);
      [rewrite Hprefix; discriminate|].
    assert (Hjlen : (j - 1 < length prefix)%nat) by (eapply lookup_lt_Some; exact Hrj).
    unfold scan_step, lt_ext. simpl.
    destruct (Qlt_le_dec (f x) c) as [Hlt|Hle].
    + exists (f x), (length prefix + 1)%nat. split; [reflexivity|].
      split; [lia|]. split; [|split].
      * exists x. split; [|reflexivity].
        replace (length prefix + 1 - 1)%nat with (length prefix) by lia.
        apply list_lookup_middle. reflexivity.
      * intros r Hr. apply elem_of_app in Hr as [Hr|Hr].
        -- apply Qlt_le_weak. eapply Qlt_le_trans; [exact Hlt|apply Hmin, Hr].
        -- apply list_elem_of_singleton in Hr as ->. apply Qle_refl.
      * intros i r Hi Hr.
        rewrite lookup_app_l in Hr by lia.
        eapply Qlt_le_trans; [exact Hlt|]. apply Hmin.
        eapply list_elem_of_lookup_2. exact Hr.
    + exists c, j. split; [reflexivity|].
      split; [exact Hj|]. split; [|split].
      * exists rj. split; [|exact Hc]. rewrite lookup_app_l by exact Hjlen. exact Hrj.
      * intros r Hr. apply elem_of_app in Hr as [Hr|Hr]; [apply Hmin, Hr|].
        apply list_elem_of_singleton in Hr as ->. exact Hle.
      * intros i r Hi Hr. rewrite lookup_app_l in Hr by lia.
        eapply Hfirst; eassumption.
Qed.

(** The best values of a run that has at least one round. *)
Lemma best_over_rounds_minima (r : round_data) (rs : list round_data) :
  let b := best_over_rounds (r :: rs) in
  exists c l d : Q,
    best_cost b = Fin c
    /\ first_minimum round_cost (r :: rs) c (best_cost_round b)
    /\ best_balance b = Fin l
    /\ first_minimum round_balance (r :: rs) l (best_balance_round b)
    /\ best_disruption b = Fin d
    /\ first_minimum round_disruption (r :: rs) d (best_disruption_round b).
Proof.
  intros b.
  destruct (best_fold_scans (enumerate (r :: rs)) best_init) as (Hc & Hl & Hd).
  change (fold_left best_step (enumerate (r :: rs)) best_init) with b in Hc, Hl, Hd.
  clearbody b.
  destruct (scan_first_minimum round_cost (r :: rs)) as (c & jc & Ec & Mc); [discriminate|].
  destruct (scan_first_minimum round_balance (r :: rs)) as (l & jl & El & Ml); [discriminate|].
  destruct (scan_first_minimum round_disruption (r :: rs)) as (d & jd & Ed & Md); [discriminate|].
  change (best_cost best_init, best_cost_round best_init) with (Inf, 0%nat) in Hc.
  change (best_balance best_init, best_balance_round best_init) with (Inf, 0%nat) in Hl.
  change (best_disruption best_init, best_disruption_round best_init)
    with (Inf, 0%nat) in Hd.
  rewrite Ec in Hc. rewrite El in Hl. rewrite Ed in Hd.
  injection Hc as Hc1 Hc2. injection Hl as Hl1 Hl2. injection Hd as Hd1 Hd2.
  exists c, l, d. rewrite Hc1, Hc2, Hl1, Hl2, Hd1, Hd2. tauto.
Qed.

(** What one result with rounds leaves under its node count. *)
Lemma scenario_step_overwrites (st st' : grouping) (result : result)
    (r : round_data) (rs : list round_data) :
  rounds result = Some (r :: rs) ->
  scenario_step st result = Ok st' ->
  (exists sc, st'.1 !! node_count result = Some sc
              /\ nsga_ii sc = nsga_entry (best_over_rounds (r :: rs)) (length (r :: rs)))
  /\ st'.2 = st.2 ++ [{| printed_node_count := node_count result;
                         printed_values := best_over_rounds (r :: rs) |}].
Proof.
  destruct st as [sd out]. intros Hr. unfold scenario_step, node_count. rewrite Hr.
  set (n0 := length (nodes (testCase result))).
  set (sd1 := match sd !! n0 with
              | Some _ => sd
              | None => <[n0 := {| nsga_ii := ∅; baselines := ∅ |}]> sd
              end).
  assert (H1 : is_Some (sd1 !! n0)).
  { subst sd1. destruct (sd !! n0) eqn:E0; [rewrite E0; eauto|].
    rewrite lookup_insert_eq. eauto. }
  destruct H1 as [sc1 Hsc1]. clearbody sd1.
  destruct (baselineResults result) as [bl|].
  - rewrite lookup_alter_eq, Hsc1. simpl.
    destruct (for_each baseline_step bl (baselines sc1)) as [bs|]; simpl; [|discriminate].
    intros E. injection E as <-. simpl. split; [|reflexivity].
    rewrite !lookup_alter_eq, Hsc1. simpl. eexists. split; reflexivity.
  - simpl. intros E. injection E as <-. simpl. split; [|reflexivity].
    rewrite lookup_alter_eq, Hsc1. simpl. eexists. split; reflexivity.
Qed.

(** What one result leaves of the values stored before it: those of another
    node count, and those of its own node count when it has no round. *)
Lemma scenario_step_keeps (st st' : grouping) (result : result) (n : nat) (sc : scenario) :
  scenario_step st result = Ok st' ->
  st.1 !! n = Some sc ->
  n <> node_count result \/ rounds result = None \/ rounds result = Some [] ->
  exists sc', st'.1 !! n = Some sc' /\ nsga_ii sc' = nsga_ii sc.
Proof.
  destruct st as [sd out]. simpl. unfold scenario_step, node_count.
  set (n0 := length (nodes (testCase result))).
  intros E Hn Hcase.
  set (sd1 := match sd !! n0 with
              | Some _ => sd
              | None => <[n0 := {| nsga_ii := ∅; baselines := ∅ |}]> sd
              end) in E.
  assert (H1 : sd1 !! n = Some sc).
  { subst sd1. destruct (sd !! n0) eqn:E0; [exact Hn|].
    rewrite lookup_insert_ne; [exact Hn|]. intros ->. congruence. }
  clearbody sd1.
  set (p := match rounds result with
            | Some (r :: rs) => _
            | _ => (sd1, out)
            end) in E.
  assert (H2 : exists sc2, p.1 !! n = Some sc2 /\ nsga_ii sc2 = nsga_ii sc).
  { subst p. destruct Hcase as [Hne|[->| ->]]; simpl; eauto.
    destruct (rounds result) as [[|r rs]|]; simpl; eauto.
    rewrite lookup_alter_ne by congruence. eauto. }
  clearbody p. destruct p as [sd2 out2]. simpl in H2.
  destruct H2 as (sc2 & Hsc2 & Heq).
  destruct (baselineResults result) as [bl|].
  - destruct (for_each baseline_step bl _) as [bs|]; simpl in E; [|discriminate].
    injection E as <-. simpl.
    destruct (decide (n0 = n)) as [<-|Hne].
    + rewrite lookup_alter_eq, Hsc2. simpl. eexists. split; [reflexivity|exact Heq].
    + rewrite lookup_alter_ne by exact Hne. eauto.
  - simpl in E. injection E as <-. simpl. eauto.
Qed.

(** C2, as the code has it.  For a run that has at least one round and for
    each of cost, balance and disruption, the scan keeps the least value
    over all rounds of that run and the number, counted from 1, of the first
    round that has it.  These values are printed, and the three least values
    are stored under the node count of the run in place of what an earlier
    run of the same node count left there; a later run changes them only if
    it has the same node count and at least one round. *)
Theorem best_values_of_run :
  (forall (r : round_data) (rs : list round_data),
      let b := best_over_rounds (r :: rs) in
      exists c l d : Q,
        best_cost b = Fin c
        /\ first_minimum round_cost (r :: rs) c (best_cost_round b)
        /\ best_balance b = Fin l
        /\ first_minimum round_balance (r :: rs) l (best_balance_round b)
        /\ best_disruption b = Fin d
        /\ first_minimum round_disruption (r :: rs) d (best_disruption_round b))
  /\ (forall (st st' : grouping) (result : result) (r : round_data)
             (rs : list round_data),
        rounds result = Some (r :: rs) ->
        scenario_step st result = Ok st' ->
        let b := best_over_rounds (r :: rs) in
        (exists sc, st'.1 !! node_count result = Some sc
                    /\ nsga_ii sc !! "cost" = Some (VNum (best_cost b))
                    /\ nsga_ii sc !! "balance" = Some (VNum (best_balance b))
                    /\ nsga_ii sc !! "disruption" = Some (VNum (best_disruption b))
                    /\ nsga_ii sc !! "rounds_completed" = Some (VInt (length (r :: rs))))
        /\ st'.2 = st.2 ++ [{| printed_node_count := node_count result;
                               printed_values := b |}])
  /\ (forall (st st' : grouping) (result : result) (n : nat) (sc : scenario),
        scenario_step st result = Ok st' ->
        st.1 !! n = Some sc ->
        n <> node_count result \/ rounds result = None \/ rounds result = Some [] ->
        exists sc', st'.1 !! n = Some sc' /\ nsga_ii sc' = nsga_ii sc).
Proof.
  split; [apply best_over_rounds_minima|].
  split; [|apply scenario_step_keeps].
  intros st st' result r rs Hr E b.
  destruct (scenario_step_overwrites st st' result r rs Hr E) as ((sc & Hsc & Hn) & Hout).
  split; [|exact Hout].
  exists sc. split; [exact Hsc|]. rewrite Hn. repeat split; reflexivity.
Qed.

(** The scenario of the specification: the round costs 12, 8, 9 give the
    best cost 8, found in round 2, and the round costs 12, 11 give 11, found
    in round 2. *)
Example best_cost_scenario :
  let b1 := best_over_rounds [cost_round 12; cost_round 8; cost_round 9] in
  let b2 := best_over_rounds [cost_round 12; cost_round 11] in
  (best_cost b1, best_cost_round b1) = (Fin 8, 2%nat)
  /\ (best_cost b2, best_cost_round b2) = (Fin 11, 2%nat).
Proof. split; reflexivity. Qed.

(** C2, as it is worded, fails for a group of two runs: the stored cost is
    the best of the second run, 7, although the first run reached 5. *)
Lemma group_best_is_last_run :
  ~ (forall (results : list result) (st : grouping) (result : result)
            (rs : list round_data) (r : round_data) (sc : scenario),
        collect_scenario_data results = Ok st ->
        result ∈ results ->
        rounds result = Some rs ->
        r ∈ rs ->
        st.1 !! node_count result = Some sc ->
        exists c, nsga_ii sc !! "cost" = Some (VNum (Fin c)) /\ c <= round_cost r).
Proof.
  intros Hclaim.
  set (run1 := sample_run 2 (Some [cost_round 5]) None None).
  set (run2 := sample_run 2 (Some [cost_round 7]) None None).
  assert (H : (collect_scenario_data [run1; run2] ≫= fun st =>
                 mret (st.1 !! 2%nat ≫= fun sc => nsga_ii sc !! "cost"))
              = Ok (Some (VNum (Fin 7)))) by (vm_compute; reflexivity).
  destruct (collect_scenario_data [run1; run2]) as [st|] eqn:E; [|discriminate H].
  simpl in H. injection H as H.
  destruct (st.1 !! 2%nat) as [sc|] eqn:Hsc; [|discriminate H]. simpl in H.
  destruct (Hclaim [run1; run2] st run1 [cost_round 5] (cost_round 5) sc E)
    as (c & Hc & Hle); try reflexivity; try assumption.
  - left.
  - left.
  - rewrite H in Hc. injection Hc as <-.
    unfold round_cost in Hle. simpl in Hle.
    apply Qle_not_lt in Hle. apply Hle. reflexivity.
Qed.

(** ** The generator numpy installs *)

(** The first doubles after [np.random.seed(42)], cut after sixteen
    decimals; numpy prints them as 0.3745401188473625, 0.9507143064099162 and
    0.7319939418114051. *)
Example mt19937_seed_42 :
  map (fun u => Qfloor (u * 10000000000000000))
      (unit_draws (H := MT19937.random_state) 3 (MT19937.legacy_seeding 42))
  = [3745401188473624; 9507143064099161; 7319939418114050]%Z.
Proof. vm_compute. reflexivity. Qed.

(** ** The properties at concrete documents *)

Lemma zero_range_pass_witness :
  let objs := map objective_row equal_cost_front in
  let sorted := stable_argsort (column 0 objs) in
  (3 <= length equal_cost_front)%nat
  /\ zero_range 0 objs
  /\ crowding_pass stable_argsort objs (replicate 5 (Fin 0)) 0
     = <[index_last sorted := Inf]> (<[index_at sorted 0 := Inf]> (replicate 5 (Fin 0))).
Proof.
  intros objs sorted.
  assert (Hn : (3 <= length equal_cost_front)%nat) by (simpl; lia).
  split; [exact Hn|]. split; [exact equal_cost_front_zero_range|].
  exact (proj1 (zero_range_pass stable_argsort stable_argsort_perm equal_cost_front
                  0 (replicate 5 (Fin 0)) Hn eq_refl equal_cost_front_zero_range)).
Defined.

Lemma metrics_timeline_witness :
  let data := sample_run 2 (Some scenario_rounds) None None in
  rounds data = Some scenario_rounds
  /\ exists m g',
       calculate_metrics_over_time (H := MT19937.random_state) stable_argsort
         (MT19937.legacy_seeding 0) data = Ok (m, g')
       /\ metrics_rounds m = [1; 2; 3]%nat
       /\ length (metrics_hypervolume m) = 3%nat.
Proof.
  intros data. split; [reflexivity|].
  destruct (metrics_timeline (H := MT19937.random_state) stable_argsort
              (MT19937.legacy_seeding 0) data scenario_rounds eq_refl)
    as (ref & union & m & g' & E & _ & _ & _ & Hr & Hh & _).
  exists m, g'. split; [exact E|]. split; [exact Hr|exact Hh].
Defined.

Lemma comparison_records_witness :
  let run := sample_run 3 None (Some three_baselines)
               (Some {[ "bestCost" := VNum (Fin 9) ]}) in
  Forall complete_baseline three_baselines
  /\ exists records,
       comparison_step [] run = Ok records
       /\ length records = 4%nat
       /\ (exists head, records !! 0%nat = Some head
                        /\ head !! "algorithm" = Some (VStr "NSGA-II")).
Proof.
  intros run.
  assert (Hc : Forall complete_baseline three_baselines).
  { repeat constructor; apply full_baseline_complete. }
  split; [exact Hc|].
  destruct (comparison_records [] run Hc) as (records & E & Hlen & Hhead & _).
  exists records. split; [exact E|]. split; [exact Hlen|].
  destruct (Hhead eq_refl) as (head & H0 & Halg & _).
  exists head. split; [exact H0|exact Halg].
Defined.

Lemma baseline_disruption_is_zero_witness :
  let run := sample_run 2 None (Some three_baselines) None in
  exists st sc e,
    collect_scenario_data [run] = Ok st
    /\ st.1 !! 2%nat = Some sc
    /\ baselines sc !! "Random Placement" = Some e
    /\ e !! "disruption" = Some (VNum (Fin 0)).
Proof.
  intros run.
  assert (H : (collect_scenario_data [run] ≫= fun st =>
                 mret (st.1 !! 2%nat ≫= fun sc =>
                       baselines sc !! "Random Placement" ≫= fun e =>
                       e !! "disruption"))
              = Ok (Some (VNum (Fin 0)))) by (vm_compute; reflexivity).
  destruct (collect_scenario_data [run]) as [st|] eqn:E; [|discriminate H].
  simpl in H. injection H as H.
  destruct (st.1 !! 2%nat) as [sc|] eqn:Hsc; [|discriminate H]. simpl in H.
  destruct (baselines sc !! "Random Placement") as [e|] eqn:He; [|discriminate H].
  exists st, sc, e. split; [reflexivity|]. split; [exact Hsc|]. split; [exact He|].
  exact (baseline_disruption_is_zero [run] st E 2%nat sc "Random Placement" e Hsc He).
Defined.

Lemma best_values_of_run_witness :
  let run := sample_run 2 (Some [cost_round 12; cost_round 8; cost_round 9]) None None in
  rounds run = Some [cost_round 12; cost_round 8; cost_round 9]
  /\ exists st' sc,
       scenario_step (∅, []) run = Ok st'
       /\ st'.1 !! 2%nat = Some sc
       /\ nsga_ii sc !! "cost" = Some (VNum (Fin 8))
       /\ st'.2 = [{| printed_node_count := 2;
                      printed_values :=
                        best_over_rounds [cost_round 12; cost_round 8; cost_round 9] |}].
Proof.
  intros run. split; [reflexivity|].
  destruct (scenario_step (∅, []) run) as [st'|] eqn:E; [|discriminate E].
  destruct (proj1 (proj2 best_values_of_run) (∅, []) st' run (cost_round 12)
              [cost_round 8; cost_round 9] eq_refl E)
    as ((sc & Hsc & Hcost & _) & Hout).
  exists st', sc. split; [reflexivity|]. split; [exact Hsc|].
  split; [exact Hcost|exact Hout].
Defined.

(** * Further properties of the metric functions *)

Local Open Scope Q_scope.

(** ** The estimate and the sampling box *)

Lemma Qmin_left (x y : Q) : x <= y -> Qmin x y = x.
Proof.
  intros Hle. unfold Qmin, GenericMinMax.gmin.
  destruct (x ?= y) eqn:E; try reflexivity.
  exfalso. apply Qle_alt in Hle. contradiction.
Qed.

Lemma row_min_left (x y : row) :
  (forall m, coord m x <= coord m y) -> row_map2 Qmin x y = x.
Proof.
  intros Hle. destruct x as [[x0 x1] x2]. unfold row_map2. simpl.
  rewrite (Qmin_left x0), (Qmin_left x1), (Qmin_left x2);
    [reflexivity|apply (Hle 2%nat)|apply (Hle 1%nat)|apply (Hle 0%nat)].
Qed.

(** Rows that are nowhere below the minimum do not change it. *)
Lemma amin_app_above (r : row) (rs extra : list row) :
  Forall (fun e => forall m, coord m (amin r rs) <= coord m e) extra ->
  amin r (rs ++ extra) = amin r rs.
Proof.
  unfold amin. rewrite fold_left_app. generalize (fold_left (row_map2 Qmin) rs r).
  intros low. induction 1 as [|e extra He _ IH]; simpl; [reflexivity|].
  rewrite (row_min_left low e He). exact IH.
Qed.

Lemma box_volume_proper (low low' high : row) :
  (forall m, coord m low == coord m low') ->
  box_volume low high == box_volume low' high.
Proof.
  intros E. unfold box_volume.
  rewrite (E 0%nat), (E 1%nat), (E 2%nat). reflexivity.
Qed.

Lemma fraction_le_1 (c : nat) :
  (c <= n_samples)%nat -> inject_Z (Z.of_nat c) / inject_Z 10000 <= 1.
Proof.
  intros Hc. apply Qle_shift_div_r; [reflexivity|]. rewrite Qmult_1_l.
  rewrite <- Zle_Qle. unfold n_samples in Hc. lia.
Qed.

Lemma dominated_samples_mono (objs extra samples : list row) :
  (length (dominated_samples objs samples)
   <= length (dominated_samples (objs ++ extra) samples))%nat.
Proof.
  unfold dominated_samples. induction samples as [|p ps IH]; [reflexivity|].
  rewrite !filter_cons.
  destruct (decide (Exists (fun o => row_le o p) objs)) as [E|E].
  - rewrite decide_True by (apply Exists_app; left; exact E). simpl. lia.
  - destruct (decide (Exists (fun o => row_le o p) (objs ++ extra))); simpl; lia.
Qed.

Lemma dominated_samples_all (objs samples : list row) :
  Forall (fun p => Exists (fun o => row_le o p) objs) samples ->
  dominated_samples objs samples = samples.
Proof.
  unfold dominated_samples. induction 1 as [|p ps Hp _ IH]; [reflexivity|].
  rewrite filter_cons, decide_True by exact Hp. rewrite IH. reflexivity.
Qed.

Section HypervolumeBox.
Context `{RandomState}.

Lemma hypervolume_between (g : rng) (sol : solution) (sols : list solution) (high : row) :
  let low := amin (objective_row sol) (map objective_row sols) in
  (forall m, coord m low <= coord m high) ->
  0 <= (calculate_hypervolume g (sol :: sols) (Some high)).1
  /\ (calculate_hypervolume g (sol :: sols) (Some high)).1 <= box_volume low high.
Proof.
  intros low Hbox. rewrite calculate_hypervolume_cons. fold low.
  set (samples := (random_uniform low high n_samples (rk_seed 42)).1).
  set (c := length (dominated_samples _ samples)).
  assert (Hc : (c <= n_samples)%nat).
  { subst c. unfold dominated_samples.
    etransitivity; [apply length_filter|].
    subst samples. rewrite random_uniform_length. reflexivity. }
  pose proof (fraction_nonneg c) as H0.
  pose proof (fraction_le_1 c Hc) as H1.
  pose proof (box_volume_nonneg low high Hbox) as Hv.
  split; [apply Qmult_le_0_compat; assumption|].
  rewrite <- (Qmult_1_l (box_volume low high)) at 2.
  apply Qmult_le_compat_r; assumption.
Qed.

(** X1. When no coordinate of the reference point is below the
    componentwise minimum of a front that is not empty, the estimate lies
    between 0 and the volume of the box from that minimum to the reference
    point. *)
Theorem hypervolume_within_box (g : rng) (sol : solution) (sols : list solution)
    (low high : row) :
  componentwise_min low (map objective_row (sol :: sols)) ->
  (forall m, coord m low <= coord m high) ->
  0 <= (calculate_hypervolume g (sol :: sols) (Some high)).1
  /\ (calculate_hypervolume g (sol :: sols) (Some high)).1 <= box_volume low high.
Proof.
  intros Hlow Hbox.
  assert (E : forall m, coord m low
                        == coord m (amin (objective_row sol) (map objective_row sols))).
  { intros m. apply (componentwise_min_unique _ _ _ m Hlow), amin_componentwise_min. }
  rewrite (box_volume_proper low _ high E).
  apply hypervolume_between. intros m. rewrite <- (E m). apply Hbox.
Qed.

(** X2. When the draws are not negative and some solution of the front is
    at most every solution of the front in all three objectives, and at most
    the reference point, every sample is dominated and the estimate is the
    volume of the box from that solution to the reference point; this is so
    for every front of one solution. *)
Theorem hypervolume_of_ideal_front :
  Forall (fun u => 0 <= u) (unit_draws (3 * n_samples) (rk_seed 42)) ->
  forall (g : rng) (sol : solution) (sols : list solution) (ideal : solution)
         (high : row),
    ideal ∈ sol :: sols ->
    (forall s, s ∈ sol :: sols -> row_le (objective_row ideal) (objective_row s)) ->
    row_le (objective_row ideal) high ->
    (calculate_hypervolume g (sol :: sols) (Some high)).1
    == box_volume (objective_row ideal) high.
Proof.
  intros Hd g sol sols ideal high Hin Hideal Hhigh.
  set (low := amin (objective_row sol) (map objective_row sols)).
  assert (Hle3 : forall x y m, row_le x y -> coord m x <= coord m y).
  { intros x y m (L0 & L1 & L2). destruct m as [|[|m]]; [| |rewrite !coord_ge_2]; assumption. }
  assert (E : forall m, coord m low == coord m (objective_row ideal)).
  { intros m. destruct (amin_componentwise_min (objective_row sol)
                          (map objective_row sols) m) as [Hlb (o & Ho & Hatt)].
    fold low in Hlb, Hatt. apply Qle_antisym.
    - apply Hlb. change (objective_row ideal ∈ map objective_row (sol :: sols)).
      apply list_elem_of_fmap_2, Hin.
    - rewrite <- Hatt.
      change (o ∈ map objective_row (sol :: sols)) in Ho.
      apply list_elem_of_fmap in Ho as (s & -> & Hs).
      apply Hle3, Hideal, Hs. }
  rewrite calculate_hypervolume_cons. fold low.
  rewrite dominated_samples_all.
  - rewrite random_uniform_length, (box_volume_proper low _ high E).
    assert (Hone : inject_Z (Z.of_nat n_samples) / inject_Z 10000 == 1)
      by (vm_compute; reflexivity).
    rewrite Hone. ring.
  - eapply Forall_impl;
      [apply (random_uniform_coords (fun u => 0 <= u) low high n_samples _ Hd)|].
    intros p Hp. apply Exists_exists. exists (objective_row ideal).
    split; [change (objective_row ideal ∈ map objective_row (sol :: sols));
            apply list_elem_of_fmap_2, Hin|].
    assert (Hm : forall m, coord m (objective_row ideal) <= coord m p).
    { intros m. destruct (Hp m) as (u & Hu & ->). rewrite <- (E m).
      pose proof (Hle3 _ _ m Hhigh) as Hh. rewrite <- (E m) in Hh. nra. }
    repeat split; [apply (Hm 0%nat)|apply (Hm 1%nat)|apply (Hm 2%nat)].
Qed.

(** X3. With the same reference point, nowhere below the componentwise
    minimum of the front, solutions appended to a front that are nowhere
    below that minimum do not lower the estimate: the box and the samples
    stay the same and the dominated samples can only become more. *)
Theorem hypervolume_monotone (g : rng) (sol : solution) (sols extra : list solution)
    (low high : row) :
  componentwise_min low (map objective_row (sol :: sols)) ->
  (forall m, coord m low <= coord m high) ->
  Forall (fun e => forall m, coord m low <= coord m (objective_row e)) extra ->
  (calculate_hypervolume g (sol :: sols) (Some high)).1
  <= (calculate_hypervolume g (sol :: sols ++ extra) (Some high)).1.
Proof.
  intros Hlow Hbox Hextra.
  set (lo := amin (objective_row sol) (map objective_row sols)).
  assert (E : forall m, coord m low == coord m lo).
  { intros m. apply (componentwise_min_unique _ _ _ m Hlow), amin_componentwise_min. }
  assert (Hsame : amin (objective_row sol) (map objective_row (sols ++ extra)) = lo).
  { rewrite map_app. apply amin_app_above. fold lo.
    apply Forall_fmap. eapply Forall_impl; [exact Hextra|].
    intros e He m. simpl. rewrite <- (E m). apply He. }
  rewrite !calculate_hypervolume_cons. rewrite Hsame. fold lo.
  apply Qmult_le_compat_r.
  - apply Qmult_le_compat_r; [|apply Qinv_le_0_compat; discriminate].
    rewrite <- Zle_Qle. apply Nat2Z.inj_le.
    change (map objective_row (sol :: sols ++ extra))
      with (objective_row sol :: map objective_row (sols ++ extra)).
    rewrite map_app.
    apply (dominated_samples_mono (objective_row sol :: map objective_row sols)).
  - apply box_volume_nonneg. intros m. rewrite <- (E m). apply Hbox.
Qed.

End HypervolumeBox.

(** ** The timeline of a run *)

Lemma coord_row_add_scalar (r : row) (c : Q) (m : nat) :
  coord m (row_add_scalar r c) = coord m r + c.
Proof. destruct m as [|[|m]]; reflexivity. Qed.

(** The shared reference point is 0.1 or more above every objective value of
    every solution of every round. *)
Lemma global_reference_above (rs : list round_data) (r : round_data) (sol : solution)
    (m : nat) :
  r ∈ rs -> sol ∈ paretoFront r ->
  coord m (objective_row sol) + (1 # 10) <= coord m (global_reference_point rs).
Proof.
  intros Hr Hsol.
  assert (Hin : objective_row sol ∈ all_objectives rs).
  { apply all_objectives_elem. eauto. }
  unfold global_reference_point. destruct (all_objectives rs) as [|o os]; [inversion Hin|].
  rewrite coord_row_add_scalar.
  destruct (amax_componentwise_max o os m) as [Hub _].
  specialize (Hub _ Hin). lra.
Qed.

Section TimelineFacts.
Context `{RandomState}.
Variable argsort : list Q -> list nat.

Lemma metrics_of_run (g : rng) (data : result) (rs : list round_data) (m : metrics)
    (g' : rng) :
  rounds data = Some rs ->
  calculate_metrics_over_time argsort g data = Ok (m, g') ->
  m = {| metrics_rounds := seq 1 (length rs);
         metrics_hypervolume :=
           map (fun r => (calculate_hypervolume (rk_seed 42) (paretoFront r)
                            (Some (global_reference_point rs))).1) rs;
         metrics_sparsity :=
           map (fun r => cap_sparsity (calculate_sparsity argsort (paretoFront r))) rs;
         metrics_pareto_size := map (fun r => length (paretoFront r)) rs |}.
Proof.
  intros Hrs E. pose proof (calculate_metrics_closed_form argsort g data rs Hrs) as Hc.
  rewrite E in Hc. simpl in Hc. injection Hc as Hc. exact Hc.
Qed.

Lemma round_hypervolume_nonneg (rs : list round_data) (r : round_data) (g : rng) :
  r ∈ rs ->
  0 <= (calculate_hypervolume g (paretoFront r) (Some (global_reference_point rs))).1.
Proof.
  intros Hr. destruct (paretoFront r) as [|sol sols] eqn:Hf; [apply Qle_refl|].
  apply hypervolume_between. intros m.
  destruct (amin_lower_bound (map objective_row sols) (objective_row sol) m) as [Hlo _].
  eapply Qle_trans; [exact Hlo|].
  pose proof (global_reference_above rs r sol m Hr) as Hup.
  rewrite Hf in Hup. specialize (Hup ltac:(left)). lra.
Qed.

(** X4. For a run that has rounds, the reference point the builder shares
    between the rounds is at least 0.1 above every objective value of every
    solution of the run, and every hypervolume it records is 0 or more,
    whatever the generator draws. *)
Theorem timeline_hypervolume_nonneg (g : rng) (data : result) (rs : list round_data)
    (m : metrics) (g' : rng) :
  rounds data = Some rs ->
  calculate_metrics_over_time argsort g data = Ok (m, g') ->
  Forall (fun r => Forall (fun sol => forall k,
            coord k (objective_row sol) + (1 # 10)
            <= coord k (global_reference_point rs)) (paretoFront r)) rs
  /\ Forall (fun h => 0 <= h) (metrics_hypervolume m).
Proof.
  intros Hrs E. split.
  - apply Forall_forall. intros r Hr. apply Forall_forall. intros sol Hsol k.
    apply (global_reference_above rs r sol k Hr Hsol).
  - rewrite (metrics_of_run g data rs m g' Hrs E). simpl.
    apply Forall_fmap, Forall_forall. intros r Hr. simpl.
    apply round_hypervolume_nonneg, Hr.
Qed.

(** X5. For a run that has rounds, a round whose front is empty is recorded
    with hypervolume 0, sparsity 100 and size 0, and a round whose front has
    one or two solutions is recorded with sparsity 100 as well. *)
Theorem timeline_small_fronts (g : rng) (data : result) (rs : list round_data)
    (m : metrics) (g' : rng) (i : nat) (r : round_data) :
  rounds data = Some rs ->
  calculate_metrics_over_time argsort g data = Ok (m, g') ->
  rs !! i = Some r ->
  (paretoFront r = [] ->
   metrics_hypervolume m !! i = Some 0
   /\ metrics_sparsity m !! i = Some 100
   /\ metrics_pareto_size m !! i = Some 0%nat)
  /\ ((length (paretoFront r) <= 2)%nat -> metrics_sparsity m !! i = Some 100).
Proof.
  intros Hrs E Hi. rewrite (metrics_of_run g data rs m g' Hrs E). simpl.
  rewrite !list_lookup_fmap, Hi. simpl. split.
  - intros ->. repeat split; reflexivity.
  - intros Hlen. unfold calculate_sparsity. rewrite decide_True by exact Hlen.
    reflexivity.
Qed.

End TimelineFacts.

(** ** Bounds of the sparsity *)

(** Along an ascending sort order, a later position holds a key that is not
    smaller. *)
Lemma ascending_lookup (col : list Q) (sorted : list nat) (i j a b : nat) :
  ascending col sorted -> (i <= j)%nat ->
  sorted !! i = Some a -> sorted !! j = Some b ->
  item col a <= item col b.
Proof.
  unfold ascending. intros Hs.
  apply Sorted_StronglySorted in Hs; [|intros x y z; apply Qle_trans].
  revert i j a b. induction Hs as [|x l _ IH Hx]; intros i j a b Hij Hi Hj; [discriminate|].
  destruct i as [|i], j as [|j]; simpl in *.
  - injection Hi as <-. injection Hj as <-. apply Qle_refl.
  - injection Hi as <-. rewrite Forall_forall in Hx. apply Hx.
    eapply list_elem_of_lookup_2. exact Hj.
  - lia.
  - apply (IH i j); [lia|assumption|assumption].
Qed.

Lemma sum_from (a : list Q) (c : Q) : fold_left Qplus a c == c + fold_left Qplus a 0.
Proof.
  revert c. induction a as [|x a IH]; intros c; simpl; [ring|].
  rewrite (IH (c + x)), (IH (0 + x)). ring.
Qed.

(** The mean of a list that is not empty lies between two bounds of its
    elements. *)
Lemma mean_between (a : list Q) (lo hi : Q) :
  a <> [] -> Forall (fun x => lo <= x /\ x <= hi) a ->
  lo <= mean a /\ mean a <= hi.
Proof.
  intros Hne Ha. unfold mean.
  assert (Hsum : inject_Z (Z.of_nat (length a)) * lo <= fold_left Qplus a 0
                 /\ fold_left Qplus a 0 <= inject_Z (Z.of_nat (length a)) * hi).
  { clear Hne. induction Ha as [|x a [Hx1 Hx2] _ [IH1 IH2]].
    - simpl. split; rewrite Qmult_0_l; apply Qle_refl.
    - cbn [fold_left length]. rewrite sum_from.
      rewrite Nat2Z.inj_succ, <- Z.add_1_r, inject_Z_plus.
      change (inject_Z 1) with 1. split; nra. }
  assert (Hpos : 0 < inject_Z (Z.of_nat (length a))).
  { change 0 with (inject_Z 0). rewrite <- Zlt_Qlt.
    destruct a; [congruence|simpl; lia]. }
  destruct Hsum as [H1 H2]. split.
  - apply Qle_shift_div_l; [exact Hpos|]. rewrite Qmult_comm. exact H1.
  - apply Qle_shift_div_r; [exact Hpos|]. rewrite Qmult_comm. exact H2.
Qed.

Section SparsityBounds.
Variable argsort : list Q -> list nat.
Hypothesis argsort_perm : forall col : list Q, argsort col ≡ₚ seq 0 (length col).
Hypothesis argsort_ascending : forall col : list Q, ascending col (argsort col).

(** What a column adds at a position that is not an end lies between 0 and 1. *)
Lemma contribution_between (col : list Q) (k : nat) :
  (1 <= k)%nat -> (k + 1 < length col)%nat ->
  0 <= contribution argsort col k /\ contribution argsort col k <= 1.
Proof.
  intros Hk1 Hk2. unfold contribution.
  destruct (decide (0 < sort_range argsort col)) as [Hr|Hr]; [|split; lra].
  pose proof (argsort_perm col) as Hp. pose proof (argsort_ascending col) as Hs.
  set (n := length col) in *. set (s := argsort col) in *.
  unfold sort_range in *. fold s in Hr |- *.
  rewrite (index_last_eq s n Hp) in *.
  assert (Hl : forall i, (i < n)%nat -> s !! i = Some (index_at s i))
    by (intros i Hi; apply (index_at_lookup s n Hp i Hi)).
  assert (H1 : item col (index_at s 0) <= item col (index_at s (k - 1))).
  { apply (ascending_lookup col s 0 (k - 1)); [exact Hs|lia|apply Hl; lia|apply Hl; lia]. }
  assert (H2 : item col (index_at s (k - 1)) <= item col (index_at s (k + 1))).
  { apply (ascending_lookup col s (k - 1) (k + 1)); [exact Hs|lia|apply Hl; lia|apply Hl; lia]. }
  assert (H3 : item col (index_at s (k + 1)) <= item col (index_at s (n - 1))).
  { apply (ascending_lookup col s (k + 1) (n - 1)); [exact Hs|lia|apply Hl; lia|apply Hl; lia]. }
  split.
  - apply Qle_shift_div_l; [exact Hr|]. lra.
  - apply Qle_shift_div_r; [exact Hr|]. lra.
Qed.

Lemma is_end_false (n k : nat) :
  is_end n k = false -> (k < n)%nat -> (1 <= k)%nat /\ (k + 1 < n)%nat.
Proof. unfold is_end. intros E Hk. apply bool_decide_eq_false in E. lia. Qed.

(** Every finite entry of the distance array lies between 0 and 3. *)
Lemma finite_distance_between (objs : list row) (q : Q) :
  Fin q ∈ crowding_distance_array argsort objs -> 0 <= q /\ q <= 3.
Proof.
  intros Hq. apply list_elem_of_lookup in Hq as [j Hj].
  assert (Hjn : (j < length objs)%nat).
  { apply lookup_lt_Some in Hj.
    rewrite (crowding_distance_array_length argsort objs) in Hj. exact Hj. }
  assert (Hpos : forall m, exists k, (k < length objs)%nat
                                     /\ argsort (column m objs) !! k = Some j).
  { intros m. pose proof (argsort_perm (column m objs)) as Hp.
    rewrite column_length in Hp. apply (index_position _ _ Hp j Hjn). }
  destruct (Hpos 0%nat) as (k0 & Hk0 & H0).
  destruct (Hpos 1%nat) as (k1 & Hk1 & H1).
  destruct (Hpos 2%nat) as (k2 & Hk2 & H2).
  destruct (crowding_distance_array_lookup argsort argsort_perm objs j k0 k1 k2 H0 H1 H2)
    as (d & Hd & Hequiv).
  rewrite Hj in Hd. injection Hd as <-.
  unfold crowding_distance_at in Hequiv.
  destruct (is_end (length objs) k0) eqn:E0; [contradiction|].
  destruct (is_end (length objs) k1) eqn:E1; [contradiction|].
  destruct (is_end (length objs) k2) eqn:E2; [contradiction|].
  simpl in Hequiv. rewrite Hequiv.
  destruct (is_end_false _ _ E0 Hk0) as [A0 B0].
  destruct (is_end_false _ _ E1 Hk1) as [A1 B1].
  destruct (is_end_false _ _ E2 Hk2) as [A2 B2].
  destruct (contribution_between (column 0 objs) k0 A0) as [L0 U0];
    [rewrite column_length; exact B0|].
  destruct (contribution_between (column 1 objs) k1 A1) as [L1 U1];
    [rewrite column_length; exact B1|].
  destruct (contribution_between (column 2 objs) k2 A2) as [L2 U2];
    [rewrite column_length; exact B2|].
  split; lra.
Qed.

Lemma sparsity_between (pareto_front : list solution) (q : Q) :
  calculate_sparsity argsort pareto_front = Fin q -> 0 <= q /\ q <= 3.
Proof.
  unfold calculate_sparsity.
  destruct (decide (length pareto_front <= 2)%nat); [discriminate|].
  set (fs := finite_values _).
  destruct (decide (0 < length fs)%nat) as [Hpos|]; [|discriminate].
  intros E. injection E as <-.
  apply mean_between.
  - intros Hnil. rewrite Hnil in Hpos. simpl in Hpos. lia.
  - apply Forall_forall. intros x Hx. subst fs.
    apply finite_values_elem in Hx. apply (finite_distance_between _ x Hx).
Qed.

(** X6. For a sort that returns the indices in ascending order of their
    keys, a sparsity that is finite lies between 0 and 3: each of the three
    objectives adds between 0 and 1 to a distance. *)
Theorem sparsity_bounds (pareto_front : list solution) (q : Q) :
  calculate_sparsity argsort pareto_front = Fin q -> 0 <= q /\ q <= 3.
Proof. apply sparsity_between. Qed.

End SparsityBounds.

(** * Further properties of the grouping and of the comparison records *)

(** ** Which groups there are *)

Lemma scenario_step_keys (st st' : grouping) (result : result) (n : nat) :
  scenario_step st result = Ok st' ->
  is_Some (st'.1 !! n) <-> is_Some (st.1 !! n) \/ n = node_count result.
Proof.
  destruct st as [sd out]. unfold scenario_step, node_count. simpl.
  set (n0 := length (nodes (testCase result))).
  set (sd1 := match sd !! n0 with
              | Some _ => sd
              | None => <[n0 := {| nsga_ii := ∅; baselines := ∅ |}]> sd
              end).
  assert (H1 : is_Some (sd1 !! n) <-> is_Some (sd !! n) \/ n = n0).
  { subst sd1. destruct (sd !! n0) eqn:E0.
    - split; [tauto|]. intros [?| ->]; [assumption|]. rewrite E0. eauto.
    - rewrite lookup_insert_is_Some. destruct (decide (n0 = n)) as [<-|Hne].
      + split; [tauto|]. intros _. left. reflexivity.
      + split; [intros [?|[_ ?]]; [congruence|tauto]|].
        intros [?|?]; [right; tauto|congruence]. }
  clearbody sd1.
  set (p := match rounds result with
            | Some (r :: rs) => _
            | _ => (sd1, out)
            end).
  assert (H2 : is_Some (p.1 !! n) <-> is_Some (sd1 !! n)).
  { subst p. destruct (rounds result) as [[|r rs]|]; simpl; try tauto.
    rewrite lookup_alter_is_Some. tauto. }
  clearbody p. destruct p as [sd2 out2]. simpl in H2.
  destruct (baselineResults result) as [bl|].
  - destruct (for_each baseline_step bl _) as [bs|]; simpl; [|discriminate].
    intros E. injection E as <-. simpl. rewrite lookup_alter_is_Some. tauto.
  - simpl. intros E. injection E as <-. simpl. tauto.
Qed.

Lemma for_each_scenario_keys (results : list result) (st st' : grouping) (n : nat) :
  for_each scenario_step results st = Ok st' ->
  is_Some (st'.1 !! n)
  <-> is_Some (st.1 !! n) \/ exists result, result ∈ results /\ node_count result = n.
Proof.
  revert st. induction results as [|r results IH]; intros st E; simpl in E.
  - injection E as <-. split; [tauto|]. intros [?|(x & Hx & _)]; [assumption|inversion Hx].
  - destruct (scenario_step st r) as [st1|] eqn:E1; simpl in E; [|discriminate].
    rewrite (IH st1 E), (scenario_step_keys st st1 r n E1). split.
    + intros [[?| ->]|(x & Hx & Hn)]; [tauto| |].
      * right. exists r. split; [left|reflexivity].
      * right. exists x. split; [right; exact Hx|exact Hn].
    + intros [?|(x & Hx & Hn)]; [tauto|].
      apply elem_of_cons in Hx as [->|Hx]; [left; right; congruence|].
      right. exists x. tauto.
Qed.

(** X7. When the grouping returns, [scenario_data] has a key for the node
    count of every result, with or without rounds and baselines, and no
    other key. *)
Theorem scenario_data_keys (results : list result) (st : grouping) (n : nat) :
  collect_scenario_data results = Ok st ->
  is_Some (st.1 !! n) <-> exists result, result ∈ results /\ node_count result = n.
Proof.
  intros E. unfold collect_scenario_data in E.
  rewrite (for_each_scenario_keys results (∅, []) st n E). simpl.
  rewrite lookup_empty. split; [intros [[x Hx]|?]; [discriminate|assumption]|tauto].
Qed.

(** ** When the loops raise *)

Lemma for_each_raises {A S : Type} (body : S -> A -> exc S) (l : list A) (x : A) (s : S) :
  x ∈ l -> (forall s', exists e, body s' x = Raise e) ->
  exists e, for_each body l s = Raise e.
Proof.
  intros Hx Hraise. revert s. induction l as [|y l IH]; intros s; [inversion Hx|].
  simpl. apply elem_of_cons in Hx as [<-|Hx].
  - destruct (Hraise s) as [e ->]. simpl. eauto.
  - destruct (body s y) as [s1|e]; simpl; [apply IH, Hx|eauto].
Qed.

Lemma baseline_entry_raises (baseline : baseline_result) :
  baseline_fields baseline !! "rawCost" = None
  \/ baseline_fields baseline !! "rawBalance" = None ->
  exists e, baseline_entry baseline = Raise e.
Proof.
  unfold baseline_entry, getitem. intros [E|E].
  - rewrite E. simpl. eauto.
  - destruct (baseline_fields baseline !! "rawCost"); simpl; [|eauto].
    rewrite E. simpl. eauto.
Qed.

Lemma scenario_step_raises (st : grouping) (result : result)
    (bl : list baseline_result) (b : baseline_result) :
  baselineResults result = Some bl -> b ∈ bl ->
  baseline_fields b !! "rawCost" = None \/ baseline_fields b !! "rawBalance" = None ->
  exists e, scenario_step st result = Raise e.
Proof.
  intros Hbl Hb Hmiss. destruct st as [sd out]. unfold scenario_step. rewrite Hbl.
  set (p := match rounds result with
            | Some (r :: rs) => _
            | _ => _
            end).
  destruct p as [sd2 out2].
  destruct (for_each_raises baseline_step bl b
              (default ∅ (baselines <$> sd2 !! length (nodes (testCase result)))) Hb)
    as [e He].
  - intros bs. unfold baseline_step.
    destruct (baseline_entry_raises b Hmiss) as [e ->]. simpl. eauto.
  - rewrite He. simpl. eauto.
Qed.

(** X8. If some baseline of some result lacks the key [rawCost] or the key
    [rawBalance], the grouping raises: it returns no [scenario_data], not
    even for the results that come before. *)
Theorem grouping_raises_on_missing_key (results : list result) (result : result)
    (bl : list baseline_result) (b : baseline_result) :
  result ∈ results ->
  baselineResults result = Some bl ->
  b ∈ bl ->
  baseline_fields b !! "rawCost" = None \/ baseline_fields b !! "rawBalance" = None ->
  exists e, collect_scenario_data results = Raise e.
Proof.
  intros Hr Hbl Hb Hmiss. unfold collect_scenario_data.
  apply (for_each_raises scenario_step results result (∅, []) Hr).
  intros st. apply (scenario_step_raises st result bl b Hbl Hb Hmiss).
Qed.

Lemma getitem_Ok (d : gmap string value) (k : string) (v : value) :
  getitem d k = Ok v -> d !! k = Some v.
Proof. unfold getitem. destruct (d !! k); [intros [= ->]; reflexivity|discriminate]. Qed.

Lemma baseline_record_Ok (test_name : string) (baseline : baseline_result)
    (record : gmap string value) :
  baseline_record test_name baseline = Ok record -> complete_baseline baseline.
Proof.
  unfold baseline_record. intros E.
  destruct (getitem _ "rawCost") as [c|] eqn:E1; [|discriminate]. simpl in E.
  destruct (getitem _ "rawBalance") as [b|] eqn:E2; [|discriminate]. simpl in E.
  destruct (getitem _ "disruption") as [r|] eqn:E3; [|discriminate]. simpl in E.
  destruct (getitem _ "weightedScore") as [w|] eqn:E4; [|discriminate]. simpl in E.
  destruct (getitem _ "movements") as [m|] eqn:E5; [|discriminate]. simpl in E.
  destruct (getitem _ "feasible") as [f|] eqn:E6; [|discriminate]. simpl in E.
  destruct (getitem _ "executionTimeMs") as [t|] eqn:E7; [|discriminate].
  apply getitem_Ok in E1, E2, E3, E4, E5, E6, E7.
  intros k Hk. unfold baseline_keys in Hk. elem_cases Hk; eauto.
Qed.

Lemma for_each_append_Ok {A B : Type} (f : A -> exc B) (l : list A) (acc res : list B) :
  for_each (fun acc x => r ← f x; mret (acc ++ [r])) l acc = Ok res ->
  exists rs, Forall2 (fun x r => f x = Ok r) l rs /\ res = acc ++ rs.
Proof.
  revert acc. induction l as [|x l IH]; intros acc E; simpl in E.
  - injection E as <-. exists []. split; [constructor|]. rewrite app_nil_r. reflexivity.
  - destruct (f x) as [r|] eqn:Hx; simpl in E; [|discriminate].
    destruct (IH _ E) as (rs & F & ->).
    exists (r :: rs). split; [constructor; assumption|].
    rewrite <- app_assoc. reflexivity.
Qed.

Lemma comparison_step_Ok_complete (algorithm_data records : list (gmap string value))
    (result : result) :
  comparison_step algorithm_data result = Ok records ->
  Forall complete_baseline (default [] (baselineResults result)).
Proof.
  intros E. unfold comparison_step in E.
  apply for_each_append_Ok in E as (rs & F & _).
  apply Forall_forall. intros b Hb.
  apply list_elem_of_lookup in Hb as [i Hi].
  destruct (Forall2_lookup_l _ _ _ _ _ F Hi) as (r & _ & Hr).
  apply (baseline_record_Ok _ _ _ Hr).
Qed.

Lemma Forall2_Ok_functional {A B : Type} (f : A -> exc B) (l : list A) (rs rs' : list B) :
  Forall2 (fun x r => f x = Ok r) l rs ->
  Forall2 (fun x r => f x = Ok r) l rs' ->
  rs = rs'.
Proof.
  intros F. revert rs'. induction F as [|x r l rs Hx _ IH]; intros rs' F'.
  - inversion F'. reflexivity.
  - inversion F' as [|x' r' l' rs'' Hx' F'']; subst.
    rewrite Hx in Hx'. injection Hx' as <-. f_equal. apply IH, F''.
Qed.

(** ** The records of several results *)

Lemma comparison_step_from (acc : list (gmap string value)) (result : result)
    (l : list (gmap string value)) :
  comparison_step [] result = Ok l -> comparison_step acc result = Ok (acc ++ l).
Proof.
  intros E.
  pose proof (comparison_step_Ok_complete _ _ _ E) as Hc.
  destruct (comparison_step_shape [] result Hc) as (rs & F & E0).
  destruct (comparison_step_shape acc result Hc) as (rs' & F' & E1).
  pose proof (Forall2_Ok_functional _ _ _ _ F' F) as Heq.
  subst rs'. rewrite E0 in E. injection E as <-. rewrite E1. reflexivity.
Qed.

Lemma for_each_comparison (results : list result) (per_run : list (list (gmap string value)))
    (acc : list (gmap string value)) :
  Forall2 (fun r l => comparison_step [] r = Ok l) results per_run ->
  for_each comparison_step results acc = Ok (acc ++ concat per_run).
Proof.
  intros F. revert acc. induction F as [|r l results per_run Hr _ IH]; intros acc; simpl.
  - rewrite app_nil_r. reflexivity.
  - rewrite (comparison_step_from acc r l Hr). simpl.
    rewrite IH, <- app_assoc. reflexivity.
Qed.

(** X10. When every result on its own yields its records, the loop over all
    results yields their concatenation: the records of one result stay
    together, in the order of the results. *)
Theorem algorithm_data_concatenates (results : list result)
    (per_run : list (list (gmap string value))) :
  Forall2 (fun r l => comparison_step [] r = Ok l) results per_run ->
  collect_algorithm_data results = Ok (concat per_run).
Proof. intros F. apply (for_each_comparison results per_run [] F). Qed.

(** ** The two groupings by node count *)

Lemma last_cons_default {A : Type} (l : list A) (x d : A) :
  List.last (x :: l) d = List.last l x.
Proof.
  revert x d. induction l as [|y l IH]; intros x d; [reflexivity|].
  change (List.last (x :: y :: l) d) with (List.last (y :: l) d).
  rewrite (IH y d), (IH y x). reflexivity.
Qed.

Lemma last_elem {A : Type} (l : list A) (x : A) : List.last l x ∈ x :: l.
Proof.
  revert x. induction l as [|y l IH]; intros x; [left|].
  right. rewrite last_cons_default. apply IH.
Qed.

Lemma first_minimum_le_last (f : round_data -> Q) (r : round_data) (rs : list round_data)
    (c : Q) (j : nat) :
  first_minimum f (r :: rs) c j -> c <= f (List.last rs r).
Proof.
  intros (_ & _ & Hmin & _). apply Hmin, last_elem.
Qed.

Lemma style_scenario_step_overwrites (sd sd' : gmap nat scenario) (result : result)
    (r : round_data) (rs : list round_data) :
  rounds result = Some (r :: rs) ->
  style_scenario_step sd result = Ok sd' ->
  exists sc, sd' !! node_count result = Some sc
             /\ nsga_ii sc = final_entry (r :: rs) (List.last rs r).
Proof.
  intros Hr. unfold style_scenario_step, node_count. rewrite Hr.
  set (n0 := length (nodes (testCase result))).
  set (sd1 := match sd !! n0 with
              | Some _ => sd
              | None => <[n0 := {| nsga_ii := ∅; baselines := ∅ |}]> sd
              end).
  assert (H1 : is_Some (sd1 !! n0)).
  { subst sd1. destruct (sd !! n0) eqn:E0; [rewrite E0; eauto|].
    rewrite lookup_insert_eq. eauto. }
  destruct H1 as [sc1 Hsc1]. clearbody sd1.
  destruct (baselineResults result) as [bl|].
  - rewrite lookup_alter_eq, Hsc1. simpl.
    destruct (for_each style_baseline_step bl (baselines sc1)) as [bs|]; simpl;
      [|discriminate].
    intros E. injection E as <-.
    rewrite !lookup_alter_eq, Hsc1. simpl. eexists. split; reflexivity.
  - simpl. intros E. injection E as <-.
    rewrite lookup_alter_eq, Hsc1. simpl. eexists. split; reflexivity.
Qed.

(** X11. For a result that has rounds, both groupings store a cost, a
    balance and a disruption for the proposed algorithm under the node count
    of the result: the one of the bar chart stores the least value over all
    rounds, the one of the line chart the value of the last round, so the
    former is never above the latter. *)
Theorem bar_values_at_most_line_values (st st' : grouping) (sd sd' : gmap nat scenario)
    (result : result) (r : round_data) (rs : list round_data) :
  rounds result = Some (r :: rs) ->
  scenario_step st result = Ok st' ->
  style_scenario_step sd result = Ok sd' ->
  exists (bar line : scenario) (c l d : Q),
    st'.1 !! node_count result = Some bar
    /\ sd' !! node_count result = Some line
    /\ nsga_ii bar !! "cost" = Some (VNum (Fin c))
    /\ nsga_ii line !! "cost" = Some (VNum (Fin (round_cost (List.last rs r))))
    /\ c <= round_cost (List.last rs r)
    /\ nsga_ii bar !! "balance" = Some (VNum (Fin l))
    /\ nsga_ii line !! "balance" = Some (VNum (Fin (round_balance (List.last rs r))))
    /\ l <= round_balance (List.last rs r)
    /\ nsga_ii bar !! "disruption" = Some (VNum (Fin d))
    /\ nsga_ii line !! "disruption" = Some (VNum (Fin (round_disruption (List.last rs r))))
    /\ d <= round_disruption (List.last rs r).
Proof.
  intros Hr E E'.
  destruct (scenario_step_overwrites st st' result r rs Hr E) as ((bar & Hbar & Hn) & _).
  destruct (style_scenario_step_overwrites sd sd' result r rs Hr E') as (line & Hline & Hn').
  destruct (best_over_rounds_minima r rs) as (c & l & d & Hc & Mc & Hl & Ml & Hd & Md).
  exists bar, line, c, l, d.
  rewrite Hn, Hn'. unfold nsga_entry. rewrite Hc, Hl, Hd.
  split; [exact Hbar|]. split; [exact Hline|].
  split; [reflexivity|]. split; [reflexivity|].
  split; [apply (first_minimum_le_last _ _ _ _ _ Mc)|].
  split; [reflexivity|]. split; [reflexivity|].
  split; [apply (first_minimum_le_last _ _ _ _ _ Ml)|].
  split; [reflexivity|]. split; [reflexivity|].
  apply (first_minimum_le_last _ _ _ _ _ Md).
Qed.

(** X12. For one baseline, the entry of the line chart is returned exactly
    when the entry of the bar chart is returned and the baseline has a
    disruption; the two entries then hold the same cost, balance and
    execution time, and differ in the disruption only, which is the one of
    the baseline in the former and the number 0 in the latter. *)
Theorem baseline_entries_compared (baseline : baseline_result) :
  ((exists e', style_baseline_entry baseline = Ok e')
   <-> (exists e, baseline_entry baseline = Ok e)
       /\ is_Some (baseline_fields baseline !! "disruption"))
  /\ (forall e e', baseline_entry baseline = Ok e ->
                   style_baseline_entry baseline = Ok e' ->
        exists d, baseline_fields baseline !! "disruption" = Some d
                  /\ e' = <["disruption" := d]> e
                  /\ e !! "disruption" = Some (VNum (Fin 0))).
Proof.
  unfold style_baseline_entry, baseline_entry, getitem.
  destruct (baseline_fields baseline !! "rawCost") as [c|]; simpl;
    [|split; [split; [intros [? ?]|intros [[? ?] _]]|intros ? ? ?]; discriminate].
  destruct (baseline_fields baseline !! "rawBalance") as [b|]; simpl;
    [|split; [split; [intros [? ?]|intros [[? ?] _]]|intros ? ? ?]; discriminate].
  destruct (baseline_fields baseline !! "disruption") as [d|]; simpl.
  - destruct (truediv _ 1000) as [t|]; simpl.
    + split.
      * split; [intros _; split; eauto|intros _; eauto].
      * intros e e' [= <-] [= <-]. exists d. repeat split; reflexivity.
    + split; [split; [intros [? ?]|intros [[? ?] _]]|intros ? ? ?]; discriminate.
  - split.
    + split; [intros [? ?]; discriminate|intros [_ [? ?]]; discriminate].
    + intros e e' _ ?. discriminate.
Qed.

(** ** The round a plot of one round draws *)

(** X13. For a round number that is not [None], the plots of one round draw
    the round of that number when it lies between 1 and the number of
    rounds; for a number from 0 down to one minus the number of rounds they
    draw a round counted from the end, the last round for 0, without any
    error; and for every other number the indexing fails. *)
Theorem selected_round_cases (rs : list round_data) (round_num : Z) :
  ((1 <= round_num <= Z.of_nat (length rs))%Z ->
   selected_round rs round_num = rs !! Z.to_nat (round_num - 1))
  /\ ((- Z.of_nat (length rs) < round_num <= 0)%Z ->
      selected_round rs round_num
      = rs !! Z.to_nat (Z.of_nat (length rs) + round_num - 1)
      /\ is_Some (selected_round rs round_num))
  /\ (round_num = 0%Z -> selected_round rs round_num = last rs)
  /\ ((Z.of_nat (length rs) < round_num \/ round_num <= - Z.of_nat (length rs))%Z ->
      selected_round rs round_num = None).
Proof.
  unfold selected_round, py_getitem. repeat split.
  - intros Hn. rewrite decide_True by lia. reflexivity.
  - rewrite decide_False by lia. rewrite decide_True by lia. f_equal. lia.
  - rewrite decide_False by lia. rewrite decide_True by lia.
    apply lookup_lt_is_Some. lia.
  - intros ->. rewrite decide_False by lia.
    destruct rs as [|r rs]; [reflexivity|].
    rewrite last_lookup. cbn [length].
    rewrite decide_True by lia. f_equal. lia.
  - intros [Hn|Hn].
    + rewrite decide_True by lia. apply lookup_ge_None. lia.
    + rewrite decide_False by lia. destruct (decide _); [|reflexivity].
      apply lookup_ge_None. lia.
Qed.

(** ** The file arguments of the analyzer *)

Section AnalyzerMainFacts.
Variable glob : string -> list string.

Lemma expand_patterns_from (files acc : list string) :
  fold_left (fun json_files pattern =>
               match glob pattern with
               | [] => json_files ++ [pattern]
               | _ :: _ => json_files ++ glob pattern
               end) files acc
  = acc ++ flat_map (fun p => match glob p with [] => [p] | _ :: _ => glob p end) files.
Proof.
  revert acc. induction files as [|p files IH]; intros acc; simpl.
  - rewrite app_nil_r. reflexivity.
  - rewrite IH. destruct (glob p); rewrite <- app_assoc; reflexivity.
Qed.

(** X14. The list of files the analyzer builds from its arguments has at
    least as many entries as there are arguments, so it is empty only when
    there is no argument; an argument that matches no file is kept as it is,
    and every entry is a match of an argument or such an argument. *)
Theorem expand_patterns_covers (files : list string) :
  (length files <= length (expand_patterns glob files))%nat
  /\ (forall f, f ∈ expand_patterns glob files <->
        exists p, p ∈ files /\ (f ∈ glob p \/ (glob p = [] /\ f = p))).
Proof.
  unfold expand_patterns. rewrite expand_patterns_from. simpl. split.
  - induction files as [|p files IH]; simpl; [lia|].
    rewrite length_app. destruct (glob p); simpl; lia.
  - intros f. rewrite list_elem_of_In, in_flat_map. split.
    + intros (p & Hp & Hf). exists p. split; [apply list_elem_of_In, Hp|].
      destruct (glob p) eqn:E.
      * right. destruct Hf as [<-|[]]. split; reflexivity.
      * left. apply list_elem_of_In, Hf.
    + intros (p & Hp & Hf). exists p. split; [apply list_elem_of_In, Hp|].
      destruct Hf as [Hf|[E ->]].
      * destruct (glob p) eqn:E; [inversion Hf|apply list_elem_of_In, Hf].
      * rewrite E. left. reflexivity.
Qed.

End AnalyzerMainFacts.

(** * Further properties of the plots *)

(** ** The streaks of rounds without movement *)

Lemma zero_run_prefix (p : list Q) (x : Q) (first len : nat) :
  (first + len <= length p)%nat ->
  zero_run (p ++ [x]) first len <-> zero_run p first len.
Proof.
  intros Hb. unfold zero_run.
  assert (Hbd : (first = 0%nat \/ exists y, (p ++ [x]) !! (first - 1)%nat = Some y /\ ~ y == 0)
                <-> (first = 0%nat \/ exists y, p !! (first - 1)%nat = Some y /\ ~ y == 0)).
  { destruct (decide (first = 0%nat)) as [->|Hne]; [tauto|].
    rewrite lookup_app_l by lia. reflexivity. }
  rewrite Hbd. split; intros [Hz Hd]; (split; [|exact Hd]); intros i Hi;
    destruct (Hz i Hi) as (y & Hy & Hy0); exists y.
  - rewrite lookup_app_l in Hy by lia. eauto.
  - rewrite lookup_app_l by lia. eauto.
Qed.

Lemma zero_run_unique (p : list Q) (n c c' : nat) :
  (c <= n)%nat -> (c' <= n)%nat ->
  zero_run p (n - c) c -> zero_run p (n - c') c' -> c = c'.
Proof.
  assert (Hlt : forall a b, (a <= n)%nat -> (b <= n)%nat -> (a < b)%nat ->
                  zero_run p (n - a) a -> zero_run p (n - b) b -> False).
  { intros a b Ha Hb Hab [_ Hbd] [Hz _].
    destruct Hbd as [?|(y & Hy & Hy0)]; [lia|].
    destruct (Hz (n - a - 1)%nat ltac:(lia)) as (y' & Hy' & Hy0').
    rewrite Hy in Hy'. injection Hy' as <-. contradiction. }
  intros Hc Hc' R R'.
  destruct (Nat.lt_trichotomy c c') as [?|[?|?]]; [exfalso; eauto|assumption|exfalso; eauto].
Qed.

Lemma streak_before_snoc (p : list Q) (x : Q) (j c : nat) :
  streak_before (p ++ [x]) j c
  <-> streak_before p j c
      \/ (j = length p /\ ~ x == 0 /\ (3 <= c <= j)%nat /\ zero_run p (j - c) c).
Proof.
  unfold streak_before. split.
  - intros (Hc & Hr & y & Hy & Hy0).
    assert (Hj : (j < length (p ++ [x]))%nat) by (eapply lookup_lt_Some; exact Hy).
    rewrite length_app in Hj. simpl in Hj.
    apply zero_run_prefix in Hr; [|lia].
    destruct (decide (j = length p)) as [->|Hne].
    + right. rewrite list_lookup_middle in Hy by reflexivity. injection Hy as ->. tauto.
    + left. rewrite lookup_app_l in Hy by lia. eauto.
  - intros [(Hc & Hr & y & Hy & Hy0)|(-> & Hx & Hc & Hr)].
    + pose proof (lookup_lt_Some _ _ _ Hy) as Hj.
      split; [exact Hc|]. split; [apply zero_run_prefix; [lia|exact Hr]|].
      exists y. rewrite lookup_app_l by lia. eauto.
    + split; [exact Hc|]. split; [apply zero_run_prefix; [lia|exact Hr]|].
      exists x. rewrite list_lookup_middle by reflexivity. eauto.
Qed.

(** What the loop holds after the rounds [p]. *)
Lemma streak_loop_invariant (p : list Q) :
  let st := fold_left streak_step (enumerate p) ([], 0%Z) in
  (exists c : nat, st.2 = Z.of_nat c /\ (c <= length p)%nat
                   /\ zero_run p (length p - c) c)
  /\ (forall s e, (s, e) ∈ st.1 <->
        exists j c, streak_before p j c
                    /\ s = Z.of_nat (j - c + 1) /\ e = Z.of_nat j)
  /\ Forall (fun se => (se.2 < Z.of_nat (length p))%Z) st.1
  /\ StronglySorted (fun a b => (a.2 < b.2)%Z) st.1.
Proof.
  induction p as [|x p IH] using rev_ind.
  - simpl. split.
    { exists 0%nat. split; [reflexivity|]. split; [lia|].
      split; [intros i Hi; lia|left; reflexivity]. }
    split; [|split; constructor].
    intros s e. split; [intros Hin; inversion Hin|].
    intros (j & c & (Hc & _ & y & Hy & _) & _). discriminate.
  - rewrite enumerate_snoc, fold_left_app. simpl.
    destruct (fold_left streak_step (enumerate p) ([], 0%Z)) as [zs cs].
    simpl in IH. destruct IH as ((c & -> & Hcl & Hrun) & Hmem & Hlt & Hsorted).
    rewrite length_app. simpl length.
    unfold streak_step. destruct (Qeq_dec x 0) as [Hx|Hx]; simpl.
    + split.
      { exists (S c). split; [lia|]. split; [lia|].
        replace (length p + 1 - S c)%nat with (length p - c)%nat by lia.
        destruct Hrun as [Hz Hbd]. split.
        - intros i Hi. destruct (decide (i = length p)) as [->|Hne].
          + exists x. rewrite list_lookup_middle by reflexivity. eauto.
          + destruct (Hz i ltac:(lia)) as (y & Hy & Hy0). exists y.
            rewrite lookup_app_l by lia. eauto.
        - destruct Hbd as [?|(y & Hy & Hy0)]; [left; assumption|right].
          exists y. rewrite lookup_app_l by (apply lookup_lt_Some in Hy; lia). eauto. }
      split.
      { intros s e. rewrite Hmem. split; intros (j & c' & Hs & Hse); exists j, c';
          (split; [|exact Hse]).
        - apply streak_before_snoc. left. exact Hs.
        - apply streak_before_snoc in Hs. destruct Hs as [?|(_ & ? & _)]; [assumption|].
          contradiction. }
      split; [|exact Hsorted].
      eapply Forall_impl; [exact Hlt|]. intros [s e] He. simpl in *. lia.
    + split.
      { exists 0%nat. split; [reflexivity|]. split; [lia|].
        split; [intros i Hi; lia|]. right. exists x.
        replace (length p + 1 - 0 - 1)%nat with (length p) by lia.
        rewrite list_lookup_middle by reflexivity. eauto. }
      assert (Hnew : forall s e,
                (exists j c', streak_before (p ++ [x]) j c'
                              /\ s = Z.of_nat (j - c' + 1) /\ e = Z.of_nat j)
                <-> (s, e) ∈ zs
                    \/ ((3 <= c)%nat /\ s = Z.of_nat (length p - c + 1)
                        /\ e = Z.of_nat (length p))).
      { intros s e. rewrite Hmem. split.
        - intros (j & c' & Hs & Hse). apply streak_before_snoc in Hs.
          destruct Hs as [Hs|(-> & _ & Hc' & Hr)]; [left; eauto|right].
          assert (c' = c) as -> by (eapply zero_run_unique; [| |exact Hr|exact Hrun]; lia).
          split; [lia|exact Hse].
        - intros [(j & c' & Hs & Hse)|(Hc & -> & ->)].
          + exists j, c'. split; [apply streak_before_snoc; left; exact Hs|exact Hse].
          + exists (length p), c. split; [|split; reflexivity].
            apply streak_before_snoc. right. repeat split; try lia; try assumption;
              apply Hrun. }
      destruct (decide (3 <= Z.of_nat c)%Z) as [Hc|Hc].
      * split.
        { intros s e. rewrite Hnew, elem_of_app, list_elem_of_singleton.
          split; (intros [?|Hr]; [left; assumption|right]).
          - injection Hr as -> ->. split; [lia|]. split; lia.
          - destruct Hr as (_ & -> & ->). f_equal. lia. }
        split.
        { apply Forall_app. split.
          - eapply Forall_impl; [exact Hlt|]. intros [s e] He. simpl in *. lia.
          - constructor; [simpl; lia|constructor]. }
        clear -Hlt Hsorted. induction Hsorted as [|a l Hs IHs Ha]; simpl.
        { constructor; constructor. }
        apply Forall_cons in Hlt. destruct Hlt as [Hla Hll].
        constructor; [apply IHs, Hll|].
        apply Forall_app. split; [exact Ha|]. constructor; [simpl; lia|constructor].
      * split.
        { intros s e. rewrite Hnew. split; [tauto|]. intros [?|(? & _)]; [assumption|lia]. }
        split; [|exact Hsorted].
        eapply Forall_impl; [exact Hlt|]. intros [s e] He. simpl in *. lia.
Qed.

Lemma streak_fold_zeros (l : list (nat * Q)) (st : list (Z * Z) * Z) :
  Forall (fun jm => jm.2 == 0) l -> (fold_left streak_step l st).1 = st.1.
Proof.
  revert st. induction l as [|[j x] l IH]; intros st Hl; [reflexivity|].
  apply Forall_cons in Hl. destruct Hl as [Hx Hl]. simpl in Hx.
  simpl. rewrite (IH _ Hl). destruct st as [zs cs]. simpl.
  destruct (Qeq_dec x 0); [reflexivity|contradiction].
Qed.

Lemma imap_zero_moves (f : nat -> nat) (l : list Q) :
  Forall (fun x => x == 0) l ->
  Forall (fun jm : nat * Q => jm.2 == 0) (imap (fun i x => (f i, x)) l).
Proof.
  intros Hz. revert f. induction Hz as [|x l Hx _ IH]; intros f; [constructor|].
  rewrite imap_cons. constructor; [exact Hx|]. apply (IH (f ∘ S)).
Qed.

(** X15. The loop over the feasible movements records one pair for every
    round [j] that holds some movement and ends a run of [c] rounds without,
    for [c] at least 3, and nothing else; the pair is [(j - c + 1, j)], so
    its first component is the index of the second round of the run.  The
    pairs are recorded in the order of their rounds, and the dashed line,
    when there is one, stands at the round numbered [j - c + 2] of such a
    pair. *)
Theorem zero_streaks_recorded (feasible_movements : list Q) :
  (forall s e, (s, e) ∈ zero_streaks feasible_movements <->
     exists j c, streak_before feasible_movements j c
                 /\ s = Z.of_nat (j - c + 1) /\ e = Z.of_nat j)
  /\ StronglySorted (fun a b => (a.2 < b.2)%Z) (zero_streaks feasible_movements)
  /\ (forall n, conv_start feasible_movements = Some n ->
        exists j c, streak_before feasible_movements j c /\ n = Z.of_nat (j - c + 2)).
Proof.
  destruct (streak_loop_invariant feasible_movements) as (_ & Hmem & _ & Hs).
  split; [exact Hmem|]. split; [exact Hs|].
  intros n. unfold conv_start.
  destruct (last (zero_streaks feasible_movements)) as [[s e]|] eqn:El; [|discriminate].
  intros [= <-]. apply last_Some in El. destruct El as [l' El].
  destruct (Hmem s e) as [Hin _].
  destruct Hin as (j & c & Hsb & -> & _).
  { unfold zero_streaks in El |- *. rewrite El. apply elem_of_app. right. left. }
  exists j, c. split; [exact Hsb|]. simpl. lia.
Qed.

(** X16. Rounds without movement at the end of the list record nothing:
    the pairs, and the dashed line, are those of the list without these
    rounds, and a list that holds no movement at all gets no line. *)
Theorem zero_streaks_trailing_zeros (feasible_movements zeros : list Q) :
  Forall (fun x => x == 0) zeros ->
  zero_streaks (feasible_movements ++ zeros) = zero_streaks feasible_movements
  /\ conv_start (feasible_movements ++ zeros) = conv_start feasible_movements
  /\ conv_start zeros = None.
Proof.
  intros Hz.
  assert (Hgen : forall fm, zero_streaks (fm ++ zeros) = zero_streaks fm).
  { intros fm. unfold zero_streaks, enumerate. rewrite imap_app, fold_left_app.
    apply streak_fold_zeros.
    apply (imap_zero_moves (fun n => (length fm + n)%nat)), Hz. }
  split; [apply Hgen|]. split.
  - unfold conv_start. rewrite Hgen. reflexivity.
  - unfold conv_start. rewrite <- (app_nil_l zeros), Hgen. reflexivity.
Qed.

(** ** The panels of the quality plot *)

Lemma filter_zip_snd {A : Type} (P : Q -> bool) (xs : list A) (ss : list Q) :
  length xs = length ss ->
  map snd (List.filter (fun p : A * Q => P p.2) (zip xs ss)) = List.filter P ss.
Proof.
  revert ss. induction xs as [|x xs IH]; intros [|s ss] Hl; try discriminate; [reflexivity|].
  simpl in *. destruct (P s); simpl; rewrite IH by lia; reflexivity.
Qed.

Lemma filter_zip_diag (P : Q -> bool) (ss : list Q) :
  map fst (List.filter (fun p : Q * Q => P p.2) (zip ss ss)) = List.filter P ss.
Proof.
  induction ss as [|s ss IH]; [reflexivity|].
  simpl. destruct (P s); simpl; rewrite IH; reflexivity.
Qed.

Lemma take_indices_filter {A : Type} (P : Q -> bool) (pre xs : list A) (ss : list Q) :
  length xs = length ss ->
  take_indices (pre ++ xs)
    (map fst (List.filter (fun js : nat * Q => P js.2)
                          (imap (fun i s => ((length pre + i)%nat, s)) ss)))
  = Some (map fst (List.filter (fun p : A * Q => P p.2) (zip xs ss))).
Proof.
  revert pre xs. induction ss as [|s ss IH]; intros pre [|x xs] Hl; try discriminate;
    [reflexivity|].
  rewrite enumerate_from_cons. simpl in Hl.
  assert (Hrest : take_indices (pre ++ x :: xs)
                    (map fst (List.filter (fun js : nat * Q => P js.2)
                       (imap (fun i s => (S (length pre + i), s)) ss)))
                  = Some (map fst (List.filter (fun p : A * Q => P p.2) (zip xs ss)))).
  { specialize (IH (pre ++ [x]) xs ltac:(lia)).
    rewrite <- app_assoc, length_app in IH. simpl in IH.
    rewrite <- IH. f_equal. f_equal. f_equal.
    apply imap_ext. intros i y _. simpl. f_equal. lia. }
  simpl. destruct (P s); simpl; [|exact Hrest].
  unfold take_indices in *. cbn [mapM].
  rewrite list_lookup_middle by reflexivity. simpl.
  rewrite Hrest. reflexivity.
Qed.

Lemma below_cap_spec (s : Q) : below_cap s = true <-> s < 100.
Proof.
  unfold below_cap. simpl. rewrite bool_decide_eq_true. reflexivity.
Qed.

Section QualityPanels.
Context `{RandomState}.
Variable argsort : list Q -> list nat.

(** X17. For the metrics of a run, the lists of the scatter panel, read
    through [valid_indices], never index out of range: the rounds and the
    sparsities are the lists of the diversity panel, the hypervolumes are as
    many, and the two lists of the diversity panel have the same length. *)
Theorem scatter_lists (g : rng) (data : result) (m : metrics) (g' : rng) :
  calculate_metrics_over_time argsort g data = Ok (m, g') ->
  scatter_rounds m = Some (finite_rounds m)
  /\ scatter_sparsity m = Some (finite_sparsity m)
  /\ (exists hs, scatter_hypervolume m = Some hs
                 /\ length hs = length (finite_rounds m))
  /\ length (finite_sparsity m) = length (finite_rounds m).
Proof.
  intros E.
  destruct (rounds data) as [rs|] eqn:Hrs;
    [|unfold calculate_metrics_over_time in E; rewrite Hrs in E; discriminate].
  rewrite (metrics_of_run argsort g data rs m g' Hrs E).
  unfold scatter_rounds, scatter_sparsity, scatter_hypervolume, finite_rounds,
    finite_sparsity, valid_indices, enumerate. simpl.
  set (ss := map (fun r => cap_sparsity (calculate_sparsity argsort (paretoFront r))) rs).
  set (hv := map _ rs).
  assert (Hss : length ss = length rs) by (subst ss; apply length_map).
  assert (Hhv : length hv = length rs) by (subst hv; apply length_map).
  assert (Hlen : forall (A : Type) (xs : list A), length xs = length ss ->
            length (map fst (List.filter (fun p : A * Q => below_cap p.2) (zip xs ss)))
            = length (List.filter below_cap ss)).
  { intros A xs Hx. rewrite <- (filter_zip_snd below_cap xs ss Hx), !length_map.
    reflexivity. }
  split; [|split; [|split]].
  - apply (take_indices_filter below_cap [] (seq 1 (length rs)) ss).
    rewrite length_seq. lia.
  - etrans; [apply (take_indices_filter below_cap [] ss ss eq_refl)|]. f_equal.
    apply filter_zip_diag.
  - eexists. split; [apply (take_indices_filter below_cap [] hv ss); lia|].
    rewrite !Hlen; [reflexivity|rewrite length_seq; lia|lia].
  - rewrite Hlen; [reflexivity|rewrite length_seq; lia].
Qed.

Hypothesis argsort_perm : forall col : list Q, argsort col ≡ₚ seq 0 (length col).
Hypothesis argsort_ascending : forall col : list Q, ascending col (argsort col).

Lemma below_cap_sparsity (pareto_front : list solution) :
  below_cap (cap_sparsity (calculate_sparsity argsort pareto_front)) = true
  <-> exists q, calculate_sparsity argsort pareto_front = Fin q.
Proof.
  rewrite below_cap_spec.
  destruct (calculate_sparsity argsort pareto_front) as [q|] eqn:E; simpl.
  - split; [eauto|]. intros _.
    destruct (sparsity_between argsort argsort_perm argsort_ascending pareto_front q E).
    lra.
  - split; [intros Hlt; exfalso; revert Hlt; apply Qlt_irrefl|intros [q Hq]; discriminate].
Qed.

(** X18. For a sort that returns the indices in ascending order of their
    keys, the diversity panel shows exactly the rounds whose sparsity is
    finite, numbered from 1, and every value it shows lies between 0 and 3:
    the test against 100 only removes the rounds recorded with the cap. *)
Theorem diversity_panel_rounds (g : rng) (data : result) (rs : list round_data)
    (m : metrics) (g' : rng) :
  rounds data = Some rs ->
  calculate_metrics_over_time argsort g data = Ok (m, g') ->
  (forall n, n ∈ finite_rounds m <->
     exists r q, (1 <= n)%nat /\ rs !! (n - 1)%nat = Some r
                 /\ calculate_sparsity argsort (paretoFront r) = Fin q)
  /\ Forall (fun s => 0 <= s /\ s <= 3) (finite_sparsity m).
Proof.
  intros Hrs E. rewrite (metrics_of_run argsort g data rs m g' Hrs E).
  unfold finite_rounds, finite_sparsity. simpl. split.
  - intros n. rewrite list_elem_of_In, in_map_iff. split.
    + intros ([n' s] & <- & Hin). apply filter_In in Hin. destruct Hin as [Hin Hb].
      simpl in *. apply list_elem_of_In, elem_of_lookup_zip_with in Hin.
      destruct Hin as (i & a & b & [= <- <-] & Ha & Hb').
      apply lookup_seq in Ha. destruct Ha as [-> Hi].
      rewrite list_lookup_fmap in Hb'.
      destruct (rs !! i) as [r|] eqn:Hr; [|discriminate]. injection Hb' as <-.
      apply below_cap_sparsity in Hb. destruct Hb as [q Hq].
      exists r, q. split; [lia|]. split; [|exact Hq].
      replace (1 + i - 1)%nat with i by lia. exact Hr.
    + intros (r & q & Hn & Hr & Hq).
      exists (n, cap_sparsity (calculate_sparsity argsort (paretoFront r))).
      split; [reflexivity|]. apply filter_In. split.
      * apply list_elem_of_In, elem_of_lookup_zip_with.
        exists (n - 1)%nat, n, (cap_sparsity (calculate_sparsity argsort (paretoFront r))).
        split; [reflexivity|]. split.
        -- apply lookup_seq. split; [lia|]. apply lookup_lt_Some in Hr. exact Hr.
        -- rewrite list_lookup_fmap, Hr. reflexivity.
      * simpl. apply below_cap_sparsity. eauto.
  - apply Forall_forall. intros s Hs. apply list_elem_of_In, filter_In in Hs.
    destruct Hs as [Hin Hb]. apply in_map_iff in Hin. destruct Hin as (r & <- & _).
    apply below_cap_sparsity in Hb. destruct Hb as [q Hq]. rewrite Hq. simpl.
    apply (sparsity_between argsort argsort_perm argsort_ascending _ q Hq).
Qed.

End QualityPanels.

(** ** The trend of the movements *)

(** X19. For more than three rounds the window has three entries; the two
    trends have two entries less than there are rounds, as many as the
    rounds they are drawn against, and entry [k] is the mean of the
    movements of the rounds numbered [k + 1], [k + 2] and [k + 3], drawn at
    round [k + 3]. *)
Theorem moving_average_trend (movements : list Q) :
  (3 < length movements)%nat ->
  length (moving_avg movements) = (length movements - 2)%nat
  /\ length (moving_avg_rounds (seq 1 (length movements)) movements)
     = length (moving_avg movements)
  /\ forall k, (k + 2 < length movements)%nat ->
       moving_avg_rounds (seq 1 (length movements)) movements !! k = Some (k + 3)%nat
       /\ exists q, moving_avg movements !! k = Some q
                    /\ q == (item movements k + item movements (k + 1)
                             + item movements (k + 2)) / 3.
Proof.
  intros Hn. unfold moving_avg, moving_avg_rounds, window, window_size, convolve_valid.
  rewrite length_replicate.
  replace (Nat.min 3 (length movements)) with 3%nat by lia.
  split; [rewrite length_map, length_seq; lia|].
  split; [rewrite length_drop, length_map, !length_seq; lia|].
  intros k Hk. split.
  - rewrite lookup_drop. apply lookup_seq. split; lia.
  - rewrite list_lookup_fmap.
    assert (Hs : seq 0 (length movements - 3 + 1) !! k = Some k)
      by (apply lookup_seq; split; lia).
    rewrite Hs. simpl. eexists. split; [reflexivity|].
    unfold item at 2 4 6. simpl.
    replace (k + 2 - 0)%nat with (k + 2)%nat by lia.
    replace (k + 2 - 1)%nat with (k + 1)%nat by lia.
    replace (k + 2 - 2)%nat with k by lia.
    field.
Qed.

(** ** The file arguments of the comparison of weight configurations *)

Lemma unique_fold (l u : list string) (seen : gset string) :
  (forall f, f ∈ seen <-> f ∈ u) -> NoDup u ->
  let r := (fold_left unique_step l (u, seen)).1 in
  NoDup r /\ (forall f, f ∈ r <-> f ∈ u \/ f ∈ l)
  /\ exists k, r = u ++ k /\ sublist k l.
Proof.
  revert u seen. induction l as [|x l IH]; intros u seen Hseen Hu; simpl.
  - split; [exact Hu|]. split.
    + intros f. split; [tauto|]. intros [?|Hin]; [assumption|inversion Hin].
    + exists []. rewrite app_nil_r. split; [reflexivity|constructor].
  - destruct (decide (x ∈ seen)) as [Hx|Hx].
    + destruct (IH u seen Hseen Hu) as (Hn & Hm & k & Hk & Hsub).
      split; [exact Hn|]. split.
      * intros f. rewrite Hm, elem_of_cons. split; [tauto|].
        intros [?|[->|?]]; [tauto| |tauto]. left. apply Hseen, Hx.
      * exists k. split; [exact Hk|]. apply sublist_cons, Hsub.
    + destruct (IH (u ++ [x]) (seen ∪ {[x]})) as (Hn & Hm & k & Hk & Hsub).
      * intros f. rewrite elem_of_union, elem_of_singleton, elem_of_app,
          list_elem_of_singleton, Hseen. reflexivity.
      * apply NoDup_app. split; [exact Hu|]. split; [|apply NoDup_singleton].
        intros f Hf Hfx. apply list_elem_of_singleton in Hfx. subst f.
        apply Hx, Hseen, Hf.
      * split; [exact Hn|]. split.
        -- intros f. rewrite Hm, elem_of_app, list_elem_of_singleton, elem_of_cons. tauto.
        -- exists (x :: k). rewrite Hk, <- app_assoc. split; [reflexivity|].
           apply sublist_skip, Hsub.
Qed.

Section WeightFilesFacts.
Variable glob : string -> list string.
Variable path_exists : string -> bool.

Lemma gathered_from (args acc : list string) (f : string) :
  f ∈ fold_left (gather_step glob path_exists) args acc
  <-> f ∈ acc \/ exists arg, arg ∈ args /\ contributes glob path_exists arg f.
Proof.
  revert acc. induction args as [|a args IH]; intros acc; simpl.
  - split; [tauto|]. intros [?|(arg & Hin & _)]; [assumption|inversion Hin].
  - rewrite IH. unfold gather_step, contributes.
    split.
    + intros [Hacc|(arg & Hin & Hc)].
      * destruct (str_in "*" a || str_in "?" a) eqn:Ew.
        -- apply elem_of_app in Hacc. destruct Hacc as [?|?]; [tauto|].
           right. exists a. rewrite Ew. split; [left|assumption].
        -- destruct (path_exists a) eqn:Ee; [|tauto].
           apply elem_of_app in Hacc. destruct Hacc as [?|Hfa]; [tauto|].
           apply list_elem_of_singleton in Hfa. right. exists a. rewrite Ew.
           split; [left|]. split; assumption.
      * right. exists arg. split; [right; exact Hin|exact Hc].
    + intros [Hacc|(arg & Hin & Hc)].
      * left. destruct (str_in "*" a || str_in "?" a); [apply elem_of_app; tauto|].
        destruct (path_exists a); [apply elem_of_app; tauto|assumption].
      * apply elem_of_cons in Hin. destruct Hin as [->|Hin]; [|right; eauto].
        left. destruct (str_in "*" a || str_in "?" a).
        -- apply elem_of_app. tauto.
        -- destruct Hc as [-> ->]. apply elem_of_app. right. left.
Qed.

(** X20. The files of the comparison hold no file twice; they are the
    matches of the arguments that hold a wildcard and the arguments without
    one that exist, in the order in which the arguments give them.  An
    argument with a wildcard that matches nothing adds nothing. *)
Theorem expand_file_patterns_unique (args : list string) :
  NoDup (expand_file_patterns glob path_exists args)
  /\ (forall f, f ∈ expand_file_patterns glob path_exists args
                <-> exists arg, arg ∈ args /\ contributes glob path_exists arg f)
  /\ sublist (expand_file_patterns glob path_exists args)
             (gathered_files glob path_exists args).
Proof.
  unfold expand_file_patterns.
  destruct (unique_fold (gathered_files glob path_exists args) [] ∅)
    as (Hn & Hm & k & Hk & Hsub).
  - intros f. split; intros Hf; [apply not_elem_of_empty in Hf; contradiction|inversion Hf].
  - constructor.
  - split; [exact Hn|]. split.
    + intros f. rewrite Hm. unfold gathered_files. rewrite gathered_from.
      split; [intros [Hf|[Hf|?]]; [inversion Hf|inversion Hf|assumption]|tauto].
    + rewrite Hk. exact Hsub.
Qed.

End WeightFilesFacts.

(** ** The colours of the weight configurations *)

Section ColorMappingFacts.
Variable dataset : Type.
Variable weight_summary : dataset -> string.

Lemma color_fold_keeps (l : list dataset) (config_colors : gmap string string)
    (color_idx : nat) (s c : string) :
  config_colors !! s = Some c ->
  (fold_left (color_step dataset weight_summary) l (config_colors, color_idx)).1 !! s
  = Some c.
Proof.
  revert config_colors color_idx. induction l as [|d l IH]; intros cc idx Hs; [exact Hs|].
  simpl. destruct (cc !! weight_summary d) eqn:E; [apply IH, Hs|].
  apply IH. rewrite lookup_insert_ne; [exact Hs|]. intros Heq. rewrite Heq in E. congruence.
Qed.

Lemma color_fold_state (p : list dataset) :
  let st := fold_left (color_step dataset weight_summary) p (∅, 0%nat) in
  (forall s, is_Some (st.1 !! s) <-> s ∈ map weight_summary p)
  /\ st.2 = size (list_to_set (map weight_summary p) : gset string).
Proof.
  induction p as [|d p IH] using rev_ind.
  - simpl. split; [|reflexivity]. intros s. rewrite lookup_empty. split.
    + intros [? ?]. discriminate.
    + intros Hin. inversion Hin.
  - rewrite fold_left_app. simpl.
    destruct (fold_left _ p (∅, 0%nat)) as [cc idx]. simpl in IH.
    destruct IH as [Hdom ->]. rewrite map_app, list_to_set_app_L. simpl.
    destruct (cc !! weight_summary d) as [c|] eqn:E; simpl.
    + assert (Hin : weight_summary d ∈ map weight_summary p) by (apply Hdom; eauto).
      split.
      * intros s. rewrite Hdom, elem_of_app, list_elem_of_singleton. split; [tauto|].
        intros [?| ->]; assumption.
      * f_equal. apply set_eq. intros s.
        rewrite !elem_of_union, elem_of_singleton, elem_of_list_to_set.
        split; [tauto|]. intros [?|[->|Hemp]]; [assumption|assumption|].
        apply not_elem_of_empty in Hemp. contradiction.
    + assert (Hnin : weight_summary d ∉ map weight_summary p).
      { intros Hin. apply Hdom in Hin. destruct Hin as [? ?]. congruence. }
      split.
      * intros s. rewrite lookup_insert_is_Some, Hdom, elem_of_app, list_elem_of_singleton.
        destruct (decide (weight_summary d = s)); intuition congruence.
      * rewrite size_union, union_empty_r_L, size_singleton; [lia|].
        intros s Hs Hs'. rewrite union_empty_r_L in Hs'.
        apply elem_of_singleton in Hs'. subst s.
        apply elem_of_list_to_set in Hs. contradiction.
Qed.

(** X21. A configuration gets its colour when its summary is met for the
    first time: the colour at the position, modulo ten, given by the number
    of different summaries met before; later documents do not change it. *)
Theorem color_of_configuration (pre post : list dataset) (data : dataset) :
  weight_summary data ∉ map weight_summary pre ->
  exists color,
    distinct_colors
      !! (size (list_to_set (map weight_summary pre) : gset string) mod 10)%nat
    = Some color
    /\ create_color_mapping dataset weight_summary (pre ++ data :: post)
       !! weight_summary data = Some color.
Proof.
  intros Hnew. unfold create_color_mapping. rewrite fold_left_app. cbn [fold_left].
  destruct (color_fold_state pre) as [Hdom Hidx].
  destruct (fold_left _ pre (∅, 0%nat)) as [cc idx]. cbn [fst snd] in Hdom, Hidx.
  destruct (cc !! weight_summary data) as [c|] eqn:E.
  { exfalso. apply Hnew, Hdom. eauto. }
  subst idx. set (k := size _) in *.
  assert (Hk : (k mod 10 < length distinct_colors)%nat)
    by (change (length distinct_colors) with 10%nat; apply Nat.mod_upper_bound; lia).
  apply lookup_lt_is_Some in Hk. destruct Hk as [color Hc].
  exists color. split; [exact Hc|].
  assert (Hstep : color_step dataset weight_summary (cc, k) data
                  = (<[weight_summary data := color]> cc, (k + 1)%nat)).
  { unfold color_step. rewrite E.
    change (length distinct_colors) with 10%nat. rewrite Hc. reflexivity. }
  rewrite Hstep. apply color_fold_keeps, lookup_insert_eq.
Qed.

End ColorMappingFacts.

(** ** Whether the bar chart is drawn *)

Lemma size_at_least_two {A : Type} (m : gmap nat A) :
  (2 <= size m)%nat <-> exists j k, j <> k /\ is_Some (m !! j) /\ is_Some (m !! k).
Proof.
  rewrite <- size_dom. split.
  - intros Hs.
    destruct (set_choose_L (dom m)) as [j Hj].
    { intros Hemp. rewrite Hemp, size_empty in Hs. lia. }
    destruct (set_choose_L (dom m ∖ {[j]})) as [k Hk].
    { intros Hemp. assert (Hsub : dom m ⊆ {[j]}).
      { intros x Hx. destruct (decide (x = j)) as [->|Hne];
          [apply elem_of_singleton; reflexivity|].
        assert (Hx' : x ∈ dom m ∖ {[j]}).
        { apply elem_of_difference. split; [exact Hx|].
          intros Hxj. apply elem_of_singleton in Hxj. contradiction. }
        rewrite Hemp in Hx'. apply not_elem_of_empty in Hx'. contradiction. }
      apply subseteq_size in Hsub. rewrite size_singleton in Hsub. lia. }
    apply elem_of_difference in Hk. destruct Hk as [Hk Hkj].
    exists j, k. split; [intros ->; apply Hkj, elem_of_singleton; reflexivity|].
    split; apply elem_of_dom; assumption.
  - intros (j & k & Hne & Hj & Hk). apply elem_of_dom in Hj, Hk.
    assert (Hsub : ({[j]} ∪ {[k]} : gset nat) ⊆ dom m).
    { intros x Hx. apply elem_of_union in Hx.
      destruct Hx as [Hx|Hx]; apply elem_of_singleton in Hx; subst x; assumption. }
    apply subseteq_size in Hsub. rewrite size_union in Hsub.
    + rewrite !size_singleton in Hsub. lia.
    + intros x Hx1 Hx2. apply elem_of_singleton in Hx1, Hx2. congruence.
Qed.

(** X22. When the grouping returns, the bar chart is drawn exactly when
    two of the results have different node counts. *)
Theorem bar_chart_needs_two_sizes (results : list result) (st : grouping) :
  collect_scenario_data results = Ok st ->
  enough_scenarios st.1 = true
  <-> exists r1 r2, r1 ∈ results /\ r2 ∈ results /\ node_count r1 <> node_count r2.
Proof.
  intros E. unfold enough_scenarios.
  rewrite negb_true_iff, bool_decide_eq_false.
  assert (Hkeys : forall n, is_Some (st.1 !! n)
                    <-> exists result, result ∈ results /\ node_count result = n).
  { intros n. unfold collect_scenario_data in E.
    rewrite (for_each_scenario_keys results (∅, []) st n E). simpl.
    rewrite lookup_empty. split; [intros [[x Hx]|?]; [discriminate|assumption]|tauto]. }
  split.
  - intros Hs. assert (Hs2 : (2 <= size st.1)%nat) by lia.
    apply size_at_least_two in Hs2. destruct Hs2 as (j & k & Hne & Hj & Hk).
    apply Hkeys in Hj, Hk. destruct Hj as (r1 & H1 & <-). destruct Hk as (r2 & H2 & <-).
    eauto.
  - intros (r1 & r2 & H1 & H2 & Hne).
    assert (Hs2 : (2 <= size st.1)%nat); [|lia].
    apply size_at_least_two. exists (node_count r1), (node_count r2).
    split; [exact Hne|]. split; apply Hkeys; eauto.
Qed.

(** * The further properties at concrete documents *)

(** The generator of numpy draws no 0 in the samples of one estimate. *)
Lemma mt19937_draws_positive :
  Forall (fun u => 0 < u)
         (unit_draws (H := MT19937.random_state) (3 * n_samples)
            (MT19937.legacy_seeding 42)).
Proof. apply (bool_decide_unpack _). vm_cast_no_check I. Qed.

Lemma single_front_min (c d b : Q) :
  componentwise_min (c, d, b) (map objective_row [sol3 c d b]).
Proof.
  intros m. split.
  - intros o Ho. apply list_elem_of_singleton in Ho as ->. apply Qle_refl.
  - exists (c, d, b). split; [left|reflexivity].
Qed.

Lemma hypervolume_within_box_witness :
  let front := [sol3 1 1 1] in
  let g := MT19937.legacy_seeding 0 in
  componentwise_min (1, 1, 1) (map objective_row front)
  /\ (forall m, coord m (1, 1, 1) <= coord m (2, 3, 4))
  /\ 0 <= (calculate_hypervolume (H := MT19937.random_state) g front (Some (2, 3, 4))).1
  /\ (calculate_hypervolume (H := MT19937.random_state) g front (Some (2, 3, 4))).1
     <= box_volume (1, 1, 1) (2, 3, 4).
Proof.
  intros front g.
  assert (Hbox : forall m, coord m (1, 1, 1) <= coord m (2, 3, 4)).
  { intros [|[|m]]; vm_compute; discriminate. }
  split; [apply single_front_min|]. split; [exact Hbox|].
  exact (hypervolume_within_box (H := MT19937.random_state) g (sol3 1 1 1) []
           (1, 1, 1) (2, 3, 4) (single_front_min 1 1 1) Hbox).
Defined.

Lemma hypervolume_of_ideal_front_witness :
  let front := [sol3 1 1 1; sol3 2 1 3] in
  Forall (fun u => 0 <= u)
         (unit_draws (H := MT19937.random_state) (3 * n_samples)
            (MT19937.legacy_seeding 42))
  /\ (calculate_hypervolume (H := MT19937.random_state) (MT19937.legacy_seeding 0)
        front (Some (4, 4, 4))).1
     == box_volume (1, 1, 1) (4, 4, 4).
Proof.
  intros front.
  assert (Hd : Forall (fun u => 0 <= u)
                 (unit_draws (H := MT19937.random_state) (3 * n_samples)
                    (MT19937.legacy_seeding 42))).
  { eapply Forall_impl; [exact mt19937_draws_positive|]. intros u. apply Qlt_le_weak. }
  split; [exact Hd|].
  apply (hypervolume_of_ideal_front (H := MT19937.random_state) Hd
           (MT19937.legacy_seeding 0) (sol3 1 1 1) [sol3 2 1 3] (sol3 1 1 1) (4, 4, 4)).
  - left.
  - intros s Hs. apply elem_of_cons in Hs. destruct Hs as [->|Hs].
    + repeat split; apply Qle_refl.
    + apply list_elem_of_singleton in Hs as ->. repeat split; vm_compute; discriminate.
  - repeat split; vm_compute; discriminate.
Defined.

Lemma hypervolume_monotone_witness :
  let g := MT19937.legacy_seeding 0 in
  Forall (fun e => forall m, coord m (1, 1, 1) <= coord m (objective_row e)) [sol3 2 1 3]
  /\ (calculate_hypervolume (H := MT19937.random_state) g [sol3 1 1 1] (Some (4, 4, 4))).1
     <= (calculate_hypervolume (H := MT19937.random_state) g
           ([sol3 1 1 1] ++ [sol3 2 1 3]) (Some (4, 4, 4))).1.
Proof.
  intros g.
  assert (Hextra : Forall (fun e => forall m, coord m (1, 1, 1) <= coord m (objective_row e))
                          [sol3 2 1 3]).
  { constructor; [|constructor]. intros [|[|m]]; vm_compute; discriminate. }
  split; [exact Hextra|].
  apply (hypervolume_monotone (H := MT19937.random_state) g (sol3 1 1 1) [] [sol3 2 1 3]
           (1, 1, 1) (4, 4, 4) (single_front_min 1 1 1)); [|exact Hextra].
  intros [|[|m]]; vm_compute; discriminate.
Defined.

Lemma calculate_metrics_returns `{RandomState} (argsort : list Q -> list nat) (g : rng)
    (data : result) (rs : list round_data) :
  rounds data = Some rs ->
  exists m g', calculate_metrics_over_time argsort g data = Ok (m, g').
Proof.
  intros Hrs. unfold calculate_metrics_over_time. rewrite Hrs.
  destruct (fold_left _ _ _) as [m g']. eauto.
Qed.

Lemma timeline_hypervolume_nonneg_witness :
  let data := sample_run 2 (Some scenario_rounds) None None in
  exists m g',
    calculate_metrics_over_time (H := MT19937.random_state) stable_argsort
      (MT19937.legacy_seeding 0) data = Ok (m, g')
    /\ Forall (fun h => 0 <= h) (metrics_hypervolume m).
Proof.
  intros data.
  destruct (calculate_metrics_returns (H := MT19937.random_state) stable_argsort
              (MT19937.legacy_seeding 0) data scenario_rounds eq_refl) as (m & g' & E).
  exists m, g'. split; [exact E|].
  exact (proj2 (timeline_hypervolume_nonneg (H := MT19937.random_state) stable_argsort
                  (MT19937.legacy_seeding 0) data scenario_rounds m g' eq_refl E)).
Defined.

Lemma timeline_small_fronts_witness :
  let data := sample_run 2 (Some scenario_rounds) None None in
  exists m g',
    calculate_metrics_over_time (H := MT19937.random_state) stable_argsort
      (MT19937.legacy_seeding 0) data = Ok (m, g')
    /\ metrics_hypervolume m !! 2%nat = Some 0
    /\ metrics_sparsity m !! 2%nat = Some 100
    /\ metrics_pareto_size m !! 2%nat = Some 0%nat.
Proof.
  intros data.
  destruct (calculate_metrics_returns (H := MT19937.random_state) stable_argsort
              (MT19937.legacy_seeding 0) data scenario_rounds eq_refl) as (m & g' & E).
  exists m, g'. split; [exact E|].
  exact (proj1 (timeline_small_fronts (H := MT19937.random_state) stable_argsort
                  (MT19937.legacy_seeding 0) data scenario_rounds m g' 2%nat
                  (front_round []) eq_refl E eq_refl) eq_refl).
Defined.

Lemma sparsity_bounds_witness :
  calculate_sparsity stable_argsort equal_cost_front = Fin (26 # 36)
  /\ 0 <= 26 # 36 /\ 26 # 36 <= 3.
Proof.
  split; [exact (proj2 equal_cost_sparsity)|].
  exact (sparsity_bounds stable_argsort stable_argsort_perm stable_argsort_ascending
           equal_cost_front (26 # 36) (proj2 equal_cost_sparsity)).
Defined.
Lemma scenario_data_keys_witness :
  let results := [sample_run 2 None None None; sample_run 5 None None None] in
  exists st,
    collect_scenario_data results = Ok st
    /\ is_Some (st.1 !! 5%nat)
    /\ ~ is_Some (st.1 !! 3%nat).
Proof.
  intros results.
  destruct (collect_scenario_data results) as [st|] eqn:E; [|discriminate E].
  exists st. split; [reflexivity|]. split.
  - apply (scenario_data_keys results st 5%nat E).
    exists (sample_run 5 None None None). split; [right; left|reflexivity].
  - intros Hs. apply (scenario_data_keys results st 3%nat E) in Hs.
    destruct Hs as (r & Hr & Hn).
    apply elem_of_cons in Hr. destruct Hr as [->|Hr]; [discriminate Hn|].
    apply list_elem_of_singleton in Hr as ->. discriminate Hn.
Defined.

Lemma grouping_raises_on_missing_key_witness :
  let b := {| algorithm := "Random Placement";
              baseline_fields := {[ "rawBalance" := VNum (Fin 7) ]} |} in
  let run := sample_run 2 None (Some [placement_baseline "Best Fit Decreasing" 10 5; b])
               None in
  baseline_fields b !! "rawCost" = None
  /\ exists e, collect_scenario_data [sample_run 3 None None None; run] = Raise e.
Proof.
  intros b run. split; [reflexivity|].
  apply (grouping_raises_on_missing_key [sample_run 3 None None None; run] run
           [placement_baseline "Best Fit Decreasing" 10 5; b] b).
  - right. left.
  - reflexivity.
  - right. left.
  - left. reflexivity.
Defined.

Lemma algorithm_data_concatenates_witness :
  let run := sample_run 3 None (Some three_baselines)
               (Some {[ "bestCost" := VNum (Fin 9) ]}) in
  let results := [run; sample_run 2 None None None; run] in
  exists per_run,
    Forall2 (fun r l => comparison_step [] r = Ok l) results per_run
    /\ collect_algorithm_data results = Ok (concat per_run).
Proof.
  intros run results.
  assert (Hc : Forall complete_baseline three_baselines).
  { repeat constructor; apply full_baseline_complete. }
  destruct (comparison_step_shape [] run Hc) as (records & _ & E).
  set (l := [] ++ (if has_final_results run
                   then [nsga_record (name (testCase run))
                           (default ∅ (comparisonMetrics run))]
                   else []) ++ records) in E.
  assert (F : Forall2 (fun r l => comparison_step [] r = Ok l) results [l; []; l]).
  { constructor; [exact E|]. constructor; [reflexivity|].
    constructor; [exact E|constructor]. }
  exists [l; []; l]. split; [exact F|].
  exact (algorithm_data_concatenates results [l; []; l] F).
Defined.

Lemma bar_values_at_most_line_values_witness :
  let run := sample_run 2 (Some [cost_round 12; cost_round 8; cost_round 9]) None None in
  exists st' sd' bar line c,
    scenario_step (∅, []) run = Ok st'
    /\ style_scenario_step ∅ run = Ok sd'
    /\ st'.1 !! 2%nat = Some bar
    /\ sd' !! 2%nat = Some line
    /\ nsga_ii bar !! "cost" = Some (VNum (Fin c))
    /\ nsga_ii line !! "cost" = Some (VNum (Fin 9))
    /\ c <= 9.
Proof.
  intros run.
  destruct (scenario_step (∅, []) run) as [st'|] eqn:E; [|discriminate E].
  destruct (style_scenario_step ∅ run) as [sd'|] eqn:E'; [|discriminate E'].
  destruct (bar_values_at_most_line_values (∅, []) st' ∅ sd' run (cost_round 12)
              [cost_round 8; cost_round 9] eq_refl E E')
    as (bar & line & c & l & d & Hbar & Hline & Hc & Hc' & Hle & _).
  exists st', sd', bar, line, c.
  split; [reflexivity|]. split; [reflexivity|]. split; [exact Hbar|].
  split; [exact Hline|]. split; [exact Hc|]. split; [exact Hc'|exact Hle].
Defined.

Lemma zero_streaks_trailing_zeros_witness :
  let feasible_movements := [5; 0; 0; 0; 2] in
  let zeros := [0; 0; 0; 0] in
  Forall (fun x => x == 0) zeros
  /\ zero_streaks feasible_movements = [(2, 4)%Z]
  /\ zero_streaks (feasible_movements ++ zeros) = zero_streaks feasible_movements
  /\ conv_start (feasible_movements ++ zeros) = conv_start feasible_movements.
Proof.
  intros feasible_movements zeros.
  assert (Hz : Forall (fun x => x == 0) zeros) by (repeat constructor).
  split; [exact Hz|]. split; [vm_compute; reflexivity|].
  destruct (zero_streaks_trailing_zeros feasible_movements zeros Hz) as (H1 & H2 & _).
  split; [exact H1|exact H2].
Defined.

Lemma diversity_panel_rounds_witness :
  let rs := [front_round equal_cost_front; front_round []] in
  let data := sample_run 2 (Some rs) None None in
  exists m g',
    calculate_metrics_over_time (H := MT19937.random_state) stable_argsort
      (MT19937.legacy_seeding 0) data = Ok (m, g')
    /\ 1%nat ∈ finite_rounds m
    /\ 2%nat ∉ finite_rounds m.
Proof.
  intros rs data.
  destruct (calculate_metrics_returns (H := MT19937.random_state) stable_argsort
              (MT19937.legacy_seeding 0) data rs eq_refl) as (m & g' & E).
  exists m, g'. split; [exact E|].
  destruct (diversity_panel_rounds (H := MT19937.random_state) stable_argsort
              stable_argsort_perm stable_argsort_ascending
              (MT19937.legacy_seeding 0) data rs m g' eq_refl E) as (Hshown & _).
  split.
  - apply Hshown. exists (front_round equal_cost_front), (26 # 36).
    split; [lia|]. split; [reflexivity|exact (proj2 equal_cost_sparsity)].
  - intros Hin. apply Hshown in Hin. destruct Hin as (r & q & _ & Hr & Hq).
    injection Hr as <-. discriminate Hq.
Defined.

Lemma moving_average_trend_witness :
  let movements := [4; 2; 0; 3; 1] in
  (3 < length movements)%nat
  /\ length (moving_avg movements) = 3%nat
  /\ moving_avg_rounds (seq 1 (length movements)) movements !! 0%nat = Some 3%nat
  /\ exists q, moving_avg movements !! 0%nat = Some q /\ q == (4 + 2 + 0) / 3.
Proof.
  intros movements.
  assert (Hn : (3 < length movements)%nat) by (simpl; lia).
  split; [exact Hn|].
  destruct (moving_average_trend movements Hn) as (Hlen & _ & Hk).
  split; [exact Hlen|].
  destruct (Hk 0%nat ltac:(simpl; lia)) as (Hr & q & Hq & Hv).
  split; [exact Hr|]. exists q. split; [exact Hq|exact Hv].
Defined.

Lemma color_of_configuration_witness :
  let pre := ["(0.3, 0.3, 0.3)"; "(0.8, 0.1, 0.1)"; "(0.3, 0.3, 0.3)"] in
  let post := ["(0.8, 0.1, 0.1)"] in
  ("(0.1, 0.8, 0.1)" ∉ map (fun s : string => s) pre)
  /\ create_color_mapping string (fun s => s) (pre ++ "(0.1, 0.8, 0.1)" :: post)
     !! "(0.1, 0.8, 0.1)" = Some "#2ca02c".
Proof.
  intros pre post.
  assert (Hnew : "(0.1, 0.8, 0.1)" ∉ map (fun s : string => s) pre).
  { intros Hin. repeat (apply elem_of_cons in Hin; destruct Hin as [Hin|Hin];
                        [discriminate Hin|]). inversion Hin. }
  split; [exact Hnew|].
  destruct (color_of_configuration string (fun s => s) pre post "(0.1, 0.8, 0.1)" Hnew)
    as (color & Hc & Hm).
  rewrite Hm. rewrite <- Hc. vm_compute. reflexivity.
Defined.

Lemma bar_chart_needs_two_sizes_witness :
  let results := [sample_run 2 None None None; sample_run 5 None None None] in
  exists st, collect_scenario_data results = Ok st /\ enough_scenarios st.1 = true.
Proof.
  intros results.
  destruct (collect_scenario_data results) as [st|] eqn:E; [|discriminate E].
  exists st. split; [reflexivity|].
  apply (bar_chart_needs_two_sizes results st E).
  exists (sample_run 2 None None None), (sample_run 5 None None None).
  split; [left|]. split; [right; left|]. vm_compute. discriminate.
Defined.

Lemma scatter_lists_witness :
  let rs := [front_round equal_cost_front; front_round []] in
  let data := sample_run 2 (Some rs) None None in
  exists m g',
    calculate_metrics_over_time (H := MT19937.random_state) stable_argsort
      (MT19937.legacy_seeding 0) data = Ok (m, g')
    /\ valid_indices m = [0%nat]
    /\ scatter_rounds m = Some [1%nat]
    /\ scatter_sparsity m = Some [26 # 36]
    /\ exists hs, scatter_hypervolume m = Some hs /\ length hs = 1%nat.
Proof.
  intros rs data.
  destruct (calculate_metrics_returns (H := MT19937.random_state) stable_argsort
              (MT19937.legacy_seeding 0) data rs eq_refl) as (m & g' & E).
  exists m, g'. split; [exact E|].
  destruct (scatter_lists (H := MT19937.random_state) stable_argsort
              (MT19937.legacy_seeding 0) data m g' E)
    as (Hr & Hs & (hs & Hh & Hlen) & _).
  assert (Hsp : metrics_sparsity m = [26 # 36; 100]).
  { rewrite (metrics_of_run (H := MT19937.random_state) stable_argsort
               (MT19937.legacy_seeding 0) data rs m g' eq_refl E).
    cbn [metrics_sparsity rs map paretoFront front_round].
    rewrite (proj2 equal_cost_sparsity). reflexivity. }
  assert (Hro : metrics_rounds m = [1; 2]%nat).
  { rewrite (metrics_of_run (H := MT19937.random_state) stable_argsort
               (MT19937.legacy_seeding 0) data rs m g' eq_refl E). reflexivity. }
  assert (Hfr : finite_rounds m = [1%nat]).
  { unfold finite_rounds. rewrite Hsp, Hro. reflexivity. }
  assert (Hfs : finite_sparsity m = [26 # 36]).
  { unfold finite_sparsity. rewrite Hsp. reflexivity. }
  split; [unfold valid_indices; rewrite Hsp; reflexivity|].
  split; [rewrite Hr, Hfr; reflexivity|].
  split; [rewrite Hs, Hfs; reflexivity|].
  exists hs. split; [exact Hh|]. rewrite Hlen, Hfr. reflexivity.
Defined.

(** * Properties that turn on the numbers of the machine *)

(** ** Fronts of integers *)






Section IntegerFronts.
Variable argsort : list Q -> list nat.




End IntegerFronts.

(** ** The sparsity as a mean *)




Section SparsityEstimate.
Variable argsort : list Q -> list nat.
Hypothesis argsort_perm : forall col : list Q, argsort col ≡ₚ seq 0 (length col).


End SparsityEstimate.



(** * The degenerate box *)

Lemma moderate_finite (low high : row) :
  moderate_ranges low high -> finite_ranges low high = true.
Proof.
  intros Hm. unfold finite_ranges, finite_difference.
  assert (Hlt : inject_Z (2 ^ 340) < overflow_threshold) by (vm_compute; reflexivity).
  assert (Hone : forall m, bool_decide (- overflow_threshold < coord m high - coord m low)
                           && bool_decide (coord m high - coord m low < overflow_threshold)
                           = true).
  { intros m. destruct (Hm m) as [Hlo Hhi].
    rewrite !bool_decide_eq_true_2; [reflexivity| |].
    - eapply Qle_lt_trans; [exact Hhi|exact Hlt].
    - eapply Qlt_le_trans; [|exact Hlo]. lra. }
  rewrite (Hone 0%nat), (Hone 1%nat), (Hone 2%nat). reflexivity.
Qed.

Lemma moderate_ranges_proper (low low' high : row) :
  (forall m, coord m low == coord m low') ->
  moderate_ranges low high -> moderate_ranges low' high.
Proof.
  intros E Hm m. destruct (Hm m) as [Hlo Hhi]. rewrite <- (E m). split; assumption.
Qed.

Section DegenerateBox.
Context `{RandomState}.

(** C5. The estimator has no guard for a box without volume.  For a front
    that is not empty, its componentwise minimum [low] and a reference point
    [high] whose ranges are moderate, the draw does not raise and the
    estimate is the number of dominated samples over 10000 times the product
    of the three differences [high - low], the samples being
    [low + (high - low) * u] for the draws after seeding with 42.  The
    estimate is 0 when [high] equals [low] in some coordinate, and it is 0
    or more when [high] is nowhere below [low].  Nothing is said of a
    reference point that lies below [low] somewhere. *)
Theorem hypervolume_degenerate_box (g : rng) (sol : solution) (sols : list solution)
    (low high : row) :
  let objs := map objective_row (sol :: sols) in
  let draws := unit_draws (3 * n_samples) (rk_seed 42) in
  let estimate := (calculate_hypervolume g (sol :: sols) (Some high)).1 in
  componentwise_min low objs ->
  moderate_ranges low high ->
  (exists g', calculate_hypervolume_checked g (sol :: sols) (Some high)
              = Some (estimate, g'))
  /\ (exists samples : list row,
         length samples = Z.to_nat 10000
         /\ (forall k p, samples !! k = Some p ->
               forall m, (m < 3)%nat ->
                 exists u, draws !! (3 * k + m)%nat = Some u
                           /\ coord m p == coord m low + (coord m high - coord m low) * u)
         /\ estimate == inject_Z (Z.of_nat (length (dominated_samples objs samples)))
                        / inject_Z 10000 * box_volume low high)
  /\ ((exists m : nat, coord m high == coord m low) -> estimate == 0)
  /\ ((forall m : nat, coord m low <= coord m high) -> 0 <= estimate).
Proof.
  intros objs draws estimate Hlow Hmod.
  set (lo := amin (objective_row sol) (map objective_row sols)).
  assert (E : forall m, coord m low == coord m lo).
  { intros m. apply (componentwise_min_unique _ _ _ m Hlow), amin_componentwise_min. }
  assert (Hest : estimate
                 == inject_Z (Z.of_nat (length (dominated_samples objs
                       (random_uniform lo high n_samples (rk_seed 42)).1)))
                    / inject_Z 10000 * box_volume low high).
  { subst estimate. rewrite calculate_hypervolume_cons. fold lo objs.
    rewrite (box_volume_proper low lo high E). reflexivity. }
  split.
  { exists (calculate_hypervolume g (sol :: sols) (Some high)).2.
    unfold calculate_hypervolume_checked. fold lo.
    rewrite (moderate_finite lo high (moderate_ranges_proper _ _ _ E Hmod)).
    subst estimate. destruct (calculate_hypervolume g (sol :: sols) (Some high)).
    reflexivity. }
  split.
  { exists (random_uniform lo high n_samples (rk_seed 42)).1.
    split; [apply random_uniform_length|]. split; [|exact Hest].
    intros k p Hk m Hm3.
    destruct (random_uniform_lookup lo high n_samples (rk_seed 42) k p Hk m Hm3)
      as (u & Hu & Hc).
    exists u. split; [exact Hu|]. rewrite Hc, (E m). reflexivity. }
  split.
  { intros (m & Hflat). rewrite Hest, (box_volume_zero low high m Hflat). ring. }
  intros Hbox. apply hypervolume_between. intros m. fold lo. rewrite <- (E m). apply Hbox.
Qed.

End DegenerateBox.

Lemma hypervolume_degenerate_box_witness :
  let front := [sol3 1 1 1] in
  let g := MT19937.legacy_seeding 0 in
  componentwise_min (1, 1, 1) (map objective_row front)
  /\ moderate_ranges (1, 1, 1) (1, 2, 3)
  /\ (calculate_hypervolume (H := MT19937.random_state) g front (Some (1, 2, 3))).1 == 0.
Proof.
  intros front g.
  assert (Hmod : moderate_ranges (1, 1, 1) (1, 2, 3)).
  { intros [|[|m]]; split; vm_compute; discriminate. }
  split; [apply single_front_min|]. split; [exact Hmod|].
  destruct (hypervolume_degenerate_box (H := MT19937.random_state) g (sol3 1 1 1) []
              (1, 1, 1) (1, 2, 3) (single_front_min 1 1 1) Hmod) as (_ & _ & Hflat & _).
  apply Hflat. exists 0%nat. reflexivity.
Defined.

(** On binary64 numbers the estimate can be negative: here the reference
    point lies one unit in the last place below the only solution in the
    first objective, 4967 of the samples round onto the solution and count
    as dominated, and the volume is negative.  A range that is not finite
    raises. *)
Lemma degenerate_box_negative_estimate :
  let front := [(0.5, 0.5, 0.5)%float] in
  let reference := (0x1.fffffffffffffp-2, 1, 1)%float in
  PrimFloat.ltb (Binary64.fcoord 0 reference) 0.5 = true
  /\ (exists h, Binary64.calculate_hypervolume front (Some reference) = Some h
                /\ PrimFloat.ltb h 0 = true
                /\ PrimFloat.eqb h 0 = false)
  /\ Binary64.calculate_hypervolume [(-0x1p1023, 0, 0)%float]
       (Some (0x1p1023, 1, 1)%float) = None.
Proof.
  split; [vm_compute; reflexivity|]. split.
  - eexists. split; [vm_compute; reflexivity|]. split; vm_compute; reflexivity.
  - vm_compute. reflexivity.
Qed.

(** ** When one turn of the record loop returns *)



